(** * Partial SVD through a Gram operator: [scipy/sparse/linalg/eigen/_svds.py]

    A shallow embedding of [svds] and of its helpers
    [_augmented_orthonormal_cols], [_augmented_orthonormal_rows] and [_herm].

    The numeric primitives that NumPy supplies (element arithmetic, square
    roots, comparisons, sorting, random draws) and the two eigensolvers are
    interfaces: the code of [svds] is written once over them and is then run
    on IEEE binary64 numbers and reasoned about over the complex numbers.

    An array carries its dtype character and its columns; all arrays of one
    run share one element type, so NumPy's casts between element types are
    not part of the model.  The global generator [np.random] and the calls
    made to the outside (the eigensolvers, the operator's callables, the
    constructors) are threaded through a state with a log. *)

From Stdlib Require Import Reals Lra.
From Stdlib Require Import Ascii String.
From Stdlib Require Import List ZArith Bool Lia Arith.
From Stdlib Require Import Permutation Sorted.
From Stdlib Require Import SpecFloat.
Import ListNotations.

Set Implicit Arguments.

(** ** Element arithmetic *)

(** What the code asks of the array elements.  [maximum], [gt] and [le] are
    NumPy's [np.maximum], [>] and the order [np.sort] sorts by; [imag_mul x]
    is [1j*x]; [lit_1E3], [lit_1E6] are the literals of the [factor] table and
    [finfo_eps t] is [np.finfo(t).eps]. *)
Class Scalar : Type := {
  scalar : Type;
  zero : scalar;
  one : scalar;
  add : scalar -> scalar -> scalar;
  sub : scalar -> scalar -> scalar;
  mul : scalar -> scalar -> scalar;
  div : scalar -> scalar -> scalar;
  sqrt : scalar -> scalar;
  conj : scalar -> scalar;
  real : scalar -> scalar;
  imag_mul : scalar -> scalar;
  maximum : scalar -> scalar -> scalar;
  gt : scalar -> scalar -> bool;
  le : scalar -> scalar -> bool;
  lit_1E3 : scalar;
  lit_1E6 : scalar;
  finfo_eps : ascii -> scalar
}.

(** ** Exceptions, the world and the monad of [svds] *)

Inductive numpy_failure : Type :=
| EmptyReduction      (* np.max of a zero-size array *)
| NegativeDimension   (* np.empty with a negative dimension *)
| ShapeMismatch       (* operands could not be broadcast / aligned *)
| IndexOutOfRange.    (* index or boolean mask does not fit the axis *)

Inductive exn : Type :=
| ValueError_which              (* "which must be either 'LM' or 'SM'." *)
| ValueError_k (k : Z)          (* "k must be between 1 and min(A.shape), k=%d" *)
| ValueError_solver             (* "solver must be either 'arpack', or 'lobpcg'." *)
| AttributeError_dtype          (* A.dtype on an object without that attribute *)
| KeyError (t : ascii)          (* factor[t] *)
| NumpyError (f : numpy_failure)
| ExternalError (code : Z).     (* raised by the operator or by an eigensolver *)

Inductive result (A : Type) : Type :=
| Ok (a : A)
| Err (e : exn).
Arguments Ok {A} a.
Arguments Err {A} e.

(** The calls that leave [svds], in the order in which they are made. *)
Inductive event : Type :=
| EvAsarray                    (* np.asarray(A) *)
| EvHerm                       (* _herm(A) of a plain matrix *)
| EvProbe                      (* A.dot(np.zeros([m, 1])) *)
| EvGram                       (* LinearOperator(matvec=..., matmat=...) *)
| EvInitDtype                  (* matvec_XH_X(np.zeros(N)), in that constructor *)
| EvRandomState (seed : Z)     (* np.random.RandomState(seed).randn(...) *)
| EvLobpcg                     (* lobpcg(XH_X, X, ...) *)
| EvEigsh                      (* eigsh(XH_X, k=k, ...) *)
| EvApply                      (* X_matmat(...) on the reliable vectors *)
| EvRandn (n : nat).           (* np.random.randn(n), the global generator *)

Section Model.

Context {S : Scalar}.

(** ** Arrays *)

(** A two-dimensional array, kept by columns together with its row count, so
    that an n-by-0 array still knows n.  [dtype] is [x.dtype.char]. *)
Record ndarray : Type := {
  dtype : ascii;
  nrows : nat;
  columns : list (list scalar)
}.

Definition ncols (x : ndarray) : nat := length (columns x).

Definition shape (x : ndarray) : nat * nat := (nrows x, ncols x).

(** Every column has [nrows] entries. *)
Definition well_shaped (x : ndarray) : Prop :=
  Forall (fun c => length c = nrows x) (columns x).

(** A one-dimensional array with its dtype (the starting vector [v0]). *)
Record vector : Type := {
  vdtype : ascii;
  vdata : list scalar
}.

(** The global generator of [np.random] and the seeded generators. *)
Class Random : Type := {
  rng_state : Type;
  randn : rng_state -> nat -> list scalar * rng_state;
  RandomState_randn : Z -> nat -> nat -> ndarray
}.

Context {R : Random}.

Record world : Type := {
  rng : rng_state;
  log : list event
}.

Definition M (A : Type) : Type := world -> result A * world.

Definition ret {A} (a : A) : M A := fun w => (Ok a, w).

Definition raise {A} (e : exn) : M A := fun w => (Err e, w).

Definition bind {A B} (c : M A) (f : A -> M B) : M B :=
  fun w => match c w with
           | (Ok a, w') => f a w'
           | (Err e, w') => (Err e, w')
           end.

Definition lift {A} (r : result A) : M A := fun w => (r, w).

Definition tick (e : event) : M unit :=
  fun w => (Ok tt, {| rng := rng w; log := log w ++ [e] |}).

(** [np.random.randn(n)]: draws from, and advances, the global generator. *)
Definition np_random_randn (n : nat) : M (list scalar) :=
  fun w => let (v, g) := randn (rng w) n in
           (Ok v, {| rng := g; log := log w ++ [EvRandn n] |}).

End Model.

Notation "x <- c ;; k" := (bind c (fun x => k))
  (at level 61, c at next level, right associativity).
Notation "c ;;; k" := (bind c (fun _ => k))
  (at level 61, right associativity).

(** ** Array operations used by the code *)

Section Arrays.

Context {S : Scalar} {R : Random}.

Fixpoint zip_with {A B C} (f : A -> B -> C) (a : list A) (b : list B) : list C :=
  match a, b with
  | x :: a', y :: b' => f x y :: zip_with f a' b'
  | _, _ => []
  end.

(** [np.dot(a, b)] of two one-dimensional arrays of one length. *)
Definition np_dot (a b : list scalar) : scalar :=
  fold_left add (zip_with mul a b) zero.

(** [u.conj()] of a one-dimensional array. *)
Definition vconj (u : list scalar) : list scalar := map conj u.

(** [x.T] *)
Definition transpose (x : ndarray) : ndarray :=
  {| dtype := dtype x;
     nrows := ncols x;
     columns := map (fun i => map (fun c => nth i c zero) (columns x))
                    (seq 0 (nrows x)) |}.

(** [x.conj()] of a two-dimensional array. *)
Definition conj_array (x : ndarray) : ndarray :=
  {| dtype := dtype x; nrows := nrows x; columns := map vconj (columns x) |}.

(** [def _herm(x): return x.T.conj()] *)
Definition _herm (x : ndarray) : ndarray := conj_array (transpose x).

(** [np.iscomplexobj(x)]: the dtype is complex64, complex128 or clongdouble. *)
Definition iscomplexobj (x : ndarray) : bool :=
  (dtype x =? "F")%char || (dtype x =? "D")%char || (dtype x =? "G")%char.

(** One pass of the inner loop of [_augmented_orthonormal_cols]:
    [u = y[:, j]; v -= (np.dot(v, u.conj()) / np.dot(u, u.conj())) * u]. *)
Definition subtract_projection (v u : list scalar) : list scalar :=
  let c := div (np_dot v (vconj u)) (np_dot u (vconj u)) in
  zip_with sub v (map (mul c) u).

(** [v /= np.sqrt(np.dot(v, v.conj()))] *)
Definition normalize (v : list scalar) : list scalar :=
  let s := sqrt (np_dot v (vconj v)) in
  map (fun a => div a s) v.

(** The sample of one iteration: [v = np.random.randn(n)], made complex by
    [v = v + 1j*np.random.randn(n)] when [x] is a complex array. *)
Definition sample (n : nat) (cplx : bool) : M (list scalar) :=
  v <- np_random_randn n ;;
  if cplx then
    w <- np_random_randn n ;;
    ret (zip_with add v (map imag_mul w))
  else ret v.

(** The loop [for i in range(k)] of [_augmented_orthonormal_cols]; [y] holds
    the columns [y[:, :m+i]] written so far (the others are never read), and
    the inner loop [for j in range(m+i)] runs over exactly these. *)
Fixpoint augment_loop (n : nat) (cplx : bool) (k : nat)
    (y : list (list scalar)) : M (list (list scalar)) :=
  match k with
  | O => ret y
  | Datatypes.S k' =>
      v <- sample n cplx ;;
      let v := fold_left subtract_projection y v in
      let v := normalize v in
      augment_loop n cplx k' (y ++ [v])
  end.

(** [_augmented_orthonormal_cols(x, k)].  For [k < 0] nothing is drawn and
    NumPy decides: [np.empty((n, m+k))] refuses a negative dimension, and
    [y[:, :m] = x] broadcasts only a single column into no column. *)
Definition _augmented_orthonormal_cols (x : ndarray) (k : Z) : M ndarray :=
  let n := nrows x in
  let m := ncols x in
  if (k <? 0)%Z then
    if (Z.of_nat m + k <? 0)%Z then raise (NumpyError NegativeDimension)
    else if (m =? 1)%nat
         then ret {| dtype := dtype x; nrows := n; columns := [] |}
         else raise (NumpyError ShapeMismatch)
  else
    y <- augment_loop n (iscomplexobj x) (Z.to_nat k) (columns x) ;;
    ret {| dtype := dtype x; nrows := n; columns := y |}.

(** [def _augmented_orthonormal_rows(x, k):
         return _augmented_orthonormal_cols(x.T, k).T] *)
Definition _augmented_orthonormal_rows (x : ndarray) (k : Z) : M ndarray :=
  y <- _augmented_orthonormal_cols (transpose x) k ;;
  ret (transpose y).

(** [a[mask]] for a one-dimensional [a] and a boolean mask of its length. *)
Fixpoint compress {A} (mask : list bool) (a : list A) : list A :=
  match mask, a with
  | b :: mask', x :: a' => if b then x :: compress mask' a' else compress mask' a'
  | _, _ => []
  end.

(** [x[:, mask]]: the mask must have one entry per column. *)
Definition mask_columns (x : ndarray) (mask : list bool) : result ndarray :=
  if (length mask =? ncols x)%nat then
    Ok {| dtype := dtype x; nrows := nrows x;
          columns := compress mask (columns x) |}
  else Err (NumpyError IndexOutOfRange).

(** [a[idx]] for an integer index array: every index must be in range. *)
Fixpoint take {A} (a : list A) (idx : list nat) : result (list A) :=
  match idx with
  | [] => Ok []
  | i :: idx' =>
      match nth_error a i, take a idx' with
      | Some x, Ok r => Ok (x :: r)
      | None, _ => Err (NumpyError IndexOutOfRange)
      | _, Err e => Err e
      end
  end.

(** [u[:, idx]] *)
Definition take_columns (u : ndarray) (idx : list nat) : result ndarray :=
  match take (columns u) idx with
  | Ok cs => Ok {| dtype := dtype u; nrows := nrows u; columns := cs |}
  | Err e => Err e
  end.

(** [vh[idx]]: the rows of [vh] picked by [idx]. *)
Definition take_rows (vh : ndarray) (idx : list nat) : result ndarray :=
  match take_columns (transpose vh) idx with
  | Ok t => Ok (transpose t)
  | Err e => Err e
  end.

(** [y / s] for a two-dimensional [y] and a one-dimensional [s]: column [j]
    is divided by [s[j]], a single column or a single divisor is broadcast,
    any other pair of lengths is refused. *)
Definition divide (y : ndarray) (s : list scalar) : result ndarray :=
  let mk cs := Ok {| dtype := dtype y; nrows := nrows y; columns := cs |} in
  if (ncols y =? length s)%nat then
    mk (zip_with (fun c d => map (fun a => div a d) c) (columns y) s)
  else
    match columns y, s with
    | [c], _ => mk (map (fun d => map (fun a => div a d) c) s)
    | _, [d] => mk (map (fun c => map (fun a => div a d) c) (columns y))
    | _, _ => Err (NumpyError ShapeMismatch)
    end.

(** [A.dot(x)] of a plain matrix, for a one- and a two-dimensional [x];
    the inner dimensions must agree.  The result carries the dtype of [A]. *)
Definition matrix_vector (A : ndarray) (x : list scalar) : list scalar :=
  fold_left (fun acc cx => zip_with add acc (map (fun a => mul a (snd cx)) (fst cx)))
            (combine (columns A) x) (repeat zero (nrows A)).

Definition dot_vector (A : ndarray) (x : vector) : result vector :=
  if (ncols A =? length (vdata x))%nat then
    Ok {| vdtype := dtype A; vdata := matrix_vector A (vdata x) |}
  else Err (NumpyError ShapeMismatch).

Definition dot_matrix (A : ndarray) (x : ndarray) : result ndarray :=
  if (ncols A =? nrows x)%nat then
    Ok {| dtype := dtype A; nrows := nrows A;
          columns := map (matrix_vector A) (columns x) |}
  else Err (NumpyError ShapeMismatch).

(** [np.max(a)]: a reduction by [maximum]; an empty array has no maximum. *)
Definition np_max (a : list scalar) : result scalar :=
  match a with
  | [] => Err (NumpyError EmptyReduction)
  | x :: a' => Ok (fold_left maximum a' x)
  end.

(** [np.reshape(v0, (-1, 1))] *)
Definition reshape_column (v0 : vector) : ndarray :=
  {| dtype := vdtype v0; nrows := length (vdata v0); columns := [vdata v0] |}.

(** [str.lower] on a dtype character. *)
Definition lower (c : ascii) : ascii :=
  let n := nat_of_ascii c in
  if (65 <=? n)%nat && (n <=? 90)%nat then ascii_of_nat (n + 32) else c.

End Arrays.

(** ** Operators, solvers and sorting *)

Section Interfaces.

Context {S : Scalar}.

(** A [LinearOperator] as [svds] uses it.  [lo_dtype] is the attribute
    [dtype]: [None] when the object has no such attribute, [Some None] when
    the attribute holds [None]. *)
Record LinearOperator : Type := {
  lo_shape : nat * nat;
  lo_dtype : option (option ascii);
  matvec : vector -> result vector;
  matmat : ndarray -> result ndarray;
  rmatvec : vector -> result vector;
  rmatmat : ndarray -> result ndarray
}.

(** The argument [A]: a [LinearOperator], a sparse matrix, or anything else,
    which [np.asarray] turns into an array. *)
Inductive operand : Type :=
| OpLinear (A : LinearOperator)
| OpSparse (A : ndarray)
| OpArrayLike (A : ndarray).

(** The operator [XH_X] that [svds] builds with
    [LinearOperator(matvec=..., dtype=..., matmat=..., shape=...)]. *)
Record GramOperator : Type := {
  g_matvec : vector -> result vector;
  g_dtype : option ascii;
  g_matmat : ndarray -> result ndarray;
  g_shape : nat * nat
}.

(** The two eigensolvers, with the arguments [svds] passes them:
    [eigsh(XH_X, k, tol, maxiter, ncv, which, v0)] and
    [lobpcg(XH_X, X, tol, maxiter, largest)].  Each returns
    [(eigvals, eigvec)] or raises. *)
Class Solvers : Type := {
  eigsh : GramOperator -> Z -> scalar -> option Z -> option Z -> string ->
          option vector -> result (list scalar * ndarray);
  lobpcg : GramOperator -> ndarray -> scalar -> option Z -> bool ->
           result (list scalar * ndarray)
}.

(** [np.sort] and [np.argsort] on one-dimensional arrays. *)
Class Sorting : Type := {
  np_sort : list scalar -> list scalar;
  np_argsort : list scalar -> list nat
}.

(** The argument [return_singular_vectors]: a bool or a string. *)
Inductive rsv_arg : Type :=
| RsvBool (b : bool)
| RsvStr (s : string).

(** Python truth value: [False] and the empty string are false. *)
Definition truthy (r : rsv_arg) : bool :=
  match r with
  | RsvBool b => b
  | RsvStr s => negb (s =? "")%string
  end.

(** [return_singular_vectors != name] *)
Definition rsv_differs (r : rsv_arg) (name : string) : bool :=
  match r with
  | RsvBool _ => true
  | RsvStr s => negb (s =? name)%string
  end.

(** What [svds] returns: [np.sort(s)], or the tuple [(u, s, vh)]. *)
Inductive svds_out : Type :=
| OutValues (s : list scalar)
| OutTriple (u : option ndarray) (s : list scalar) (vh : option ndarray).

End Interfaces.

(** ** The function [svds] *)

Section Svds.

Context {S : Scalar} {R : Random} {Sv : Solvers} {So : Sorting}.

(** [A.shape] *)
Definition operand_shape (A : operand) : nat * nat :=
  match A with
  | OpLinear L => lo_shape L
  | OpSparse a | OpArrayLike a => shape a
  end.

(** [A.dtype]: an attribute error when the object has no such attribute. *)
Definition operand_dtype (A : operand) : result (option ascii) :=
  match A with
  | OpLinear L =>
      match lo_dtype L with
      | Some d => Ok d
      | None => Err AttributeError_dtype
      end
  | OpSparse a | OpArrayLike a => Ok (Some (dtype a))
  end.

(** The four callables bound in lines 149-171. *)
Record primitives : Type := {
  X_dot : vector -> result vector;
  X_matmat : ndarray -> result ndarray;
  XH_dot : vector -> result vector;
  XH_mat : ndarray -> result ndarray
}.

(** [np.zeros([m, 1])], which [LinearOperator.dot] hands to [matvec]. *)
Definition zeros_column (m : nat) : vector :=
  {| vdtype := "d"%char; vdata := repeat zero m |}.

(** Lines 149-171.  In the [else] of the [LinearOperator] case the local
    [dtype] is computed, by [getattr(A, 'dtype', None)] and if that is [None]
    by the probe [A.dot(np.zeros([m, 1])).dtype]; nothing reads it later. *)
Definition select_primitives (A : operand) (n m : nat) : M primitives :=
  match A with
  | OpLinear L =>
      if (m <? n)%nat then
        ret {| X_dot := matvec L; X_matmat := matmat L;
               XH_dot := rmatvec L; XH_mat := rmatmat L |}
      else
        _dtype <- match lo_dtype L with
                  | Some (Some d) => ret d
                  | _ => tick EvProbe ;;;
                         r <- lift (matvec L (zeros_column m)) ;;
                         ret (vdtype r)
                  end ;;
        ret {| X_dot := rmatvec L; X_matmat := rmatmat L;
               XH_dot := matvec L; XH_mat := matmat L |}
  | OpSparse a | OpArrayLike a =>
      tick EvHerm ;;;
      if (m <? n)%nat then
        ret {| X_dot := dot_vector a; X_matmat := dot_matrix a;
               XH_dot := dot_vector (_herm a); XH_mat := dot_matrix (_herm a) |}
      else
        ret {| XH_dot := dot_vector a; XH_mat := dot_matrix a;
               X_dot := dot_vector (_herm a); X_matmat := dot_matrix (_herm a) |}
  end.

(** [def matvec_XH_X(x): return XH_dot(X_dot(x))] *)
Definition matvec_XH_X (p : primitives) (x : vector) : result vector :=
  match X_dot p x with
  | Ok y => XH_dot p y
  | Err e => Err e
  end.

(** [def matmat_XH_X(x): return XH_mat(X_matmat(x))] *)
Definition matmat_XH_X (p : primitives) (x : ndarray) : result ndarray :=
  match X_matmat p x with
  | Ok y => XH_mat p y
  | Err e => Err e
  end.

(** [np.zeros(N)], on which the constructor of [LinearOperator] tries
    [matvec] when it is given no dtype. *)
Definition zeros_vector (n : nat) : vector :=
  {| vdtype := "d"%char; vdata := repeat zero n |}.

(** Lines 179-181: [XH_X = LinearOperator(matvec=matvec_XH_X, dtype=A.dtype,
    matmat=matmat_XH_X, shape=(min(A.shape), min(A.shape)))].  The
    constructor (in [scipy/sparse/linalg/interface.py]) takes a dtype as it
    is given; when [A.dtype] is [None] it finds one by
    [np.asarray(self.matvec(np.zeros(N))).dtype], where [matvec] reshapes
    the result to [N] entries. *)
Definition gram_operator (A : operand) (p : primitives) (n m : nat)
    : M GramOperator :=
  d <- lift (operand_dtype A) ;;
  tick EvGram ;;;
  d <- match d with
       | Some t => ret (Some t)
       | None =>
           tick EvInitDtype ;;;
           r <- lift (matvec_XH_X p (zeros_vector (Nat.min n m))) ;;
           if (length (vdata r) =? Nat.min n m)%nat then ret (Some (vdtype r))
           else raise (NumpyError ShapeMismatch)
       end ;;
  ret {| g_matvec := matvec_XH_X p; g_dtype := d;
         g_matmat := matmat_XH_X p; g_shape := (Nat.min n m, Nat.min n m) |}.

(** Lines 185-200: the choice of the eigensolver. *)
Definition dispatch (XH_X : GramOperator) (n m : nat) (k : Z) (ncv : option Z)
    (tol : scalar) (which : string) (largest : bool) (v0 : option vector)
    (maxiter : option Z) (solver : option string)
    : M (list scalar * ndarray) :=
  let lobpcg_branch :=
    X <- match (k =? 1)%Z, v0 with
         | true, Some v => ret (reshape_column v)
         | _, _ => tick (EvRandomState 52) ;;;
                   ret (RandomState_randn 52 (Nat.min n m) (Z.to_nat k))
         end ;;
    tick EvLobpcg ;;;
    lift (lobpcg XH_X X (mul tol tol) maxiter largest) in
  let arpack_branch :=
    tick EvEigsh ;;;
    lift (eigsh XH_X k (mul tol tol) maxiter ncv which v0) in
  match solver with
  | None => arpack_branch
  | Some name =>
      if (name =? "lobpcg")%string then lobpcg_branch
      else if (name =? "arpack")%string then arpack_branch
      else raise ValueError_solver
  end.

(** What lines 134-200 leave for the rest of the function. *)
Record solved : Type := {
  sv_n : nat;
  sv_m : nat;
  sv_X_matmat : ndarray -> result ndarray;
  sv_eigvals : list scalar;
  sv_eigvec : ndarray
}.

(** Lines 134-200. *)
Definition svds_eigenpairs (A : operand) (k : Z) (ncv : option Z)
    (tol : scalar) (which : string) (v0 : option vector) (maxiter : option Z)
    (solver : option string) : M solved :=
  largest <- (if (which =? "LM")%string then ret true
              else if (which =? "SM")%string then ret false
              else raise ValueError_which) ;;
  match A with OpArrayLike _ => tick EvAsarray | _ => ret tt end ;;;
  let (n, m) := operand_shape A in
  if (k <=? 0)%Z || (k >=? Z.of_nat (Nat.min n m))%Z then raise (ValueError_k k)
  else
    p <- select_primitives A n m ;;
    XH_X <- gram_operator A p n m ;;
    ev <- dispatch XH_X n m k ncv tol which largest v0 maxiter solver ;;
    ret {| sv_n := n; sv_m := m; sv_X_matmat := X_matmat p;
           sv_eigvals := fst ev; sv_eigvec := snd ev |}.

(** [eigvals = np.maximum(eigvals.real, 0)] *)
Definition clamp (eigvals : list scalar) : list scalar :=
  map (fun e => maximum (real e) zero) eigvals.

(** [factor = {'f': 1E3, 'd': 1E6}] and the subscription [factor[t]]. *)
Definition factor : list (ascii * scalar) :=
  [("f"%char, lit_1E3); ("d"%char, lit_1E6)].

Fixpoint getitem (d : list (ascii * scalar)) (t : ascii) : result scalar :=
  match d with
  | [] => Err (KeyError t)
  | (key, v) :: d' => if (key =? t)%char then Ok v else getitem d' t
  end.

(** Lines 206-209, on the clamped eigenvalues. *)
Definition cutoff_of (eigvec : ndarray) (eigvals : list scalar) : result scalar :=
  let t := lower (dtype eigvec) in
  match getitem factor t with
  | Err e => Err e
  | Ok f =>
      let cond := mul f (finfo_eps t) in
      match np_max eigvals with
      | Err e => Err e
      | Ok mx => Ok (mul cond mx)
      end
  end.

(** [above_cutoff = (eigvals > cutoff)] *)
Definition above (cutoff : scalar) (eigvals : list scalar) : list bool :=
  map (fun e => gt e cutoff) eigvals.

(** [nlarge = above_cutoff.sum()] *)
Definition count_true (mask : list bool) : nat := length (filter (fun b => b) mask).

(** Lines 216-218: [slarge = np.sqrt(eigvals[above_cutoff]);
    s = np.zeros_like(eigvals); s[:nlarge] = slarge]. *)
Definition assemble_values (eigvals : list scalar) (mask : list bool)
    : list scalar :=
  let slarge := map sqrt (compress mask eigvals) in
  slarge ++ repeat zero (length eigvals - count_true mask).

(** Lines 222-228: the reliable vectors of both sides. *)
Definition reliable_vectors (c : solved) (mask : list bool)
    (slarge : list scalar) (rsv : rsv_arg)
    : M (option ndarray * option ndarray) :=
  if (sv_m c <? sv_n c)%nat then
    vlarge <- lift (mask_columns (sv_eigvec c) mask) ;;
    ularge <- (if rsv_differs rsv "vh" then
                 tick EvApply ;;;
                 y <- lift (sv_X_matmat c vlarge) ;;
                 q <- lift (divide y slarge) ;;
                 ret (Some q)
               else ret None) ;;
    ret (ularge, Some (_herm vlarge))
  else
    ularge <- lift (mask_columns (sv_eigvec c) mask) ;;
    vhlarge <- (if rsv_differs rsv "u" then
                  tick EvApply ;;;
                  y <- lift (sv_X_matmat c ularge) ;;
                  q <- lift (divide y slarge) ;;
                  ret (Some (_herm q))
                else ret None) ;;
    ret (Some ularge, vhlarge).

(** [f(x, k) if x is not None else None] *)
Definition if_not_None (f : ndarray -> Z -> M ndarray) (x : option ndarray)
    (k : Z) : M (option ndarray) :=
  match x with
  | Some a => y <- f a k ;; ret (Some y)
  | None => ret None
  end.

(** [x[idx] if x is not None] *)
Definition index_if_not_None (f : ndarray -> list nat -> result ndarray)
    (x : option ndarray) (idx : list nat) : M (option ndarray) :=
  match x with
  | Some a => y <- lift (f a idx) ;; ret (Some y)
  | None => ret None
  end.

(** Lines 202-240. *)
Definition svds_assemble (k : Z) (return_singular_vectors : rsv_arg)
    (c : solved) : M svds_out :=
  let eigvals := clamp (sv_eigvals c) in
  cutoff <- lift (cutoff_of (sv_eigvec c) eigvals) ;;
  let above_cutoff := above cutoff eigvals in
  let nlarge := count_true above_cutoff in
  let nsmall := (k - Z.of_nat nlarge)%Z in
  let slarge := map sqrt (compress above_cutoff eigvals) in
  let s := assemble_values eigvals above_cutoff in
  if negb (truthy return_singular_vectors) then ret (OutValues (np_sort s))
  else
    uv <- reliable_vectors c above_cutoff slarge return_singular_vectors ;;
    u <- if_not_None _augmented_orthonormal_cols (fst uv) nsmall ;;
    vh <- if_not_None _augmented_orthonormal_rows (snd uv) nsmall ;;
    let indexes_sorted := np_argsort s in
    s <- lift (take s indexes_sorted) ;;
    u <- index_if_not_None take_columns u indexes_sorted ;;
    vh <- index_if_not_None take_rows vh indexes_sorted ;;
    ret (OutTriple u s vh).

(** [svds(A, k, ncv, tol, which, v0, maxiter, return_singular_vectors,
    solver)] *)
Definition svds (A : operand) (k : Z) (ncv : option Z) (tol : scalar)
    (which : string) (v0 : option vector) (maxiter : option Z)
    (return_singular_vectors : rsv_arg) (solver : option string)
    : M svds_out :=
  c <- svds_eigenpairs A k ncv tol which v0 maxiter solver ;;
  svds_assemble k return_singular_vectors c.

End Svds.

(** ** A sorting routine for the [Sorting] interface

    A stable insertion sort by [le] that moves the values not comparable
    with themselves (NaN) to the end, as NumPy does. *)

Section InsertionSort.

Context {S : Scalar}.

(** [x] may stand before [y]. *)
Definition before (x y : scalar) : bool := le x y || negb (le y y).

Fixpoint insert_by {A} (key : A -> scalar) (x : A) (l : list A) : list A :=
  match l with
  | [] => [x]
  | y :: l' => if before (key x) (key y) then x :: l else y :: insert_by key x l'
  end.

Definition sort_by {A} (key : A -> scalar) (l : list A) : list A :=
  fold_right (insert_by key) [] l.

Definition insertion_sort (l : list scalar) : list scalar :=
  sort_by (fun x => x) l.

Definition insertion_argsort (l : list scalar) : list nat :=
  map snd (sort_by fst (combine l (seq 0 (length l)))).

Definition InsertionSorting : Sorting :=
  {| np_sort := insertion_sort; np_argsort := insertion_argsort |}.

End InsertionSort.

(** ** IEEE binary64 arithmetic

    All element arithmetic in double precision, by the executable
    specification of IEEE 754 of the standard library.  The numbers are
    real: this instance has no imaginary unit, and [1j*x] is not a number. *)

Module Binary64.

Definition prec : Z := 53.
Definition emax : Z := 1024.

Definition of_Z (z : Z) : spec_float := binary_normalize prec emax z 0 false.

(** [m * 2^e] *)
Definition ldexp (m e : Z) : spec_float := binary_normalize prec emax m e false.

Definition isnan (x : spec_float) : bool :=
  match x with S754_nan => true | _ => false end.

(** [np.maximum]: a NaN operand is returned, otherwise the larger one. *)
Definition fmaximum (a b : spec_float) : spec_float :=
  if isnan a then a else if isnan b then b else if SFleb b a then a else b.

Definition Binary64Scalar : Scalar :=
  {| scalar := spec_float;
     zero := S754_zero false;
     one := of_Z 1;
     add := SFadd prec emax;
     sub := SFsub prec emax;
     mul := SFmul prec emax;
     div := SFdiv prec emax;
     sqrt := SFsqrt prec emax;
     conj := fun x => x;
     real := fun x => x;
     imag_mul := fun _ => S754_nan;
     maximum := fmaximum;
     gt := fun a b => SFltb b a;
     le := SFleb;
     lit_1E3 := of_Z 1000;
     lit_1E6 := of_Z 1000000;
     finfo_eps := fun t => if (t =? "f")%char then ldexp 1 (-23) else ldexp 1 (-52) |}.

#[local] Existing Instance Binary64Scalar.

Local Open Scope Z_scope.

(** A triple that orders the numbers as [SFcompare] does. *)
Definition rank (x : spec_float) : Z * (Z * Z) :=
  match x with
  | S754_nan => (0, (0, 0))
  | S754_infinity true => (-2, (0, 0))
  | S754_finite true m e => (-1, (- e, - Zpos m))
  | S754_zero _ => (0, (0, 0))
  | S754_finite false m e => (1, (e, Zpos m))
  | S754_infinity false => (2, (0, 0))
  end.

Definition lex_le (a b : Z * (Z * Z)) : Prop :=
  fst a < fst b
  \/ (fst a = fst b
      /\ (fst (snd a) < fst (snd b)
          \/ (fst (snd a) = fst (snd b) /\ snd (snd a) <= snd (snd b)))).

Local Close Scope Z_scope.

(** A generator whose state is the position in a fixed sequence of small
    integers with period eleven. *)
Definition stream (i : nat) : spec_float :=
  of_Z (Z.of_nat ((5 * i + 1) mod 11) - 5).

Definition CounterRandom : Random :=
  {| rng_state := nat;
     randn := fun g n => (map stream (seq g n), g + n);
     RandomState_randn := fun seed r c =>
       {| dtype := "d"%char; nrows := r;
          columns := map (fun j => map (fun i => stream (Z.to_nat seed + j * r + i))
                                       (seq 0 r))
                         (seq 0 c) |} |}.

(** An eigensolver for Gram operators that are diagonal: it applies the
    operator to the identity, reads the diagonal, and returns the [k]
    largest or smallest entries in ascending order, each with the unit
    vector of its position. *)
Definition unit_vector (n i : nat) : list spec_float :=
  map (fun j => if (j =? i)%nat then of_Z 1 else S754_zero false) (seq 0 n).

Definition identity (n : nat) : ndarray :=
  {| dtype := "d"%char; nrows := n;
     columns := map (unit_vector n) (seq 0 n) |}.

Definition diagonal_solver (XH_X : GramOperator) (k : Z) (largest : bool)
    : result (list spec_float * ndarray) :=
  let n := fst (g_shape XH_X) in
  match g_matmat XH_X (identity n) with
  | Err e => Err e
  | Ok G =>
      let d := map (fun i => nth i (nth i (columns G) []) (S754_zero false))
                   (seq 0 n) in
      let sorted := sort_by fst (combine d (seq 0 n)) in
      let chosen := if largest then skipn (n - Z.to_nat k) sorted
                    else firstn (Z.to_nat k) sorted in
      Ok (map fst chosen,
          {| dtype := match g_dtype XH_X with Some t => t | None => "d"%char end;
             nrows := n;
             columns := map (fun p => unit_vector n (snd p)) chosen |})
  end.

Definition DiagonalSolvers : Solvers :=
  {| eigsh := fun XH_X k _ _ _ which _ =>
       diagonal_solver XH_X k (which =? "LM")%string;
     lobpcg := fun XH_X X _ _ largest =>
       diagonal_solver XH_X (Z.of_nat (ncols X)) largest |}.

(** An array of binary64 numbers, given by columns. *)
Definition array (t : ascii) (n : nat) (cols : list (list spec_float))
    : @ndarray Binary64Scalar :=
  @Build_ndarray Binary64Scalar t n cols.

(** A dense array of integers, given by rows. *)
Definition matrix_of_rows (t : ascii) (rows : list (list Z)) : ndarray :=
  transpose {| dtype := t; nrows := length (hd [] rows);
               columns := map (map of_Z) rows |}.

Definition world_at (g : nat) : @world Binary64Scalar CounterRandom :=
  @Build_world Binary64Scalar CounterRandom g [].

Definition world0 : @world Binary64Scalar CounterRandom := world_at 0.

(** The inputs of the examples: a 4-by-3 matrix of rank two, in double and
    in extended precision, and the same matrix behind a [LinearOperator]
    that has no [dtype] attribute, as it is and transposed. *)
Definition A43 : ndarray :=
  matrix_of_rows "d" [[2; 0; 0]; [0; 1; 0]; [0; 0; 0]; [0; 0; 0]]%Z.

Definition A43g : ndarray :=
  matrix_of_rows "g" [[2; 0; 0]; [0; 1; 0]; [0; 0; 0]; [0; 0; 0]]%Z.

Definition L43 : LinearOperator :=
  {| lo_shape := (4, 3); lo_dtype := None;
     matvec := dot_vector A43; matmat := dot_matrix A43;
     rmatvec := dot_vector (_herm A43); rmatmat := dot_matrix (_herm A43) |}.

Definition L34 : LinearOperator :=
  {| lo_shape := (3, 4); lo_dtype := None;
     matvec := dot_vector (_herm A43); matmat := dot_matrix (_herm A43);
     rmatvec := dot_vector A43; rmatmat := dot_matrix A43 |}.

(** [svds] on these instances, with [ncv], [tol], [v0] and [maxiter] at
    their defaults. *)
Definition run (A : operand) (k : Z) (which : string) (rsv : rsv_arg)
    (solver : option string) : world -> result svds_out * world :=
  @svds Binary64Scalar CounterRandom DiagonalSolvers InsertionSorting
        A k None (S754_zero false) which None None rsv solver.

Definition run_eigenpairs (A : operand) (k : Z) (which : string)
    (solver : option string) : world -> result solved * world :=
  @svds_eigenpairs Binary64Scalar CounterRandom DiagonalSolvers
        A k None (S754_zero false) which None None solver.

(** What the eigensolver leaves for [A43]: the two largest eigenvalues 1
    and 4 of its Gram operator, or the two smallest 0 and 1, with the
    unit vectors of their places. *)
Definition solved_A43 (eigvals : list Z) (places : list nat) : solved :=
  {| sv_n := 4; sv_m := 3; sv_X_matmat := dot_matrix A43;
     sv_eigvals := map of_Z eigvals;
     sv_eigvec := {| dtype := "d"%char; nrows := 3;
                     columns := map (unit_vector 3) places |} |}.

Definition world_after (g : nat) (evs : list event)
    : @world Binary64Scalar CounterRandom :=
  @Build_world Binary64Scalar CounterRandom g evs.

(** Two calls in a row that need one padding vector on each side: what
    the first returns from the initial world, and what the second returns
    from the world that the first has left. *)
Definition padded_first : result svds_out * world :=
  Eval vm_compute in
    run (OpArrayLike A43) 2 "SM" (RsvBool true) (Some "lobpcg"%string) world0.

Definition padded_second : result svds_out * world :=
  Eval vm_compute in
    run (OpArrayLike A43) 2 "SM" (RsvBool true) (Some "lobpcg"%string)
        (snd padded_first).

(** A single column of length one, which spans its space. *)
Definition x11 : ndarray := array "d" 1 [[of_Z 1]].

End Binary64.


(** ** Exact complex arithmetic

    The complex numbers as pairs of real numbers, with the conjugation,
    the principal square root and the lexicographic order that NumPy gives
    to complex arrays. *)

Module ComplexNumbers.

Local Open Scope R_scope.

Definition C : Type := (R * R)%type.

Definition Cadd (x y : C) : C := (fst x + fst y, snd x + snd y).

Definition Csub (x y : C) : C := (fst x - fst y, snd x - snd y).

Definition Cmul (x y : C) : C :=
  (fst x * fst y - snd x * snd y, fst x * snd y + snd x * fst y).

Definition Cinv (y : C) : C :=
  (fst y / (fst y * fst y + snd y * snd y),
   - snd y / (fst y * fst y + snd y * snd y)).

Definition Cdiv (x y : C) : C := Cmul x (Cinv y).

Definition Cconj (x : C) : C := (fst x, - snd x).

Definition Csqrt (x : C) : C :=
  let r := R_sqrt.sqrt (fst x * fst x + snd x * snd x) in
  (R_sqrt.sqrt ((r + fst x) / 2),
   (if Rle_dec 0 (snd x) then 1 else -1) * R_sqrt.sqrt ((r - fst x) / 2)).

Definition Cle (x y : C) : bool :=
  if Rlt_dec (fst x) (fst y) then true
  else if Rlt_dec (fst y) (fst x) then false
  else if Rle_dec (snd x) (snd y) then true else false.

Definition Cmaximum (x y : C) : C := if Cle y x then x else y.

Definition ComplexScalar : Scalar :=
  {| scalar := C;
     zero := (0, 0);
     one := (1, 0);
     add := Cadd;
     sub := Csub;
     mul := Cmul;
     div := Cdiv;
     sqrt := Csqrt;
     conj := Cconj;
     real := fun x => (fst x, 0);
     imag_mul := fun x => (- snd x, fst x);
     maximum := Cmaximum;
     gt := fun x y => negb (Cle x y);
     le := Cle;
     lit_1E3 := (1000, 0);
     lit_1E6 := (1000000, 0);
     finfo_eps := fun t => if (t =? "f")%char then (/ 2 ^ 23, 0)
                           else (/ 2 ^ 52, 0) |}.

(** A generator that counts: its draws are 1, 2, 3, ... *)
Definition counting (i : nat) : C := (IZR (Z.of_nat (i + 1)), 0).

Definition CountingRandom : @Random ComplexScalar :=
  @Build_Random ComplexScalar nat
    (fun g n => (map counting (seq g n), (g + n)%nat))
    (fun seed r c =>
       @Build_ndarray ComplexScalar "d"%char r
         (map (fun j => map (fun i => counting (Z.to_nat seed + j * r + i))
                            (seq 0 r))
              (seq 0 c))).

(** A complex array of one column, the first unit vector of length two. *)
Definition e1 : @ndarray ComplexScalar :=
  @Build_ndarray ComplexScalar "D"%char 2 [[(1, 0); (0, 0)]].

Definition start : @world ComplexScalar CountingRandom :=
  @Build_world ComplexScalar CountingRandom 0%nat [].

End ComplexNumbers.
(** ** What the proofs ask of the interfaces *)

Section Laws.

Context {S : Scalar}.

(** A number is comparable when it is not a NaN. *)
Definition comparable (x : scalar) : Prop := le x x = true.

Definition nonneg (x : scalar) : Prop := le zero x = true.

Definition ascending (l : list scalar) : Prop :=
  Sorted (fun a b => le a b = true) l.

(** Equality of numbers, as NumPy's [==] on comparable values. *)
Definition same_number (a b : scalar) : Prop :=
  le a b = true /\ le b a = true.

(** The order of the floating-point numbers: a total preorder away from
    NaN, in which clamping by [maximum] and square roots stay at or above
    zero. *)
Class OrderLaws : Prop := {
  le_zero_zero : le zero zero = true;
  le_trans : forall a b c, le a b = true -> le b c = true -> le a c = true;
  le_total : forall a b, comparable a -> comparable b ->
             le a b = true \/ le b a = true;
  le_comparable_l : forall a b, le a b = true -> comparable a;
  le_comparable_r : forall a b, le a b = true -> comparable b;
  gt_comparable : forall a b, gt a b = true -> comparable a;
  maximum_zero : forall a, comparable (maximum a zero) ->
                 nonneg (maximum a zero);
  sqrt_nonneg : forall a, nonneg a -> nonneg (sqrt a)
}.

(** A number that is not below zero (a NaN is not). *)
Definition not_negative (x : scalar) : Prop := gt zero x = false.

(** The zero of [np.zeros_like], or a number above zero. *)
Definition proper (x : scalar) : Prop := x = zero \/ gt x zero = true.

(** Signs: products and maxima of numbers not below zero are not below
    zero, the literals and the machine epsilons are not below zero, the
    square root of a number above a bound that is not negative is proper,
    and two proper numbers that are equal as numbers are the same. *)
Class SignLaws : Prop := {
  mul_not_negative : forall a b,
    not_negative a -> not_negative b -> not_negative (mul a b);
  maximum_not_negative : forall a b,
    not_negative a -> not_negative b -> not_negative (maximum a b);
  maximum_zero_not_negative : forall a, not_negative (maximum a zero);
  lit_1E3_not_negative : not_negative lit_1E3;
  lit_1E6_not_negative : not_negative lit_1E6;
  finfo_eps_not_negative : forall t, not_negative (finfo_eps t);
  sqrt_proper : forall a c,
    gt a c = true -> not_negative c -> proper (sqrt a);
  proper_antisymmetric : forall a b,
    proper a -> proper b -> le a b = true -> le b a = true -> a = b
}.

(** [np.maximum] and [>] in terms of the order: of two numbers
    [np.maximum] returns the larger, and a NaN if there is one; [a > b]
    says that [b] is at or below [a] and [a] is not at or below [b]. *)
Class ComparisonLaws : Prop := {
  maximum_comparable : forall a b, comparable a -> comparable b ->
    maximum a b = if le b a then a else b;
  maximum_nan_l : forall a b, le a a = false -> maximum a b = a;
  maximum_nan_r : forall a b, comparable a -> le b b = false ->
    maximum a b = b;
  gt_strict : forall a b,
    gt a b = true <-> le b a = true /\ le a b = false
}.

(** The documented contract of [np.sort] and [np.argsort] on arrays
    without NaN. *)
Class SortingLaws {So : Sorting} : Prop := {
  np_sort_permutation : forall l, Permutation (np_sort l) l;
  np_sort_ascending : forall l, Forall comparable l -> ascending (np_sort l);
  np_argsort_permutation : forall l,
    Permutation (np_argsort l) (seq 0 (length l));
  np_argsort_ascending : forall l, Forall comparable l ->
    ascending (map (fun i => nth i l zero) (np_argsort l))
}.

(** How many entries of [l] are at or below [x]. *)
Definition count_le (x : scalar) (l : list scalar) : nat :=
  length (filter (fun y => le y x) l).

(** An operator application that, on arrays of [r] rows, succeeds and
    keeps the number of columns. *)
Definition keeps_columns (r : nat) (f : ndarray -> result ndarray) : Prop :=
  forall x, nrows x = r -> exists y, f x = Ok y /\ ncols y = ncols x.

End Laws.

(** ** Vocabulary of the statements *)

Section Vocabulary.

Context {S : Scalar}.

(** The array whose column [j] is column [idx[j]] of [a]. *)
Definition permute_columns (idx : list nat) (a : ndarray) : ndarray :=
  {| dtype := dtype a; nrows := nrows a;
     columns := map (fun i => nth i (columns a) []) idx |}.

(** The array whose row [j] is row [idx[j]] of [a]. *)
Definition permute_rows (idx : list nat) (a : ndarray) : ndarray :=
  transpose (permute_columns idx (transpose a)).

(** Row [i] of a two-dimensional array. *)
Definition row (i : nat) (a : ndarray) : list scalar :=
  map (fun c => nth i c zero) (columns a).

(** The calls made while the singular vectors are formed. *)
Definition vector_work (e : event) : Prop :=
  e = EvApply \/ exists n, e = EvRandn n.

(** The singular values that [svds] returns, in either form of the output. *)
Definition values_of (out : svds_out) : list scalar :=
  match out with
  | OutValues s => s
  | OutTriple _ s _ => s
  end.

Definition left_of (out : svds_out) : option ndarray :=
  match out with
  | OutValues _ => None
  | OutTriple u _ _ => u
  end.

Definition right_of (out : svds_out) : option ndarray :=
  match out with
  | OutValues _ => None
  | OutTriple _ _ vh => vh
  end.

End Vocabulary.

Section OperatorVocabulary.

Context {S : Scalar} {R : Random}.

(** [w'] is [w] after some calls, all of them of the kind [P]. *)
Definition only (P : event -> Prop) (w w' : world) : Prop :=
  exists evs, log w' = log w ++ evs /\ Forall P evs.

(** A draw from the global generator. *)
Definition is_randn (e : event) : Prop := exists n, e = EvRandn n.

(** [A.dtype] is the dtype [d]. *)
Definition exposes_dtype (A : operand) (d : ascii) : Prop :=
  operand_dtype A = Ok (Some d).

(** Which callables of [A] stand for [X] and for [X^H]: the forward ones
    for [X] when there are more rows than columns, the adjoint ones
    otherwise; a plain matrix applies its conjugate transpose [_herm(A)]
    as the adjoint. *)
Definition roles (A : operand) (n m : nat) (p : primitives) : Prop :=
  match A with
  | OpLinear L =>
      if (m <? n)%nat then
        X_dot p = matvec L /\ X_matmat p = matmat L
        /\ XH_dot p = rmatvec L /\ XH_mat p = rmatmat L
      else
        X_dot p = rmatvec L /\ X_matmat p = rmatmat L
        /\ XH_dot p = matvec L /\ XH_mat p = matmat L
  | OpSparse a | OpArrayLike a =>
      if (m <? n)%nat then
        X_dot p = dot_vector a /\ X_matmat p = dot_matrix a
        /\ XH_dot p = dot_vector (_herm a) /\ XH_mat p = dot_matrix (_herm a)
      else
        X_dot p = dot_vector (_herm a) /\ X_matmat p = dot_matrix (_herm a)
        /\ XH_dot p = dot_vector a /\ XH_mat p = dot_matrix a
  end.

(** The world after [np.asarray(A)], which only an array-like incurs. *)
Definition after_asarray (A : operand) (w : world) : world :=
  match A with
  | OpArrayLike _ => {| rng := rng w; log := log w ++ [EvAsarray] |}
  | _ => w
  end.

(** The solver name is none of those that [svds] knows. *)
Definition unrecognized (solver : option string) : Prop :=
  exists name, solver = Some name
               /\ name <> "lobpcg"%string /\ name <> "arpack"%string.

(** [g(f(x))] for callables that may raise. *)
Definition and_then {A B} (r : result A) (g : A -> result B) : result B :=
  match r with
  | Ok y => g y
  | Err e => Err e
  end.

(** The callables [g_vec] and [g_mat] of an operator apply [X] and then
    [X^H]: [g_vec(x)] is [XH_vec(X_vec(x))] and [g_mat(x)] is
    [XH_mat(X_mat(x))]. *)
Definition applies (g_vec : vector -> result vector)
    (g_mat : ndarray -> result ndarray)
    (X_vec XH_vec : vector -> result vector)
    (X_mat XH_mat' : ndarray -> result ndarray) : Prop :=
  (forall x, g_vec x = and_then (X_vec x) XH_vec)
  /\ (forall x, g_mat x = and_then (X_mat x) XH_mat').

(** Lines 149-181 as one step: the callables are bound and the operator
    [XH_X] is built. *)
Definition construct (A : operand) (n m : nat) : M GramOperator :=
  p <- select_primitives A n m ;;
  gram_operator A p n m.

(** [h] is the conjugate transpose of [a]: of the same dtype and of the
    shape turned round, with the conjugate of entry [(i, j)] of [a] as
    its entry [(j, i)] (entry [(r, c)] of an array is entry [r] of its
    column [c]). *)
Definition conjugate_transpose_of (a h : ndarray) : Prop :=
  dtype h = dtype a
  /\ shape h = (ncols a, nrows a)
  /\ well_shaped h
  /\ forall i j, i < nrows a -> j < ncols a ->
     nth j (nth i (columns h) []) zero
     = conj (nth i (nth j (columns a) []) zero).

(** The calls by which the Gram operator comes about. *)
Definition construction (e : event) : Prop :=
  e = EvAsarray \/ e = EvHerm \/ e = EvProbe \/ e = EvGram.

End OperatorVocabulary.

Section Determinism.

Context {S : Scalar} {R : Random}.

(** The result of [c], and the generator it leaves, depend on the world
    only through the state of the global generator. *)
Definition deterministic {A} (c : M A) : Prop :=
  forall w w', rng w = rng w' ->
  fst (c w) = fst (c w') /\ rng (snd (c w)) = rng (snd (c w')).

(** [c] neither reads nor advances the global generator. *)
Definition generator_free {A} (c : M A) : Prop :=
  forall w w', fst (c w) = fst (c w') /\ rng (snd (c w)) = rng w.

End Determinism.

(** ** Exact arithmetic *)

Section ExactArithmetic.

Context {S : Scalar} {R : Random}.

(** The Hermitian product [np.dot(v, u.conj())] of the code. *)
Definition hdot (v u : list scalar) : scalar := np_dot v (vconj u).

(** The columns are mutually orthonormal: entry [(i, j)] of [U^H U] is
    that of the identity. *)
Definition orthonormal (cols : list (list scalar)) : Prop :=
  forall i j, i < length cols -> j < length cols ->
  hdot (nth i cols []) (nth j cols []) = if (i =? j)%nat then one else zero.

(** A field with a conjugation: what holds of the real and of the complex
    numbers, and of no floating-point format. *)
Class StarFieldLaws : Prop := {
  star_ring : ring_theory zero one add mul sub (fun x => sub zero x) eq;
  one_neq_zero : one <> zero;
  div_mul_inv : forall a b, div a b = mul a (div one b);
  mul_inv : forall b, b <> zero -> mul b (div one b) = one;
  conj_zero : conj zero = zero;
  conj_add : forall a b, conj (add a b) = add (conj a) (conj b);
  conj_mul : forall a b, conj (mul a b) = mul (conj a) (conj b);
  conj_div : forall a b, conj (div a b) = div (conj a) (conj b);
  conj_conj : forall a, conj (conj a) = a
}.

(** The square root of a squared norm is its real square root. *)
Class NormLaws : Prop := {
  sqrt_norm : forall v,
    mul (sqrt (hdot v v)) (sqrt (hdot v v)) = hdot v v
    /\ conj (sqrt (hdot v v)) = sqrt (hdot v v)
}.

(** [randn(n)] returns [n] numbers. *)
Class RandomLaws : Prop := {
  randn_length : forall g n, length (fst (randn g n)) = n
}.

(** Along the loop of [_augmented_orthonormal_cols], from the world [w]:
    no sample lies in the span of the columns before it, so that what is
    left of it after the projections has a norm to divide by. *)
Fixpoint residuals_nonzero (n : nat) (cplx : bool) (k : nat)
    (y : list (list scalar)) (w : world) : Prop :=
  match k with
  | O => True
  | Datatypes.S k' =>
      match sample n cplx w with
      | (Ok v, w') =>
          let r := fold_left subtract_projection y v in
          hdot r r <> zero
          /\ residuals_nonzero n cplx k' (y ++ [normalize r]) w'
      | (Err _, _) => False
      end
  end.

End ExactArithmetic.
(** ** Vocabulary for the products with a plain matrix *)

Section ProductVocabulary.

Context {S : Scalar}.

(** One step of [A.dot(x)]: the column [fst cx], scaled by the entry
    [snd cx] of [x], is added to what has been summed so far. *)
Definition accumulate (acc : list scalar) (cx : list scalar * scalar)
    : list scalar :=
  zip_with add acc (map (fun a => mul a (snd cx)) (fst cx)).

(** The sum over the columns [c] with their entries [x] of
    [x * np.dot(c, y.conj())]. *)
Definition weighted_products (y : list scalar)
    (cxs : list (list scalar * scalar)) : scalar :=
  fold_right (fun cx r => add (mul (snd cx) (hdot (fst cx) y)) r) zero cxs.

(** The array of the given rows and columns with another list of columns. *)
Definition with_columns (a : ndarray) (cols : list (list scalar)) : ndarray :=
  {| dtype := dtype a; nrows := nrows a; columns := cols |}.

End ProductVocabulary.
(** ** Further inputs in binary64 *)

Module Binary64Inputs.

Import Binary64.

#[local] Existing Instance Binary64Scalar.

(** A 4-by-3 matrix with a NaN in its first entry, given by columns, and
    the 4-by-3 matrix of zeros. *)
Definition N43 : ndarray :=
  array "d" 4 [[S754_nan; of_Z 0; of_Z 0; of_Z 0];
               [of_Z 0; of_Z 1; of_Z 0; of_Z 0];
               [of_Z 0; of_Z 0; of_Z 0; of_Z 0]].

Definition Z43 : ndarray :=
  matrix_of_rows "d" [[0; 0; 0]; [0; 0; 0]; [0; 0; 0]; [0; 0; 0]]%Z.

(** A 4-by-3 matrix with the singular values 2^-30 and 1, given by
    columns: the smaller eigenvalue 2^-60 of its Gram operator comes first
    and lies under the cutoff that the larger one sets. *)
Definition T43 : ndarray :=
  array "d" 4 [[ldexp 1 (-30); of_Z 0; of_Z 0; of_Z 0];
               [of_Z 0; of_Z 1; of_Z 0; of_Z 0];
               [of_Z 0; of_Z 0; of_Z 0; of_Z 0]].

(** What the eigensolver leaves for a 4-by-3 matrix [a]: two eigenvalues
    with the unit vectors of their places. *)
Definition solved_43 (a : ndarray) (eigvals : list spec_float)
    (places : list nat) : solved :=
  {| sv_n := 4; sv_m := 3; sv_X_matmat := dot_matrix a;
     sv_eigvals := eigvals;
     sv_eigvec := {| dtype := "d"%char; nrows := 3;
                     columns := map (unit_vector 3) places |} |}.

(** The cutoff for the two largest eigenvalues 1 and 4 of [A43]. *)
Definition cutoff_A43_LM : spec_float :=
  Eval vm_compute in
    match cutoff_of (sv_eigvec (solved_A43 [1; 4]%Z [1; 0]))
                    (clamp (sv_eigvals (solved_A43 [1; 4]%Z [1; 0]))) with
    | Ok c => c
    | Err _ => S754_nan
    end.

(** A number that is a NaN or plus infinity. *)
Definition nan_or_inf (x : spec_float) : bool :=
  match x with
  | S754_nan | S754_infinity false => true
  | _ => false
  end.

(** A number that is a zero of either sign or a NaN. *)
Definition zero_or_nan (x : spec_float) : bool :=
  match x with
  | S754_nan | S754_zero _ => true
  | _ => false
  end.

End Binary64Inputs.

(** ** Further inputs in exact arithmetic *)

Module ComplexInputs.

Import ComplexNumbers.

Local Open Scope R_scope.

(** The 1-by-1 array that holds the number one. *)
Definition v1 : @ndarray ComplexScalar :=
  @Build_ndarray ComplexScalar "D"%char 1 [[(1, 0)]].

End ComplexInputs.

Unset Implicit Arguments.

(** ** Lists, masks and index arrays *)

Section ListFacts.

Context {S : Scalar}.

Lemma zip_with_length {A B C} (f : A -> B -> C) (a : list A) (b : list B) :
  length (zip_with f a b) = Nat.min (length a) (length b).
Proof.
  revert b; induction a as [|x a IH]; intros [|y b]; simpl; auto.
Qed.

Lemma take_inv {A} (d : A) (a : list A) (idx : list nat) :
  forall r', take a idx = Ok r' ->
  r' = map (fun i => nth i a d) idx /\ Forall (fun i => i < length a) idx.
Proof.
  induction idx as [|i idx IH]; simpl; intros r' H.
  - inversion H; auto.
  - destruct (nth_error a i) as [x|] eqn:Hx; [|discriminate].
    destruct (take a idx) as [r0|e]; [|discriminate].
    inversion H; subst; clear H.
    destruct (IH r0 eq_refl) as [-> Hall]. split.
    + simpl. f_equal. symmetry. now apply nth_error_nth.
    + constructor; auto. apply nth_error_Some. congruence.
Qed.

Lemma take_ok {A} (d : A) (a : list A) (idx : list nat) :
  Forall (fun i => i < length a) idx ->
  take a idx = Ok (map (fun i => nth i a d) idx).
Proof.
  induction 1 as [|i idx Hi _ IH]; simpl; auto.
  rewrite IH. destruct (nth_error a i) as [x|] eqn:Hx.
  - now rewrite (nth_error_nth _ _ d Hx).
  - apply nth_error_None in Hx. lia.
Qed.

Lemma permutation_indices_in_range (idx : list nat) (n : nat) :
  Permutation idx (seq 0 n) -> Forall (fun i => i < n) idx.
Proof.
  intros H. apply Forall_forall. intros i Hi.
  apply (Permutation_in _ H) in Hi. apply in_seq in Hi. lia.
Qed.

Lemma count_true_le (mask : list bool) : count_true mask <= length mask.
Proof. unfold count_true. apply filter_length_le. Qed.

Lemma compress_length {A} (mask : list bool) (a : list A) :
  length mask = length a -> length (compress mask a) = count_true mask.
Proof.
  unfold count_true. revert a.
  induction mask as [|b mask IH]; intros [|x a]; simpl; intros H;
    try discriminate; auto.
  destruct b; simpl; auto.
Qed.

Lemma compress_above (cutoff : scalar) (eigvals : list scalar) :
  compress (above cutoff eigvals) eigvals
  = filter (fun e => gt e cutoff) eigvals.
Proof.
  induction eigvals as [|e l IH]; simpl; auto.
  destruct (gt e cutoff); simpl; now rewrite IH.
Qed.

Lemma count_true_above (cutoff : scalar) (eigvals : list scalar) :
  count_true (above cutoff eigvals)
  = length (filter (fun e => gt e cutoff) eigvals).
Proof.
  rewrite <- compress_above. symmetry. apply compress_length.
  unfold above. now rewrite length_map.
Qed.

Lemma assemble_values_length (eigvals : list scalar) (mask : list bool) :
  length mask = length eigvals ->
  length (assemble_values eigvals mask) = length eigvals.
Proof.
  intros H. unfold assemble_values.
  rewrite length_app, length_map, repeat_length, compress_length by assumption.
  pose proof (count_true_le mask). lia.
Qed.

Lemma transpose_ncols (x : ndarray) : ncols (transpose x) = nrows x.
Proof. unfold ncols, transpose; simpl. now rewrite length_map, length_seq. Qed.

Lemma transpose_nrows (x : ndarray) : nrows (transpose x) = ncols x.
Proof. reflexivity. Qed.

Lemma herm_nrows (x : ndarray) : nrows (_herm x) = ncols x.
Proof. reflexivity. Qed.

Lemma herm_ncols (x : ndarray) : ncols (_herm x) = nrows x.
Proof.
  unfold _herm, conj_array, ncols; simpl.
  now rewrite !length_map, length_seq.
Qed.

Lemma mask_columns_ok (x : ndarray) (mask : list bool) :
  length mask = ncols x ->
  exists y, mask_columns x mask = Ok y /\ ncols y = count_true mask
            /\ nrows y = nrows x /\ dtype y = dtype x
            /\ columns y = compress mask (columns x).
Proof.
  intros H. unfold mask_columns. rewrite H, Nat.eqb_refl.
  eexists; split; [reflexivity|]. unfold ncols; simpl.
  repeat split. now apply compress_length.
Qed.

Lemma divide_ok (y : ndarray) (s : list scalar) :
  ncols y = length s ->
  exists q, divide y s = Ok q /\ ncols q = length s /\ nrows q = nrows y.
Proof.
  intros H. unfold divide. rewrite H, Nat.eqb_refl.
  eexists; split; [reflexivity|]. unfold ncols in *; simpl.
  rewrite zip_with_length, H. split; auto. lia.
Qed.

Lemma dot_matrix_keeps_columns (A : ndarray) :
  keeps_columns (ncols A) (dot_matrix A).
Proof.
  intros x Hx. unfold dot_matrix. rewrite Hx, Nat.eqb_refl.
  eexists. split; [reflexivity|]. unfold ncols. cbn. now rewrite length_map.
Qed.

Lemma nth_map_seq {A} (f : nat -> A) (d : A) (n i : nat) :
  i < n -> nth i (map f (seq 0 n)) d = f i.
Proof.
  intros H.
  rewrite (nth_indep _ d (f 0)) by (rewrite length_map, length_seq; exact H).
  rewrite (map_nth f (seq 0 n) 0 i), seq_nth by exact H. reflexivity.
Qed.

Lemma nth_map_default {A B} (f : A -> B) (l : list A) (d : A) (e : B) (i : nat) :
  i < length l -> nth i (map f l) e = f (nth i l d).
Proof.
  intros H.
  rewrite (nth_indep _ e (f d)) by (rewrite length_map; exact H).
  apply map_nth.
Qed.

Lemma map_nth_all {A} (d : A) (l : list A) :
  map (fun i => nth i l d) (seq 0 (length l)) = l.
Proof.
  apply (nth_ext _ _ d d).
  - now rewrite length_map, length_seq.
  - intros i Hi. rewrite length_map, length_seq in Hi.
    exact (nth_map_seq (fun i => nth i l d) d (length l) i Hi).
Qed.

Lemma herm_well_shaped (x : ndarray) : well_shaped (_herm x).
Proof.
  unfold well_shaped, _herm, conj_array, transpose, vconj.
  cbn [columns nrows]. rewrite map_map. apply Forall_map.
  apply Forall_forall. intros i _. now rewrite !length_map.
Qed.

(** [_herm(x)] is a conjugate transpose of [x]. *)
Lemma herm_conjugate_transpose_of (x : ndarray) :
  conjugate_transpose_of x (_herm x).
Proof.
  split; [reflexivity|]. split; [|split].
  - unfold shape. now rewrite herm_nrows, herm_ncols.
  - apply herm_well_shaped.
  - intros i j Hi Hj. unfold _herm, conj_array, transpose, vconj.
    cbn [columns]. rewrite map_map, nth_map_seq by exact Hi.
    rewrite map_map. unfold ncols in Hj.
    now rewrite (nth_map_default _ _ [] zero j Hj).
Qed.

End ListFacts.

(** ** The monad and the log *)

Section BindFacts.

Context {S : Scalar} {R : Random}.

Lemma bind_ok {A B} (c : M A) (f : A -> M B) (w w1 : world) (a : A) :
  c w = (Ok a, w1) -> bind c f w = f a w1.
Proof. intros H. unfold bind. now rewrite H. Qed.

Lemma bind_err {A B} (c : M A) (f : A -> M B) (w w1 : world) (e : exn) :
  c w = (Err e, w1) -> bind c f w = (Err e, w1).
Proof. intros H. unfold bind. now rewrite H. Qed.

Lemma bind_inv {A B} (c : M A) (f : A -> M B) (w w2 : world) (b : B) :
  bind c f w = (Ok b, w2) ->
  exists a w1, c w = (Ok a, w1) /\ f a w1 = (Ok b, w2).
Proof.
  unfold bind. destruct (c w) as [[a|e] w1]; intros H; [|discriminate].
  now exists a, w1.
Qed.

End BindFacts.

Ltac bind_with H := erewrite bind_ok by exact H.

Section MonadFacts.

Context {S : Scalar} {R : Random}.

Lemma only_refl (P : event -> Prop) (w : world) : only P w w.
Proof. exists []. now rewrite app_nil_r. Qed.

Lemma only_trans (P : event -> Prop) (w1 w2 w3 : world) :
  only P w1 w2 -> only P w2 w3 -> only P w1 w3.
Proof.
  intros (e1 & H1 & F1) (e2 & H2 & F2). exists (e1 ++ e2).
  rewrite H2, H1, app_assoc. split; auto. now apply Forall_app.
Qed.

Lemma only_weaken (P Q : event -> Prop) (w w' : world) :
  (forall e, P e -> Q e) -> only P w w' -> only Q w w'.
Proof.
  intros HPQ (evs & H & F). exists evs. split; auto.
  eapply Forall_impl; eauto.
Qed.

Lemma only_tick (P : event -> Prop) (e : event) (w : world) :
  P e -> only P w (snd (tick e w)).
Proof. intros H. exists [e]. simpl. auto. Qed.

Lemma np_random_randn_ok (n : nat) (w : world) :
  exists w', np_random_randn n w = (Ok (fst (randn (rng w) n)), w')
             /\ rng w' = snd (randn (rng w) n)
             /\ log w' = log w ++ [EvRandn n].
Proof.
  unfold np_random_randn. destruct (randn (rng w) n) as [v g].
  eexists; split; [reflexivity|]. simpl. auto.
Qed.

Lemma sample_ok (n : nat) (cplx : bool) (w : world) :
  exists v w', sample n cplx w = (Ok v, w') /\ only is_randn w w'.
Proof.
  unfold sample.
  destruct (np_random_randn_ok n w) as (w1 & H1 & _ & L1).
  bind_with H1. destruct cplx.
  - destruct (np_random_randn_ok n w1) as (w2 & H2 & _ & L2).
    bind_with H2. do 2 eexists. split; [reflexivity|].
    exists [EvRandn n; EvRandn n]. rewrite L2, L1, <- app_assoc. split; auto.
    repeat constructor; now exists n.
  - do 2 eexists. split; [reflexivity|].
    exists [EvRandn n]. split; auto. repeat constructor; now exists n.
Qed.

Lemma augment_loop_ok (n : nat) (cplx : bool) (k : nat) :
  forall (y : list (list scalar)) (w : world),
  exists added w', augment_loop n cplx k y w = (Ok (y ++ added), w')
                   /\ length added = k /\ only is_randn w w'.
Proof.
  induction k as [|k IH]; intros y w; simpl.
  - exists [], w. rewrite app_nil_r. repeat split. apply only_refl.
  - destruct (sample_ok n cplx w) as (v & w1 & Hs & O1).
    bind_with Hs.
    destruct (IH (y ++ [normalize (fold_left subtract_projection y v)]) w1)
      as (added & w2 & H2 & L2 & O2).
    rewrite H2, <- app_assoc. do 2 eexists. split; [reflexivity|].
    split; [simpl; now rewrite L2|]. eapply only_trans; eauto.
Qed.

(** For a count that is not negative the augmentation returns, appends
    that many columns and leaves the given ones in place. *)
Lemma augmented_cols_ok (x : ndarray) (k : Z) (w : world) :
  (0 <= k)%Z ->
  exists added w',
    _augmented_orthonormal_cols x k w
    = (Ok {| dtype := dtype x; nrows := nrows x;
             columns := columns x ++ added |}, w')
    /\ length added = Z.to_nat k /\ only is_randn w w'.
Proof.
  intros Hk. unfold _augmented_orthonormal_cols.
  destruct (k <? 0)%Z eqn:E; [apply Z.ltb_lt in E; lia|].
  destruct (augment_loop_ok (nrows x) (iscomplexobj x) (Z.to_nat k) (columns x) w)
    as (added & w' & H & L & O).
  bind_with H. now exists added, w'.
Qed.

Lemma augmented_rows_ok (x : ndarray) (k : Z) (w : world) :
  (0 <= k)%Z ->
  exists y w',
    _augmented_orthonormal_rows x k w = (Ok y, w')
    /\ nrows y = (nrows x + Z.to_nat k)%nat /\ only is_randn w w'.
Proof.
  intros Hk. unfold _augmented_orthonormal_rows.
  destruct augmented_cols_ok with (x := transpose x) (w := w) (k := k)
    as (added & w' & H & L & O); auto.
  bind_with H. do 2 eexists. split; [reflexivity|].
  split; auto. rewrite transpose_nrows.
  pose proof (transpose_ncols x) as T. unfold ncols in *. cbn [columns].
  rewrite length_app, L, T. reflexivity.
Qed.

End MonadFacts.

(** ** From the eigenpairs to the output (lines 202-240) *)

Section Assemble.

Context {S : Scalar} {R : Random} {Sv : Solvers} {So : Sorting}.

Lemma getitem_factor (t : ascii) :
  getitem factor t = if (t =? "f")%char then Ok lit_1E3
                     else if (t =? "d")%char then Ok lit_1E6
                     else Err (KeyError t).
Proof.
  unfold factor. cbn [getitem].
  rewrite (Ascii.eqb_sym "f" t), (Ascii.eqb_sym "d" t). reflexivity.
Qed.

Lemma cutoff_of_KeyError (eigvec : ndarray) (eigvals : list scalar) :
  lower (dtype eigvec) <> "f"%char -> lower (dtype eigvec) <> "d"%char ->
  cutoff_of eigvec eigvals = Err (KeyError (lower (dtype eigvec))).
Proof.
  intros Hf Hd. unfold cutoff_of. rewrite getitem_factor.
  apply Ascii.eqb_neq in Hf, Hd. now rewrite Hf, Hd.
Qed.

Lemma cutoff_of_inv (eigvec : ndarray) (eigvals : list scalar) (cutoff : scalar) :
  cutoff_of eigvec eigvals = Ok cutoff ->
  let t := lower (dtype eigvec) in
  (t = "f"%char \/ t = "d"%char) /\
  exists mx, np_max eigvals = Ok mx /\
    cutoff = mul (mul (if (t =? "f")%char then lit_1E3 else lit_1E6)
                      (finfo_eps t)) mx.
Proof.
  unfold cutoff_of. rewrite getitem_factor. cbv zeta. intros H.
  set (t := lower (dtype eigvec)) in *.
  destruct (t =? "f")%char eqn:Ef.
  - split; [left; now apply Ascii.eqb_eq|].
    destruct (np_max eigvals) as [mx|]; [|discriminate].
    exists mx. split; auto. congruence.
  - destruct (t =? "d")%char eqn:Ed; [|discriminate].
    split; [right; now apply Ascii.eqb_eq|].
    destruct (np_max eigvals) as [mx|]; [|discriminate].
    exists mx. split; auto. congruence.
Qed.

Lemma cutoff_of_ok (eigvec : ndarray) (eigvals : list scalar) :
  let t := lower (dtype eigvec) in
  t = "f"%char \/ t = "d"%char -> eigvals <> [] ->
  exists mx, np_max eigvals = Ok mx /\
    cutoff_of eigvec eigvals
    = Ok (mul (mul (if (t =? "f")%char then lit_1E3 else lit_1E6)
                   (finfo_eps t)) mx).
Proof.
  cbv zeta. intros Ht Hne. destruct eigvals as [|x l]; [congruence|].
  exists (fold_left maximum l x). split; [reflexivity|].
  unfold cutoff_of. rewrite getitem_factor. cbn [np_max].
  destruct Ht as [-> | ->]; reflexivity.
Qed.

Lemma rsv_differs_false (rsv : rsv_arg) (name : string) :
  rsv_differs rsv name = false <-> rsv = RsvStr name.
Proof.
  destruct rsv as [b|s]; simpl.
  - split; discriminate.
  - rewrite negb_false_iff, String.eqb_eq. split; congruence.
Qed.

Variables (k : Z) (rsv : rsv_arg) (c : solved).

(** The reliable vectors are there for every side but the one that would
    need the operator and was not asked for. *)
Lemma reliable_vectors_inv (mask : list bool) (slarge : list scalar)
    (w w' : world) (ul vhl : option ndarray) :
  reliable_vectors c mask slarge rsv w = (Ok (ul, vhl), w') ->
  (ul = None <-> (sv_m c <? sv_n c)%nat = true /\ rsv = RsvStr "vh") /\
  (vhl = None <-> (sv_m c <? sv_n c)%nat = false /\ rsv = RsvStr "u").
Proof.
  unfold reliable_vectors. destruct (sv_m c <? sv_n c)%nat eqn:E; intros H.
  - apply bind_inv in H as (vlarge & w1 & _ & H).
    apply bind_inv in H as (ularge & w2 & H1 & H).
    inversion H; subst; clear H. split; [|split; [discriminate|intros [? _]; discriminate]].
    destruct (rsv_differs rsv "vh") eqn:D.
    + apply bind_inv in H1 as (? & ? & _ & H1).
      apply bind_inv in H1 as (? & ? & _ & H1).
      apply bind_inv in H1 as (? & ? & _ & H1).
      inversion H1; subst. split; [discriminate|].
      intros [_ Hr]. apply rsv_differs_false in Hr. congruence.
    + inversion H1; subst. apply rsv_differs_false in D. tauto.
  - apply bind_inv in H as (ularge & w1 & _ & H).
    apply bind_inv in H as (vhlarge & w2 & H1 & H).
    inversion H; subst; clear H. split; [split; [discriminate|intros [? _]; discriminate]|].
    destruct (rsv_differs rsv "u") eqn:D.
    + apply bind_inv in H1 as (? & ? & _ & H1).
      apply bind_inv in H1 as (? & ? & _ & H1).
      apply bind_inv in H1 as (? & ? & _ & H1).
      inversion H1; subst. split; [discriminate|].
      intros [_ Hr]. apply rsv_differs_false in Hr. congruence.
    + inversion H1; subst. apply rsv_differs_false in D. tauto.
Qed.

Lemma reliable_vectors_ok (mask : list bool) (slarge : list scalar) (w : world) :
  length mask = ncols (sv_eigvec c) ->
  length slarge = count_true mask ->
  keeps_columns (nrows (sv_eigvec c)) (sv_X_matmat c) ->
  exists ul vhl w',
    reliable_vectors c mask slarge rsv w = (Ok (ul, vhl), w')
    /\ (forall a, ul = Some a -> ncols a = count_true mask)
    /\ (forall a, vhl = Some a -> nrows a = count_true mask)
    /\ rng w' = rng w
    /\ only (fun e => e = EvApply) w w'.
Proof.
  intros Hm Hs Hop. unfold reliable_vectors.
  destruct (mask_columns_ok (sv_eigvec c) mask Hm)
    as (vl & Hvl & Nvl & Rvl & _ & _).
  destruct (Hop vl Rvl) as (y & Hy & Ny).
  assert (Hys : ncols y = length slarge) by congruence.
  destruct (divide_ok y slarge Hys) as (q & Hq & Nq & _).
  assert (Hw : forall w, only (fun e => e = EvApply) w (snd (tick EvApply w)))
    by (intros; now apply only_tick).
  destruct (sv_m c <? sv_n c)%nat.
  - destruct (rsv_differs rsv "vh").
    + do 3 eexists. split.
      { unfold bind, tick, lift, ret. rewrite Hvl, Hy, Hq. reflexivity. }
      repeat split; [intros a [= <-]; congruence|intros a [= <-]|apply Hw].
      now rewrite herm_nrows.
    + do 3 eexists. split.
      { unfold bind, tick, lift, ret. rewrite Hvl. reflexivity. }
      repeat split; [discriminate|intros a [= <-]|apply only_refl].
      now rewrite herm_nrows.
  - destruct (rsv_differs rsv "u").
    + do 3 eexists. split.
      { unfold bind, tick, lift, ret. rewrite Hvl, Hy, Hq. reflexivity. }
      repeat split; [intros a [= <-]; congruence|intros a [= <-]|apply Hw].
      rewrite herm_nrows. congruence.
    + do 3 eexists. split.
      { unfold bind, tick, lift, ret. rewrite Hvl. reflexivity. }
      repeat split; [intros a [= <-]; congruence|discriminate|apply only_refl].
Qed.

Lemma augment_columns_side (ul : option ndarray) (nsmall : Z) (w : world) :
  (0 <= nsmall)%Z ->
  exists u0 w',
    if_not_None _augmented_orthonormal_cols ul nsmall w = (Ok u0, w')
    /\ (u0 = None <-> ul = None)
    /\ (forall a, u0 = Some a ->
        exists b added, ul = Some b /\ columns a = columns b ++ added
                        /\ length added = Z.to_nat nsmall
                        /\ nrows a = nrows b)
    /\ only is_randn w w'.
Proof.
  intros Hn. destruct ul as [b|]; simpl.
  - destruct augmented_cols_ok with (x := b) (w := w) (k := nsmall)
      as (added & w' & H & L & O); auto.
    bind_with H. do 2 eexists. split; [reflexivity|].
    repeat split; try discriminate; auto.
    intros a [= <-]. now exists b, added.
  - exists None, w. repeat split; auto; try discriminate. apply only_refl.
Qed.

Lemma augment_rows_side (vhl : option ndarray) (nsmall : Z) (w : world) :
  (0 <= nsmall)%Z ->
  exists vh0 w',
    if_not_None _augmented_orthonormal_rows vhl nsmall w = (Ok vh0, w')
    /\ (vh0 = None <-> vhl = None)
    /\ (forall a, vh0 = Some a ->
        exists b, vhl = Some b /\ nrows a = (nrows b + Z.to_nat nsmall)%nat)
    /\ only is_randn w w'.
Proof.
  intros Hn. destruct vhl as [b|]; simpl.
  - destruct augmented_rows_ok with (x := b) (w := w) (k := nsmall)
      as (y & w' & H & L & O); auto.
    bind_with H. do 2 eexists. split; [reflexivity|].
    repeat split; try discriminate; auto.
    intros a [= <-]. now exists b.
  - exists None, w. repeat split; auto; try discriminate. apply only_refl.
Qed.

Lemma take_columns_ok (u : ndarray) (idx : list nat) :
  Forall (fun i => i < ncols u) idx ->
  take_columns u idx = Ok (permute_columns idx u).
Proof.
  intros H. unfold take_columns. now rewrite take_ok with (d := []).
Qed.

Lemma take_rows_ok (vh : ndarray) (idx : list nat) :
  Forall (fun i => i < nrows vh) idx ->
  take_rows vh idx = Ok (permute_rows idx vh).
Proof.
  intros H. unfold take_rows. rewrite take_columns_ok; auto.
  now rewrite transpose_ncols.
Qed.

Lemma take_columns_inv (u y : ndarray) (idx : list nat) :
  take_columns u idx = Ok y ->
  y = permute_columns idx u /\ Forall (fun i => i < ncols u) idx.
Proof.
  unfold take_columns. destruct (take (columns u) idx) as [cs|e] eqn:E;
    [|discriminate].
  intros [= <-]. apply (take_inv []) in E as [-> Hin]. split; auto.
Qed.

Lemma take_rows_inv (vh y : ndarray) (idx : list nat) :
  take_rows vh idx = Ok y ->
  y = permute_rows idx vh /\ Forall (fun i => i < nrows vh) idx.
Proof.
  unfold take_rows. destruct (take_columns (transpose vh) idx) as [t|e] eqn:E;
    [|discriminate].
  intros [= <-]. apply take_columns_inv in E as [-> Hin].
  rewrite transpose_ncols in Hin. split; auto.
Qed.

Lemma sort_columns_side (u0 : option ndarray) (idx : list nat) (n : nat)
    (w : world) :
  Forall (fun i => i < n) idx -> (forall a, u0 = Some a -> ncols a = n) ->
  index_if_not_None take_columns u0 idx w
  = (Ok (option_map (permute_columns idx) u0), w).
Proof.
  intros Hi Hn. destruct u0 as [a|]; simpl; auto.
  unfold bind, lift. rewrite take_columns_ok; auto.
  now rewrite (Hn a eq_refl).
Qed.

Lemma sort_rows_side (vh0 : option ndarray) (idx : list nat) (n : nat)
    (w : world) :
  Forall (fun i => i < n) idx -> (forall a, vh0 = Some a -> nrows a = n) ->
  index_if_not_None take_rows vh0 idx w
  = (Ok (option_map (permute_rows idx) vh0), w).
Proof.
  intros Hi Hn. destruct vh0 as [a|]; simpl; auto.
  unfold bind, lift. rewrite take_rows_ok; auto.
  now rewrite (Hn a eq_refl).
Qed.

(** Values only: the sorted array is returned at once and the world is
    left as the eigensolver left it. *)
Lemma svds_assemble_values (cutoff : scalar) (w : world) :
  cutoff_of (sv_eigvec c) (clamp (sv_eigvals c)) = Ok cutoff ->
  truthy rsv = false ->
  svds_assemble k rsv c w
  = (Ok (OutValues (np_sort (assemble_values (clamp (sv_eigvals c))
                               (above cutoff (clamp (sv_eigvals c)))))), w).
Proof.
  intros Hc Ht. unfold svds_assemble, bind, lift. rewrite Hc, Ht. reflexivity.
Qed.

(** With vectors: the unsorted values [s0] and the augmented sides [u0],
    [vh0] are all rearranged by the one index array [np_argsort s0]. *)
Lemma svds_assemble_vectors (cutoff : scalar) (w : world) :
  let eigvals := clamp (sv_eigvals c) in
  let s0 := assemble_values eigvals (above cutoff eigvals) in
  let idx := np_argsort s0 in
  cutoff_of (sv_eigvec c) eigvals = Ok cutoff ->
  truthy rsv = true ->
  Z.of_nat (length (sv_eigvals c)) = k ->
  ncols (sv_eigvec c) = length (sv_eigvals c) ->
  keeps_columns (nrows (sv_eigvec c)) (sv_X_matmat c) ->
  Permutation idx (seq 0 (length s0)) ->
  exists u0 vh0 w',
    svds_assemble k rsv c w
    = (Ok (OutTriple (option_map (permute_columns idx) u0)
                     (map (fun i => nth i s0 zero) idx)
                     (option_map (permute_rows idx) vh0)), w')
    /\ (u0 = None <-> (sv_m c <? sv_n c)%nat = true /\ rsv = RsvStr "vh")
    /\ (vh0 = None <-> (sv_m c <? sv_n c)%nat = false /\ rsv = RsvStr "u")
    /\ (forall a, u0 = Some a -> ncols a = length s0)
    /\ (forall a, vh0 = Some a -> nrows a = length s0)
    /\ only vector_work w w'.
Proof.
  intros eigvals s0 idx Hc Ht Hlen Hcols Hop Hperm.
  set (mask := above cutoff eigvals) in *.
  assert (Le : length eigvals = length (sv_eigvals c))
    by (unfold eigvals, clamp; now rewrite length_map).
  assert (Lm : length mask = length eigvals)
    by (unfold mask, above; now rewrite length_map).
  assert (Ls0 : length s0 = length eigvals)
    by (now apply assemble_values_length).
  pose proof (count_true_le mask) as Hle.
  assert (Hns : (0 <= k - Z.of_nat (count_true mask))%Z) by lia.
  assert (Lsl : length (map sqrt (compress mask eigvals)) = count_true mask)
    by (rewrite length_map; now apply compress_length).
  assert (Lmc : length mask = ncols (sv_eigvec c)) by congruence.
  destruct reliable_vectors_ok with (mask := mask) (w := w)
    (slarge := map sqrt (compress mask eigvals))
    as (ul & vhl & w1 & Hrv & Nul & Nvhl & _ & O1); auto.
  pose proof Hrv as Hrv'. apply reliable_vectors_inv in Hrv' as [Iu Iv].
  destruct augment_columns_side with (ul := ul) (w := w1)
    (nsmall := (k - Z.of_nat (count_true mask))%Z)
    as (u0 & w2 & Hu & Eu & Cu & O2); auto.
  destruct augment_rows_side with (vhl := vhl) (w := w2)
    (nsmall := (k - Z.of_nat (count_true mask))%Z)
    as (vh0 & w3 & Hv & Ev & Cv & O3); auto.
  assert (Hin : Forall (fun i => i < length s0) idx)
    by (now apply permutation_indices_in_range).
  assert (Nu0 : forall a, u0 = Some a -> ncols a = length s0).
  { intros a Ha. destruct (Cu a Ha) as (b & added & Hb & Hcs & La & _).
    unfold ncols. rewrite Hcs, length_app, La. fold (ncols b).
    rewrite (Nul b Hb). lia. }
  assert (Nvh0 : forall a, vh0 = Some a -> nrows a = length s0).
  { intros a Ha. destruct (Cv a Ha) as (b & Hb & ->).
    rewrite (Nvhl b Hb). lia. }
  exists u0, vh0, w3.
  split.
  { unfold svds_assemble. fold eigvals.
    unfold bind at 1, lift at 1. rewrite Hc. fold mask. rewrite Ht.
    cbn [negb]. cbv iota.
    bind_with Hrv. cbn [fst snd]. bind_with Hu. bind_with Hv.
    fold s0. fold idx.
    unfold bind at 1, lift at 1. rewrite take_ok with (d := zero) by exact Hin.
    unfold bind at 1.
    rewrite sort_columns_side with (n := length s0) by assumption.
    unfold bind at 1.
    rewrite sort_rows_side with (n := length s0) by assumption.
    reflexivity. }
  split; [rewrite Eu; exact Iu|].
  split; [rewrite Ev; exact Iv|].
  split; [exact Nu0|]. split; [exact Nvh0|].
  assert (W1 : only vector_work w w1)
    by (eapply only_weaken; [|exact O1]; intros e ->; now left).
  assert (W2 : only vector_work w1 w2)
    by (eapply only_weaken; [|exact O2]; intros e He; now right).
  assert (W3 : only vector_work w2 w3)
    by (eapply only_weaken; [|exact O3]; intros e He; now right).
  eauto using only_trans.
Qed.

(** Whatever the operator and the eigensolver did: what a returned output
    is made of. *)
Lemma svds_assemble_inv (w w' : world) (out : svds_out) :
  svds_assemble k rsv c w = (Ok out, w') ->
  exists cutoff,
    cutoff_of (sv_eigvec c) (clamp (sv_eigvals c)) = Ok cutoff /\
    let s0 := assemble_values (clamp (sv_eigvals c))
                (above cutoff (clamp (sv_eigvals c))) in
    let idx := np_argsort s0 in
    match out with
    | OutValues s => truthy rsv = false /\ s = np_sort s0 /\ w' = w
    | OutTriple u s vh =>
        truthy rsv = true
        /\ take s0 idx = Ok s
        /\ (u = None <-> (sv_m c <? sv_n c)%nat = true /\ rsv = RsvStr "vh")
        /\ (vh = None <-> (sv_m c <? sv_n c)%nat = false /\ rsv = RsvStr "u")
        /\ exists u0 vh0,
             u = option_map (permute_columns idx) u0
             /\ vh = option_map (permute_rows idx) vh0
             /\ (forall b0, vh0 = Some b0 ->
                 Forall (fun i => i < nrows b0) idx)
    end.
Proof.
  unfold svds_assemble. intros H.
  apply bind_inv in H as (cutoff & w0 & Hc & H).
  unfold lift in Hc. injection Hc as Hc <-.
  exists cutoff. split; [exact Hc|]. cbv zeta.
  destruct (truthy rsv); cbn [negb] in H; cbv iota in H.
  2:{ inversion H; subst. auto. }
  apply bind_inv in H as ([ul vhl] & w1 & Hrv & H).
  apply bind_inv in H as (u0 & w2 & Hu & H).
  apply bind_inv in H as (vh0 & w3 & Hv & H).
  apply bind_inv in H as (s & w4 & Hs & H).
  apply bind_inv in H as (u & w5 & Hu' & H).
  apply bind_inv in H as (vh & w6 & Hv' & H).
  inversion H; subst; clear H.
  unfold lift in Hs. injection Hs as Hs _.
  pose proof Hrv as Hrv'. apply reliable_vectors_inv in Hrv' as [Iu Iv].
  cbn [fst snd] in *. split; [reflexivity|]. split; [exact Hs|].
  assert (A1 : u0 = None <-> ul = None).
  { destruct ul; simpl in Hu.
    - apply bind_inv in Hu as (? & ? & _ & Hu). inversion Hu.
      split; discriminate.
    - inversion Hu. tauto. }
  assert (A2 : vh0 = None <-> vhl = None).
  { destruct vhl; simpl in Hv.
    - apply bind_inv in Hv as (? & ? & _ & Hv). inversion Hv.
      split; discriminate.
    - inversion Hv. tauto. }
  assert (A3 : u = option_map (permute_columns
                 (np_argsort (assemble_values (clamp (sv_eigvals c))
                    (above cutoff (clamp (sv_eigvals c)))))) u0).
  { destruct u0 as [a|]; simpl in Hu'.
    - apply bind_inv in Hu' as (y & ? & Hy & Hu'). inversion Hu'; subst.
      unfold lift in Hy. injection Hy as Hy _.
      apply take_columns_inv in Hy as [-> _]. reflexivity.
    - inversion Hu'. reflexivity. }
  assert (A4 : vh = option_map (permute_rows
                 (np_argsort (assemble_values (clamp (sv_eigvals c))
                    (above cutoff (clamp (sv_eigvals c)))))) vh0
               /\ forall b0, vh0 = Some b0 ->
                  Forall (fun i => i < nrows b0)
                    (np_argsort (assemble_values (clamp (sv_eigvals c))
                       (above cutoff (clamp (sv_eigvals c)))))).
  { destruct vh0 as [a|]; simpl in Hv'.
    - apply bind_inv in Hv' as (y & ? & Hy & Hv'). inversion Hv'; subst.
      unfold lift in Hy. injection Hy as Hy _.
      apply take_rows_inv in Hy as [-> Hin]. split; [reflexivity|].
      intros b0 [= <-]. exact Hin.
    - inversion Hv'. split; [reflexivity|discriminate]. }
  destruct A4 as [A4 A5].
  split; [|split].
  - rewrite A3. destruct u0; cbn; [split; [discriminate|]|tauto].
    intros E. apply Iu in E. apply A1 in E. discriminate.
  - rewrite A4. destruct vh0; cbn; [split; [discriminate|]|tauto].
    intros E. apply Iv in E. apply A2 in E. discriminate.
  - exists u0, vh0. auto.
Qed.

(** A returned triple, step by step: the reliable vectors, their
    augmentation on either side, and the one index array [np.argsort(s)]
    by which all three are rearranged. *)
Lemma svds_assemble_trace (w w' : world) (out : svds_out) :
  svds_assemble k rsv c w = (Ok out, w') ->
  truthy rsv = true ->
  exists cutoff ul vhl wa u0 wb vh0,
    cutoff_of (sv_eigvec c) (clamp (sv_eigvals c)) = Ok cutoff /\
    let eigvals := clamp (sv_eigvals c) in
    let mask := above cutoff eigvals in
    let s0 := assemble_values eigvals mask in
    let idx := np_argsort s0 in
    let nsmall := (k - Z.of_nat (count_true mask))%Z in
    reliable_vectors c mask (map sqrt (compress mask eigvals)) rsv w
    = (Ok (ul, vhl), wa)
    /\ if_not_None _augmented_orthonormal_cols ul nsmall wa = (Ok u0, wb)
    /\ if_not_None _augmented_orthonormal_rows vhl nsmall wb = (Ok vh0, w')
    /\ take s0 idx = Ok (values_of out)
    /\ out = OutTriple (option_map (permute_columns idx) u0)
                       (values_of out)
                       (option_map (permute_rows idx) vh0)
    /\ (forall b0, vh0 = Some b0 -> Forall (fun i => i < nrows b0) idx).
Proof.
  unfold svds_assemble. intros H Ht.
  apply bind_inv in H as (cutoff & w0 & Hc & H).
  unfold lift in Hc. injection Hc as Hc <-.
  rewrite Ht in H. cbn [negb] in H. cbv iota in H.
  apply bind_inv in H as ([ul vhl] & w1 & Hrv & H).
  apply bind_inv in H as (u0 & w2 & Hu & H).
  apply bind_inv in H as (vh0 & w3 & Hv & H).
  apply bind_inv in H as (s & w4 & Hs & H).
  apply bind_inv in H as (u & w5 & Hu' & H).
  apply bind_inv in H as (vh & w6 & Hv' & H).
  unfold ret in H. injection H as <- <-.
  unfold lift in Hs. injection Hs as Hs <-.
  cbn [fst snd] in *.
  exists cutoff, ul, vhl, w1, u0, w2, vh0.
  split; [exact Hc|]. cbv zeta. cbn [values_of].
  assert (A3 : u = option_map (permute_columns
                 (np_argsort (assemble_values (clamp (sv_eigvals c))
                    (above cutoff (clamp (sv_eigvals c)))))) u0
               /\ w5 = w3).
  { destruct u0 as [a|]; simpl in Hu'.
    - apply bind_inv in Hu' as (y & ? & Hy & Hu'). inversion Hu'; subst.
      unfold lift in Hy. injection Hy as Hy <-.
      apply take_columns_inv in Hy as [-> _]. auto.
    - inversion Hu'. auto. }
  destruct A3 as [-> ->].
  assert (A4 : vh = option_map (permute_rows
                 (np_argsort (assemble_values (clamp (sv_eigvals c))
                    (above cutoff (clamp (sv_eigvals c)))))) vh0
               /\ w6 = w3
               /\ forall b0, vh0 = Some b0 ->
                  Forall (fun i => i < nrows b0)
                    (np_argsort (assemble_values (clamp (sv_eigvals c))
                       (above cutoff (clamp (sv_eigvals c)))))).
  { destruct vh0 as [a|]; simpl in Hv'.
    - apply bind_inv in Hv' as (y & ? & Hy & Hv'). inversion Hv'; subst.
      unfold lift in Hy. injection Hy as Hy <-.
      apply take_rows_inv in Hy as [-> Hin]. split; [reflexivity|].
      split; [reflexivity|]. intros b0 [= <-]. exact Hin.
    - inversion Hv'. split; [reflexivity|]. split; [reflexivity|discriminate]. }
  destruct A4 as (-> & -> & A5).
  auto 10.
Qed.

End Assemble.

(** ** Up to the eigensolver (lines 134-200) *)

Section Eigenpairs.

Context {S : Scalar} {R : Random} {Sv : Solvers} {So : Sorting}.

Variables (A : operand) (k : Z) (ncv : option Z) (tol : scalar)
          (which : string) (v0 : option vector) (maxiter : option Z)
          (solver : option string).

Lemma svds_unfold (rsv : rsv_arg) (w : world) :
  svds A k ncv tol which v0 maxiter rsv solver w
  = match svds_eigenpairs A k ncv tol which v0 maxiter solver w with
    | (Ok c, w1) => svds_assemble k rsv c w1
    | (Err e, w1) => (Err e, w1)
    end.
Proof. reflexivity. Qed.

Lemma svds_after_eigenpairs (rsv : rsv_arg) (w w1 : world) (c : solved) :
  svds_eigenpairs A k ncv tol which v0 maxiter solver w = (Ok c, w1) ->
  svds A k ncv tol which v0 maxiter rsv solver w = svds_assemble k rsv c w1.
Proof. intros H. rewrite svds_unfold, H. reflexivity. Qed.

Lemma svds_inv (rsv : rsv_arg) (w w2 : world) (out : svds_out) :
  svds A k ncv tol which v0 maxiter rsv solver w = (Ok out, w2) ->
  exists c w1,
    svds_eigenpairs A k ncv tol which v0 maxiter solver w = (Ok c, w1)
    /\ svds_assemble k rsv c w1 = (Ok out, w2).
Proof. unfold svds. apply bind_inv. Qed.

(** The checks that every call has passed once the eigensolver has
    returned. *)
Lemma svds_eigenpairs_inv (w w1 : world) (c : solved) :
  svds_eigenpairs A k ncv tol which v0 maxiter solver w = (Ok c, w1) ->
  (which = "LM"%string \/ which = "SM"%string)
  /\ (0 < k < Z.of_nat (Nat.min (sv_n c) (sv_m c)))%Z
  /\ (sv_n c, sv_m c) = operand_shape A.
Proof.
  unfold svds_eigenpairs. intros H.
  apply bind_inv in H as (largest & w0 & Hw & H).
  apply bind_inv in H as (? & w0' & _ & H).
  destruct (operand_shape A) as [n m].
  destruct ((k <=? 0)%Z || (k >=? Z.of_nat (Nat.min n m))%Z) eqn:Ek;
    [discriminate|].
  apply orb_false_iff in Ek as [E1 E2].
  apply Z.leb_gt in E1. rewrite Z.geb_leb in E2. apply Z.leb_gt in E2.
  apply bind_inv in H as (p & w2 & _ & H).
  apply bind_inv in H as (g & w3 & _ & H).
  apply bind_inv in H as (ev & w4 & _ & H).
  inversion H; subst; clear H. cbn [sv_n sv_m].
  repeat split; try lia.
  destruct (which =? "LM")%string eqn:E; [left; now apply String.eqb_eq|].
  destruct (which =? "SM")%string eqn:E'; [right; now apply String.eqb_eq|].
  discriminate.
Qed.

End Eigenpairs.

(** ** Order: non-negative values and sorted arrays *)

Section Order.

Context {S : Scalar} {OL : OrderLaws}.

Lemma nonneg_comparable (x : scalar) : nonneg x -> comparable x.
Proof. apply le_comparable_r. Qed.

(** A clamped eigenvalue that passed the cutoff is at or above zero. *)
Lemma reliable_nonneg (cutoff : scalar) (l : list scalar) :
  Forall nonneg (filter (fun e => gt e cutoff) (clamp l)).
Proof.
  apply Forall_forall. intros x Hx. apply filter_In in Hx as [Hin Hgt].
  unfold clamp in Hin. apply in_map_iff in Hin as (e & <- & _).
  apply maximum_zero. eapply gt_comparable; eauto.
Qed.

Lemma assemble_values_nonneg (cutoff : scalar) (l : list scalar) :
  Forall nonneg (assemble_values (clamp l) (above cutoff (clamp l))).
Proof.
  unfold assemble_values. rewrite compress_above. apply Forall_app. split.
  - apply Forall_forall. intros y Hy. apply in_map_iff in Hy as (x & <- & Hx).
    apply sqrt_nonneg. revert x Hx. apply Forall_forall, reliable_nonneg.
  - apply Forall_forall. intros y Hy. apply repeat_spec in Hy. subst.
    apply le_zero_zero.
Qed.

Lemma ascending_strongly (l : list scalar) :
  ascending l -> StronglySorted (fun a b => le a b = true) l.
Proof.
  apply Sorted_StronglySorted. intros a b c. apply le_trans.
Qed.

Lemma count_le_permutation (x : scalar) (l1 l2 : list scalar) :
  Permutation l1 l2 -> count_le x l1 = count_le x l2.
Proof.
  unfold count_le. induction 1; simpl; auto.
  - destruct (le x0 x); simpl; auto.
  - destruct (le y x), (le x0 x); simpl; auto.
  - congruence.
Qed.

Lemma count_le_pos (x : scalar) (l : list scalar) :
  0 < count_le x l -> exists y, In y l /\ le y x = true.
Proof.
  unfold count_le. intros H.
  destruct (filter (fun y => le y x) l) as [|y r] eqn:E; [simpl in H; lia|].
  assert (Hy : In y (filter (fun y => le y x) l)) by (rewrite E; now left).
  apply filter_In in Hy. now exists y.
Qed.

Lemma same_number_le_l (a b x : scalar) :
  same_number a b -> le a x = le b x.
Proof.
  intros [Hab Hba].
  destruct (le a x) eqn:Ea, (le b x) eqn:Eb; auto.
  - rewrite (le_trans _ _ _ Hba Ea) in Eb. discriminate.
  - rewrite (le_trans _ _ _ Hab Eb) in Ea. discriminate.
Qed.

(** Two ascending arrangements with the same counts below every bound
    agree entry by entry. *)
Lemma ascending_same_counts (l1 : list scalar) :
  forall l2, length l1 = length l2 ->
  Forall comparable l1 -> Forall comparable l2 ->
  StronglySorted (fun a b => le a b = true) l1 ->
  StronglySorted (fun a b => le a b = true) l2 ->
  (forall x, count_le x l1 = count_le x l2) ->
  Forall2 same_number l1 l2.
Proof.
  induction l1 as [|a l1 IH]; intros [|b l2] Hlen C1 C2 S1 S2 Hc;
    try discriminate; [constructor|].
  inversion C1 as [|? ? Ca C1']; inversion C2 as [|? ? Cb C2']; subst.
  inversion S1 as [|? ? S1' Ha]; inversion S2 as [|? ? S2' Hb]; subst.
  assert (Hba : le b a = true).
  { destruct (@count_le_pos a (b :: l2)) as (y & Hy & Hya).
    - rewrite <- Hc. unfold count_le. simpl. unfold comparable in Ca.
      rewrite Ca. simpl. lia.
    - destruct Hy as [<- | Hy]; auto.
      rewrite Forall_forall in Hb. eapply le_trans; [apply Hb; exact Hy|exact Hya]. }
  assert (Hab : le a b = true).
  { destruct (@count_le_pos b (a :: l1)) as (y & Hy & Hyb).
    - rewrite Hc. unfold count_le. simpl. unfold comparable in Cb.
      rewrite Cb. simpl. lia.
    - destruct Hy as [<- | Hy]; auto.
      rewrite Forall_forall in Ha. eapply le_trans; [apply Ha; exact Hy|exact Hyb]. }
  constructor; [split; assumption|].
  apply IH; auto.
  intros x. specialize (Hc x). unfold count_le in *. simpl in Hc.
  rewrite (@same_number_le_l a b x) in Hc by (split; assumption).
  destruct (le b x); simpl in Hc; lia.
Qed.

(** Two ascending permutations of one array without NaN hold the same
    numbers in the same places. *)
Lemma ascending_permutations_agree (l l1 l2 : list scalar) :
  Forall comparable l ->
  Permutation l1 l -> Permutation l2 l ->
  ascending l1 -> ascending l2 ->
  Forall2 same_number l1 l2.
Proof.
  intros C P1 P2 A1 A2.
  apply ascending_same_counts.
  - rewrite (Permutation_length P1), (Permutation_length P2). reflexivity.
  - eapply Permutation_Forall; [symmetry; exact P1|exact C].
  - eapply Permutation_Forall; [symmetry; exact P2|exact C].
  - now apply ascending_strongly.
  - now apply ascending_strongly.
  - intros x. rewrite (count_le_permutation x _ _ P1), (count_le_permutation x _ _ P2).
    reflexivity.
Qed.

(** Reading an array through a permutation of its indices permutes it. *)
Lemma gather_permutation (l : list scalar) (idx : list nat) :
  Permutation idx (seq 0 (length l)) ->
  Permutation (map (fun i => nth i l zero) idx) l.
Proof.
  intros H. rewrite (Permutation_map _ H).
  replace (map (fun i => nth i l zero) (seq 0 (length l))) with l; auto.
  apply nth_ext with (d := zero) (d' := zero).
  - now rewrite length_map, length_seq.
  - intros n Hn. symmetry.
    transitivity (nth n (map (fun i => nth i l zero) (seq 0 (length l)))
                        ((fun i => nth i l zero) 0)).
    + apply nth_indep. now rewrite length_map, length_seq.
    + pose proof (map_nth (fun i => nth i l zero) (seq 0 (length l)) 0 n) as E.
      cbv beta in *. rewrite E. now rewrite seq_nth.
Qed.

Context {GL : SignLaws}.

Lemma np_max_not_negative (l : list scalar) (mx : scalar) :
  Forall not_negative l -> np_max l = Ok mx -> not_negative mx.
Proof.
  destruct l as [|x l]; [discriminate|]. cbn [np_max].
  intros H [= <-]. inversion H as [|? ? Hx Hl]; subst. clear H.
  revert x Hx. induction Hl as [|y l Hy Hl IH]; intros x Hx; cbn; auto.
  apply IH. now apply maximum_not_negative.
Qed.

(** The cutoff is never below zero. *)
Lemma cutoff_not_negative (eigvec : ndarray) (l : list scalar)
    (cutoff : scalar) :
  cutoff_of eigvec (clamp l) = Ok cutoff -> not_negative cutoff.
Proof.
  intros H. apply cutoff_of_inv in H as (_ & mx & Hmx & ->).
  apply mul_not_negative.
  - apply mul_not_negative; [|apply finfo_eps_not_negative].
    destruct (_ =? _)%char;
      [apply lit_1E3_not_negative|apply lit_1E6_not_negative].
  - apply (np_max_not_negative (clamp l)); auto.
    apply Forall_forall. intros x Hx. unfold clamp in Hx.
    apply in_map_iff in Hx as (e & <- & _). apply maximum_zero_not_negative.
Qed.

(** Every entry of the assembled array is the zero put there or a number
    above zero. *)
Lemma assemble_values_proper (eigvec : ndarray) (l : list scalar)
    (cutoff : scalar) :
  cutoff_of eigvec (clamp l) = Ok cutoff ->
  Forall proper (assemble_values (clamp l) (above cutoff (clamp l))).
Proof.
  intros Hc. apply cutoff_not_negative in Hc.
  unfold assemble_values. rewrite compress_above. apply Forall_app. split.
  - apply Forall_forall. intros y Hy. apply in_map_iff in Hy as (x & <- & Hx).
    apply filter_In in Hx as [_ Hx]. eapply sqrt_proper; eauto.
  - apply Forall_forall. intros y Hy. apply repeat_spec in Hy. subst.
    now left.
Qed.

Lemma same_proper_numbers (l1 l2 : list scalar) :
  Forall proper l1 -> Forall proper l2 ->
  Forall2 same_number l1 l2 -> l1 = l2.
Proof.
  intros P1 P2 H. induction H as [|a b l1 l2 [Hab Hba] _ IH]; auto.
  inversion P1; inversion P2; subst. f_equal; auto.
  now apply proper_antisymmetric.
Qed.

End Order.

(** ** The largest eigenvalue and the clamping *)

Section Maximum.

Context {S : Scalar} {OL : OrderLaws} {CL : ComparisonLaws}.

Lemma maximum_choice (a b : scalar) : maximum a b = a \/ maximum a b = b.
Proof.
  destruct (le a a) eqn:Ea.
  - destruct (le b b) eqn:Eb.
    + rewrite (@maximum_comparable _ _ a b Ea Eb). destruct (le b a); auto.
    + right. now apply (@maximum_nan_r _ _ a b).
  - left. now apply (@maximum_nan_l _ _ a b).
Qed.

Lemma fold_maximum_in (l : list scalar) :
  forall x, In (fold_left maximum l x) (x :: l).
Proof.
  induction l as [|e l IH]; intros x; cbn [fold_left]; [now left|].
  destruct (IH (maximum x e)) as [H | H].
  - destruct (maximum_choice x e) as [E | E].
    + left. rewrite <- H. now symmetry.
    + right. left. rewrite <- H. now symmetry.
  - right. right. exact H.
Qed.

Lemma fold_maximum_upper (l : list scalar) :
  forall x, comparable x -> Forall comparable l ->
  comparable (fold_left maximum l x)
  /\ le x (fold_left maximum l x) = true
  /\ Forall (fun e => le e (fold_left maximum l x) = true) l.
Proof.
  induction l as [|e l IH]; intros x Hx Hl; cbn [fold_left].
  - split; [exact Hx|]. split; [exact Hx|constructor].
  - inversion Hl as [|? ? He Hl']; subst.
    assert (Hm : comparable (maximum x e)
                 /\ le x (maximum x e) = true /\ le e (maximum x e) = true).
    { rewrite (@maximum_comparable _ _ x e Hx He).
      destruct (le e x) eqn:E; [auto|].
      destruct (@le_total _ _ x e Hx He) as [H | H]; [auto|congruence]. }
    destruct Hm as (Cm & Lx & Le).
    destruct (IH (maximum x e) Cm Hl') as (Cf & Lf & Af).
    split; [exact Cf|]. split; [exact (@le_trans _ _ _ _ _ Lx Lf)|].
    constructor; [exact (@le_trans _ _ _ _ _ Le Lf)|exact Af].
Qed.

Lemma fold_maximum_nan (l : list scalar) :
  forall x,
  le x x = false \/ Exists (fun e => le e e = false) l ->
  le (fold_left maximum l x) (fold_left maximum l x) = false.
Proof.
  induction l as [|e l IH]; intros x [Hx | Hl]; cbn [fold_left].
  - exact Hx.
  - inversion Hl.
  - apply IH. left. now rewrite (@maximum_nan_l _ _ x e Hx).
  - apply IH. inversion Hl as [? ? He|? ? Hl']; subst.
    + left. destruct (le x x) eqn:Ex.
      * now rewrite (@maximum_nan_r _ _ x e Ex He).
      * now rewrite (@maximum_nan_l _ _ x e Ex).
    + now right.
Qed.

(** [np.max]: an entry of the array that no entry exceeds, and a NaN if
    the array has one. *)
Lemma np_max_spec (l : list scalar) (mx : scalar) :
  np_max l = Ok mx ->
  In mx l
  /\ (Forall comparable l -> Forall (fun e => le e mx = true) l)
  /\ (Exists (fun e => le e e = false) l -> le mx mx = false).
Proof.
  destruct l as [|x l]; [discriminate|]. cbn [np_max]. intros [= <-].
  split; [apply fold_maximum_in|]. split.
  - intros H. inversion H as [|? ? Hx Hl]; subst.
    destruct (fold_maximum_upper l x Hx Hl) as (_ & Lx & Al).
    constructor; assumption.
  - intros H. apply fold_maximum_nan.
    inversion H; subst; [now left|now right].
Qed.

(** The clamping [np.maximum(e.real, 0)]: the real part where it is at or
    above zero, zero where it is below, and a NaN where it is one. *)
Lemma clamp_spec (l : list scalar) :
  Forall2 (fun e c =>
             (comparable (real e) ->
              c = if le zero (real e) then real e else zero)
             /\ (le (real e) (real e) = false -> c = real e))
          l (clamp l).
Proof.
  induction l as [|e l IH]; cbn [clamp map]; constructor; [|exact IH].
  split.
  - intros He. apply (@maximum_comparable _ _ (real e) zero He le_zero_zero).
  - intros He. apply (@maximum_nan_l _ _ (real e) zero He).
Qed.

(** Above the cutoff means at or above it and not at or below it. *)
Lemma reliable_strict (cutoff : scalar) (l : list scalar) (e : scalar) :
  In e (filter (fun e => gt e cutoff) l)
  <-> In e l /\ le cutoff e = true /\ le e cutoff = false.
Proof. rewrite filter_In, (@gt_strict _ _ e cutoff). tauto. Qed.

End Maximum.

(** ** Rearranged columns and rows *)

Section Permute.

Context {S : Scalar}.

Lemma permute_columns_nth (idx : list nat) (a : ndarray) (j : nat) :
  j < length idx ->
  nth j (columns (permute_columns idx a)) []
  = nth (nth j idx 0) (columns a) [].
Proof.
  intros Hj. unfold permute_columns. cbn [columns].
  transitivity (nth j (map (fun i => nth i (columns a) []) idx)
                      ((fun i => nth i (columns a) []) 0)).
  - apply nth_indep. now rewrite length_map.
  - pose proof (map_nth (fun i => nth i (columns a) []) idx 0 j) as E.
    cbv beta in *. exact E.
Qed.

Lemma row_length (i : nat) (a : ndarray) : length (row i a) = ncols a.
Proof. unfold row, ncols. now rewrite length_map. Qed.

Lemma transpose_column (a : ndarray) (i : nat) :
  i < nrows a -> nth i (columns (transpose a)) [] = row i a.
Proof.
  intros Hi. unfold transpose. cbn [columns].
  transitivity (nth i (map (fun i => row i a) (seq 0 (nrows a)))
                      ((fun i => row i a) 0)).
  - apply nth_indep. now rewrite length_map, length_seq.
  - pose proof (map_nth (fun i => row i a) (seq 0 (nrows a)) 0 i) as E.
    cbv beta in *. rewrite E. now rewrite seq_nth.
Qed.

Lemma row_transpose (a : ndarray) (i : nat) :
  row i (transpose a) = map (fun r => nth i (row r a) zero) (seq 0 (nrows a)).
Proof.
  unfold row at 1, transpose. cbn [columns]. rewrite map_map. reflexivity.
Qed.

(** Row [j] of the rearranged array is row [idx[j]] of the given one. *)
Lemma permute_rows_row (idx : list nat) (a : ndarray) (j : nat) :
  j < length idx -> nth j idx 0 < nrows a ->
  row j (permute_rows idx a) = row (nth j idx 0) a.
Proof.
  intros Hj Hi. unfold permute_rows.
  assert (Hn : ncols (permute_columns idx (transpose a)) = length idx)
    by (unfold ncols, permute_columns; cbn [columns]; now rewrite length_map).
  rewrite row_transpose.
  change (nrows (permute_columns idx (transpose a))) with (ncols a).
  apply nth_ext with (d := zero) (d' := zero).
  - now rewrite length_map, length_seq, row_length.
  - intros n Hn'. rewrite length_map, length_seq in Hn'.
    transitivity (nth n (map (fun r => nth j (row r (permute_columns idx (transpose a))) zero)
                             (seq 0 (ncols a)))
                        ((fun r => nth j (row r (permute_columns idx (transpose a))) zero) 0)).
    { apply nth_indep. now rewrite length_map, length_seq. }
    pose proof (map_nth (fun r => nth j (row r (permute_columns idx (transpose a))) zero)
                        (seq 0 (ncols a)) 0 n) as E.
    cbv beta in *. rewrite E. rewrite seq_nth by exact Hn'. cbn [plus].
    unfold row at 1.
    transitivity (nth j (map (fun c => nth n c zero)
                             (columns (permute_columns idx (transpose a))))
                        ((fun c => nth n c zero) [])).
    { apply nth_indep. rewrite length_map. fold (ncols (permute_columns idx (transpose a))).
      now rewrite Hn. }
    pose proof (map_nth (fun c => nth n c zero)
                        (columns (permute_columns idx (transpose a))) [] j) as E'.
    cbv beta in *. rewrite E'.
    rewrite permute_columns_nth by exact Hj.
    rewrite transpose_column by exact Hi. reflexivity.
Qed.

End Permute.

(** ** The Gram operator and the dispatch *)

Section Operator.

Context {S : Scalar} {R : Random} {Sv : Solvers} {So : Sorting}.

Lemma select_primitives_inv (A : operand) (n m : nat) (w w1 : world)
    (p : primitives) :
  select_primitives A n m w = (Ok p, w1) ->
  roles A n m p /\ rng w1 = rng w
  /\ only (fun e => e = EvHerm \/ e = EvProbe) w w1.
Proof.
  unfold select_primitives, roles. destruct A as [L|a|a].
  - destruct (m <? n)%nat.
    + intros [= <- <-]. cbn. repeat split. apply only_refl.
    + intros H. apply bind_inv in H as (d & w0 & Hd & H).
      injection H as <- <-. cbn. repeat split.
      * destruct (lo_dtype L) as [[d'|]|].
        -- injection Hd as _ <-. reflexivity.
        -- apply bind_inv in Hd as (? & ? & [= _ <-] & Hd).
           apply bind_inv in Hd as (? & ? & Hl & Hd).
           unfold lift in Hl. injection Hl as _ <-.
           injection Hd as _ <-. reflexivity.
        -- apply bind_inv in Hd as (? & ? & [= _ <-] & Hd).
           apply bind_inv in Hd as (? & ? & Hl & Hd).
           unfold lift in Hl. injection Hl as _ <-.
           injection Hd as _ <-. reflexivity.
      * destruct (lo_dtype L) as [[d'|]|].
        -- injection Hd as _ <-. apply only_refl.
        -- apply bind_inv in Hd as (? & ? & [= _ <-] & Hd).
           apply bind_inv in Hd as (? & ? & Hl & Hd).
           unfold lift in Hl. injection Hl as _ <-.
           injection Hd as _ <-. exists [EvProbe]. cbn. auto.
        -- apply bind_inv in Hd as (? & ? & [= _ <-] & Hd).
           apply bind_inv in Hd as (? & ? & Hl & Hd).
           unfold lift in Hl. injection Hl as _ <-.
           injection Hd as _ <-. exists [EvProbe]. cbn. auto.
  - intros H. apply bind_inv in H as (? & w0 & [= _ <-] & H).
    destruct (m <? n)%nat; injection H as <- <-; cbn;
      (repeat split; [exists [EvHerm]; cbn; auto]).
  - intros H. apply bind_inv in H as (? & w0 & [= _ <-] & H).
    destruct (m <? n)%nat; injection H as <- <-; cbn;
      (repeat split; [exists [EvHerm]; cbn; auto]).
Qed.

Lemma gram_operator_inv (A : operand) (p : primitives) (n m : nat)
    (w w1 : world) (g : GramOperator) :
  gram_operator A p n m w = (Ok g, w1) ->
  g = {| g_matvec := matvec_XH_X p; g_dtype := g_dtype g;
         g_matmat := matmat_XH_X p;
         g_shape := (Nat.min n m, Nat.min n m) |}
  /\ rng w1 = rng w
  /\ ((exists d, operand_dtype A = Ok (Some d) /\ g_dtype g = Some d
                 /\ log w1 = log w ++ [EvGram])
      \/ (operand_dtype A = Ok None
          /\ exists r, matvec_XH_X p (zeros_vector (Nat.min n m)) = Ok r
                       /\ length (vdata r) = Nat.min n m
                       /\ g_dtype g = Some (vdtype r)
                       /\ log w1 = log w ++ [EvGram; EvInitDtype])).
Proof.
  unfold gram_operator. intros H.
  apply bind_inv in H as (d & w0 & Hd & H).
  unfold lift in Hd. injection Hd as Hd <-.
  apply bind_inv in H as (? & w2 & [= _ <-] & H).
  apply bind_inv in H as (d' & w3 & Hd' & H).
  injection H as <- <-. cbn [g_dtype rng].
  destruct d as [t|].
  - injection Hd' as <- <-. cbn [rng log]. split; [reflexivity|].
    split; [reflexivity|]. left. eauto.
  - apply bind_inv in Hd' as (? & w4 & [= _ <-] & Hd').
    apply bind_inv in Hd' as (r & w5 & Hr & Hd').
    unfold lift in Hr. injection Hr as Hr <-.
    destruct (length (vdata r) =? Nat.min n m)%nat eqn:E; [|discriminate Hd'].
    injection Hd' as <- <-. cbn [rng log]. split; [reflexivity|].
    split; [reflexivity|]. right. split; [exact Hd|].
    exists r. apply Nat.eqb_eq in E. rewrite <- app_assoc. auto.
Qed.

(** With a dtype at hand nothing is probed and the operator is built. *)
Lemma select_primitives_exposed (A : operand) (n m : nat) (d : ascii)
    (w : world) :
  exposes_dtype A d ->
  exists p w1, select_primitives A n m w = (Ok p, w1)
               /\ rng w1 = rng w
               /\ only (fun e => e = EvHerm) w w1.
Proof.
  unfold exposes_dtype, select_primitives.
  destruct (m <? n)%nat; destruct A as [L|a|a]; cbn.
  - destruct (lo_dtype L) as [[d'|]|]; try discriminate. intros _.
    do 2 eexists. split; [reflexivity|]. split; auto using only_refl.
  - intros _. do 2 eexists. split; [reflexivity|]. cbn.
    split; [reflexivity|]. exists [EvHerm]; cbn; auto.
  - intros _. do 2 eexists. split; [reflexivity|]. cbn.
    split; [reflexivity|]. exists [EvHerm]; cbn; auto.
  - destruct (lo_dtype L) as [[d'|]|]; try discriminate. intros _.
    do 2 eexists. split; [reflexivity|]. split; auto using only_refl.
  - intros _. do 2 eexists. split; [reflexivity|]. cbn.
    split; [reflexivity|]. exists [EvHerm]; cbn; auto.
  - intros _. do 2 eexists. split; [reflexivity|]. cbn.
    split; [reflexivity|]. exists [EvHerm]; cbn; auto.
Qed.

Lemma gram_operator_exposed (A : operand) (p : primitives) (n m : nat)
    (d : ascii) (w : world) :
  exposes_dtype A d ->
  gram_operator A p n m w
  = (Ok {| g_matvec := matvec_XH_X p; g_dtype := Some d;
           g_matmat := matmat_XH_X p;
           g_shape := (Nat.min n m, Nat.min n m) |},
     {| rng := rng w; log := log w ++ [EvGram] |}).
Proof.
  unfold exposes_dtype, gram_operator. intros H.
  unfold bind, lift, tick. rewrite H. reflexivity.
Qed.

(** The body of [svds_eigenpairs] once both checks have passed. *)
Lemma svds_eigenpairs_valid (A : operand) (k : Z) (ncv : option Z)
    (tol : scalar) (which : string) (v0 : option vector)
    (maxiter : option Z) (solver : option string) (w : world) (n m : nat) :
  which = "LM"%string \/ which = "SM"%string ->
  operand_shape A = (n, m) ->
  (0 < k < Z.of_nat (Nat.min n m))%Z ->
  svds_eigenpairs A k ncv tol which v0 maxiter solver w
  = (p <- select_primitives A n m ;;
     XH_X <- gram_operator A p n m ;;
     ev <- dispatch XH_X n m k ncv tol which (which =? "LM")%string
                    v0 maxiter solver ;;
     ret {| sv_n := n; sv_m := m; sv_X_matmat := X_matmat p;
            sv_eigvals := fst ev; sv_eigvec := snd ev |})
    (after_asarray A w).
Proof.
  intros Hw Hs Hk. unfold svds_eigenpairs. rewrite Hs.
  assert (E : ((k <=? 0)%Z || (k >=? Z.of_nat (Nat.min n m))%Z) = false).
  { apply orb_false_iff. split; [apply Z.leb_gt; lia|].
    rewrite Z.geb_leb. apply Z.leb_gt. lia. }
  destruct Hw as [-> | ->]; cbn [String.eqb Ascii.eqb Bool.eqb];
    unfold bind at 1, ret at 1; unfold bind at 1;
    destruct A; cbn [after_asarray tick ret]; rewrite E; reflexivity.
Qed.

(** An unknown solver name stops the call at the dispatch. *)
Lemma dispatch_unrecognized (XH_X : GramOperator) (n m : nat) (k : Z)
    (ncv : option Z) (tol : scalar) (which : string) (largest : bool)
    (v0 : option vector) (maxiter : option Z) (solver : option string)
    (w : world) :
  unrecognized solver ->
  dispatch XH_X n m k ncv tol which largest v0 maxiter solver w
  = (Err ValueError_solver, w).
Proof.
  intros (name & -> & Hl & Ha). unfold dispatch.
  apply String.eqb_neq in Hl, Ha. rewrite Hl, Ha. reflexivity.
Qed.

End Operator.

(** ** What depends on the global generator *)

Section DeterminismFacts.

Context {S : Scalar} {R : Random}.

Lemma generator_free_deterministic {A} (c : M A) :
  generator_free c -> deterministic c.
Proof.
  intros H w w' E. destruct (H w w') as [H1 H2].
  destruct (H w' w') as [_ H3]. split; congruence.
Qed.

Lemma generator_free_ret {A} (a : A) : generator_free (ret a).
Proof. intros w w'. cbn. auto. Qed.

Lemma generator_free_raise {A} (e : exn) : generator_free (@raise _ _ A e).
Proof. intros w w'. cbn. auto. Qed.

Lemma generator_free_lift {A} (r : result A) : generator_free (lift r).
Proof. intros w w'. cbn. auto. Qed.

Lemma generator_free_tick (e : event) : generator_free (tick e).
Proof. intros w w'. cbn. auto. Qed.

Lemma generator_free_bind {A B} (c : M A) (f : A -> M B) :
  generator_free c -> (forall a, generator_free (f a)) ->
  generator_free (bind c f).
Proof.
  intros Hc Hf w w'. unfold bind.
  destruct (Hc w w') as [E1 E2]. destruct (Hc w' w') as [_ E3].
  destruct (c w) as [[a|e] w1], (c w') as [[a'|e'] w1']; cbn in *;
    try discriminate.
  - injection E1 as <-. destruct (Hf a w1 w1') as [F1 F2].
    split; congruence.
  - split; congruence.
Qed.

Lemma deterministic_bind {A B} (c : M A) (f : A -> M B) :
  deterministic c -> (forall a, deterministic (f a)) ->
  deterministic (bind c f).
Proof.
  intros Hc Hf w w' E. unfold bind.
  destruct (Hc w w' E) as [E1 E2].
  destruct (c w) as [[a|e] w1], (c w') as [[a'|e'] w1']; cbn in *;
    try discriminate.
  - injection E1 as <-. apply Hf. exact E2.
  - split; congruence.
Qed.

Lemma deterministic_randn (n : nat) : deterministic (np_random_randn n).
Proof.
  intros w w' E. unfold np_random_randn. rewrite E.
  destruct (randn (rng w') n); cbn. auto.
Qed.

End DeterminismFacts.

Ltac generator_free_step :=
  first
    [ apply generator_free_bind; [|intros ?]
    | apply generator_free_ret
    | apply generator_free_raise
    | apply generator_free_lift
    | apply generator_free_tick
    | match goal with
      | |- generator_free (if ?b then _ else _) => destruct b
      | |- generator_free (match ?x with _ => _ end) => destruct x
      | |- generator_free (let (_, _) := ?x in _) => destruct x
      end ].

Ltac deterministic_step :=
  first
    [ apply deterministic_bind; [|intros ?]
    | apply deterministic_randn
    | apply generator_free_deterministic, generator_free_ret
    | apply generator_free_deterministic, generator_free_raise
    | apply generator_free_deterministic, generator_free_lift
    | apply generator_free_deterministic, generator_free_tick
    | match goal with
      | |- deterministic (if ?b then _ else _) => destruct b
      | |- deterministic (match ?x with _ => _ end) => destruct x
      end ].

Section Components.

Context {S : Scalar} {R : Random} {Sv : Solvers} {So : Sorting}.

Lemma select_primitives_free (A : operand) (n m : nat) :
  generator_free (select_primitives A n m).
Proof. unfold select_primitives. repeat generator_free_step. Qed.

Lemma gram_operator_free (A : operand) (p : primitives) (n m : nat) :
  generator_free (gram_operator A p n m).
Proof. unfold gram_operator. repeat generator_free_step. Qed.

Lemma dispatch_free (XH_X : GramOperator) (n m : nat) (k : Z)
    (ncv : option Z) (tol : scalar) (which : string) (largest : bool)
    (v0 : option vector) (maxiter : option Z) (solver : option string) :
  generator_free (dispatch XH_X n m k ncv tol which largest v0 maxiter solver).
Proof. unfold dispatch. repeat generator_free_step. Qed.

(** Lines 134-200 do not touch the global generator: the initial block of
    [lobpcg] comes from a generator of its own, seeded with 52. *)
Lemma svds_eigenpairs_free (A : operand) (k : Z) (ncv : option Z)
    (tol : scalar) (which : string) (v0 : option vector)
    (maxiter : option Z) (solver : option string) :
  generator_free (svds_eigenpairs A k ncv tol which v0 maxiter solver).
Proof.
  unfold svds_eigenpairs.
  apply generator_free_bind; [repeat generator_free_step|intros largest].
  apply generator_free_bind; [repeat generator_free_step|intros _].
  destruct (operand_shape A) as [n m].
  destruct ((k <=? 0)%Z || (k >=? Z.of_nat (Nat.min n m))%Z);
    [apply generator_free_raise|].
  apply generator_free_bind; [apply select_primitives_free|intros p].
  apply generator_free_bind; [apply gram_operator_free|intros g].
  apply generator_free_bind; [apply dispatch_free|intros ev].
  apply generator_free_ret.
Qed.

Lemma reliable_vectors_free (c : solved) (mask : list bool)
    (slarge : list scalar) (rsv : rsv_arg) :
  generator_free (reliable_vectors c mask slarge rsv).
Proof. unfold reliable_vectors. repeat generator_free_step. Qed.

Lemma sample_deterministic (n : nat) (cplx : bool) :
  deterministic (sample n cplx).
Proof. unfold sample. repeat deterministic_step. Qed.

Lemma augment_loop_deterministic (n : nat) (cplx : bool) (k : nat) :
  forall y, deterministic (augment_loop n cplx k y).
Proof.
  induction k as [|k IH]; intros y; cbn [augment_loop].
  - apply generator_free_deterministic, generator_free_ret.
  - apply deterministic_bind; [apply sample_deterministic|intros v].
    apply IH.
Qed.

Lemma augmented_cols_deterministic (x : ndarray) (k : Z) :
  deterministic (_augmented_orthonormal_cols x k).
Proof.
  unfold _augmented_orthonormal_cols.
  destruct (k <? 0)%Z.
  - repeat deterministic_step.
  - apply deterministic_bind; [apply augment_loop_deterministic|intros y].
    apply generator_free_deterministic, generator_free_ret.
Qed.

Lemma augmented_rows_deterministic (x : ndarray) (k : Z) :
  deterministic (_augmented_orthonormal_rows x k).
Proof.
  unfold _augmented_orthonormal_rows.
  apply deterministic_bind; [apply augmented_cols_deterministic|intros y].
  apply generator_free_deterministic, generator_free_ret.
Qed.

Lemma svds_assemble_deterministic (k : Z) (rsv : rsv_arg) (c : solved) :
  deterministic (svds_assemble k rsv c).
Proof.
  unfold svds_assemble.
  apply deterministic_bind;
    [apply generator_free_deterministic, generator_free_lift|intros cutoff].
  destruct (negb (truthy rsv));
    [apply generator_free_deterministic, generator_free_ret|].
  apply deterministic_bind;
    [apply generator_free_deterministic, reliable_vectors_free|intros uv].
  apply deterministic_bind.
  { unfold if_not_None. destruct (fst uv).
    - apply deterministic_bind; [apply augmented_cols_deterministic|intros y].
      apply generator_free_deterministic, generator_free_ret.
    - apply generator_free_deterministic, generator_free_ret. }
  intros u. apply deterministic_bind.
  { unfold if_not_None. destruct (snd uv).
    - apply deterministic_bind; [apply augmented_rows_deterministic|intros y].
      apply generator_free_deterministic, generator_free_ret.
    - apply generator_free_deterministic, generator_free_ret. }
  intros vh. unfold index_if_not_None.
  apply generator_free_deterministic. repeat generator_free_step.
Qed.

Lemma svds_deterministic (A : operand) (k : Z) (ncv : option Z)
    (tol : scalar) (which : string) (v0 : option vector)
    (maxiter : option Z) (rsv : rsv_arg) (solver : option string) :
  deterministic (svds A k ncv tol which v0 maxiter rsv solver).
Proof.
  unfold svds. apply deterministic_bind.
  - apply generator_free_deterministic, svds_eigenpairs_free.
  - intros c. apply svds_assemble_deterministic.
Qed.

End Components.

(** ** The insertion sort meets the contract of [np.sort] and [np.argsort] *)

Section InsertionSortFacts.

Context {S : Scalar} {OL : OrderLaws}.

Lemma insert_by_permutation {A} (key : A -> scalar) (x : A) (l : list A) :
  Permutation (insert_by key x l) (x :: l).
Proof.
  induction l as [|y l IH]; cbn [insert_by]; auto.
  destruct (before (key x) (key y)); auto.
  rewrite IH. apply perm_swap.
Qed.

Lemma sort_by_permutation {A} (key : A -> scalar) (l : list A) :
  Permutation (sort_by key l) l.
Proof.
  induction l as [|x l IH]; cbn; auto.
  rewrite insert_by_permutation. now constructor.
Qed.

Lemma before_comparable (x y : scalar) :
  comparable y -> before x y = le x y.
Proof.
  intros Hy. unfold before. unfold comparable in Hy. rewrite Hy.
  cbn. apply orb_false_r.
Qed.

Lemma insert_by_sorted {A} (key : A -> scalar) (x : A) (l : list A) :
  comparable (key x) ->
  Forall (fun y => comparable (key y)) l ->
  Sorted (fun a b => le (key a) (key b) = true) l ->
  Sorted (fun a b => le (key a) (key b) = true) (insert_by key x l).
Proof.
  intros Hx. induction l as [|y l IH]; intros Hc Hs; cbn [insert_by].
  - repeat constructor.
  - inversion Hc as [|? ? Hy Hc']; subst.
    inversion Hs as [|? ? Hs' Hd]; subst.
    rewrite before_comparable by exact Hy.
    destruct (le (key x) (key y)) eqn:E.
    + constructor; auto.
    + assert (Hyx : le (key y) (key x) = true).
      { destruct (@le_total _ _ (key x) (key y) Hx Hy) as [H|H]; congruence. }
      constructor; [apply IH; assumption|].
      destruct l as [|z l]; cbn [insert_by].
      * constructor. exact Hyx.
      * destruct (before (key x) (key z)); constructor; auto.
        inversion Hd; subst. assumption.
Qed.

Lemma sort_by_sorted {A} (key : A -> scalar) (l : list A) :
  Forall (fun y => comparable (key y)) l ->
  Sorted (fun a b => le (key a) (key b) = true) (sort_by key l).
Proof.
  induction 1 as [|x l Hx Hl IH]; cbn; [constructor|].
  apply insert_by_sorted; auto.
  eapply Permutation_Forall; [symmetry; apply sort_by_permutation|exact Hl].
Qed.

Lemma sorted_map_key {A} (key : A -> scalar) (l : list A) :
  Sorted (fun a b => le (key a) (key b) = true) l ->
  ascending (map key l).
Proof.
  induction 1 as [|x l Hs IH Hd]; cbn; [constructor|].
  constructor; [exact IH|]. destruct Hd; cbn; constructor; assumption.
Qed.

Lemma combine_seq_snd (l : list scalar) (start : nat) :
  map snd (combine l (seq start (length l))) = seq start (length l).
Proof.
  revert start. induction l as [|x l IH]; intros start; cbn; auto.
  now rewrite IH.
Qed.

Lemma combine_seq_fst (l : list scalar) (start : nat) :
  map fst (combine l (seq start (length l))) = l.
Proof.
  revert start. induction l as [|x l IH]; intros start; cbn; auto.
  now rewrite IH.
Qed.

Lemma combine_seq_nth (l : list scalar) (p : scalar * nat) :
  In p (combine l (seq 0 (length l))) -> nth (snd p) l zero = fst p.
Proof.
  assert (G : forall l' start, In p (combine l' (seq start (length l'))) ->
              start <= snd p /\ nth (snd p - start) l' zero = fst p).
  { induction l' as [|x l' IH]; intros start; cbn; [tauto|].
    intros [<- | H].
    - cbn. rewrite Nat.sub_diag. auto.
    - apply IH in H as [H1 H2]. split; [lia|].
      replace (snd p - start) with (Datatypes.S (snd p - Datatypes.S start)) by lia.
      exact H2. }
  intros H. apply G in H as [_ H]. now rewrite Nat.sub_0_r in H.
Qed.

Lemma insertion_sort_laws : @SortingLaws S InsertionSorting.
Proof.
  constructor; cbn [np_sort np_argsort InsertionSorting].
  - intros l. apply sort_by_permutation.
  - intros l Hc. unfold insertion_sort.
    rewrite <- (map_id (sort_by (fun x => x) l)).
    apply sorted_map_key with (key := fun x => x).
    apply sort_by_sorted. exact Hc.
  - intros l. unfold insertion_argsort.
    rewrite (Permutation_map snd (sort_by_permutation fst _)).
    now rewrite combine_seq_snd.
  - intros l Hc. unfold insertion_argsort. rewrite map_map.
    set (pairs := combine l (seq 0 (length l))).
    assert (E : map (fun p => nth (snd p) l zero) (sort_by fst pairs)
                = map fst (sort_by fst pairs)).
    { apply map_ext_in. intros p Hp. apply combine_seq_nth.
      eapply Permutation_in; [apply sort_by_permutation|exact Hp]. }
    rewrite E. apply sorted_map_key, sort_by_sorted.
    apply Forall_forall. intros p Hp.
    rewrite Forall_forall in Hc. apply Hc.
    rewrite <- (combine_seq_fst l 0). now apply in_map.
Qed.

End InsertionSortFacts.

(** ** Modified Gram-Schmidt in exact arithmetic *)

Section GramSchmidt.

Context {S : Scalar} {R : Random} {FL : StarFieldLaws}.

Add Ring scalar_ring : star_ring.

Lemma fold_add_from (l : list scalar) (a : scalar) :
  fold_left add l a = add a (fold_left add l zero).
Proof.
  revert a. induction l as [|x l IH]; intros a; cbn.
  - ring.
  - rewrite (IH (add a x)), (IH (add zero x)). ring.
Qed.

Lemma hdot_nil_l (u : list scalar) : hdot [] u = zero.
Proof. reflexivity. Qed.

Lemma hdot_nil_r (v : list scalar) : hdot v [] = zero.
Proof. destruct v; reflexivity. Qed.

Lemma hdot_cons (x y : scalar) (v u : list scalar) :
  hdot (x :: v) (y :: u) = add (mul x (conj y)) (hdot v u).
Proof.
  unfold hdot, np_dot, vconj. cbn. rewrite fold_add_from. ring.
Qed.

Lemma hdot_sub_scale (c : scalar) (v : list scalar) :
  forall u w, length v = length u ->
  hdot (zip_with sub v (map (mul c) u)) w
  = sub (hdot v w) (mul c (hdot u w)).
Proof.
  induction v as [|x v IH]; intros [|y u] [|z w] Hl; try discriminate;
    cbn [zip_with map]; rewrite ?hdot_nil_l, ?hdot_nil_r; try ring.
  rewrite !hdot_cons, IH by (cbn in Hl; lia). ring.
Qed.

Lemma hdot_div_l (s : scalar) (v : list scalar) :
  forall w, hdot (map (fun a => div a s) v) w = div (hdot v w) s.
Proof.
  induction v as [|x v IH]; intros [|z w]; cbn [map];
    rewrite ?hdot_nil_l, ?hdot_nil_r;
    try (rewrite (div_mul_inv zero s); ring).
  rewrite !hdot_cons, IH.
  rewrite (div_mul_inv x s), (div_mul_inv (hdot v w) s),
          (div_mul_inv (add _ _) s). ring.
Qed.

Lemma hdot_conj_sym (v : list scalar) :
  forall u, hdot u v = conj (hdot v u).
Proof.
  induction v as [|x v IH]; intros [|y u];
    rewrite ?hdot_nil_l, ?hdot_nil_r, ?conj_zero; auto.
  rewrite !hdot_cons, conj_add, conj_mul, conj_conj, <- IH. ring.
Qed.

Lemma hdot_div_r (s : scalar) (v w : list scalar) :
  hdot v (map (fun a => div a s) w) = div (hdot v w) (conj s).
Proof.
  rewrite hdot_conj_sym, hdot_div_l, conj_div, <- hdot_conj_sym. reflexivity.
Qed.

Lemma div_one (a : scalar) : div a one = a.
Proof.
  rewrite div_mul_inv.
  assert (E : div one one = one).
  { rewrite <- (@mul_inv _ _ one one_neq_zero) at 3. ring. }
  rewrite E. ring.
Qed.

Lemma div_zero (s : scalar) : div zero s = zero.
Proof. rewrite div_mul_inv. ring. Qed.

Lemma subtract_projection_length (v u : list scalar) :
  length v = length u -> length (subtract_projection v u) = length v.
Proof.
  intros H. unfold subtract_projection. cbv zeta.
  rewrite zip_with_length, length_map. lia.
Qed.

(** After the projection onto a unit vector [u] nothing of [u] is left. *)
Lemma subtract_projection_orthogonal (v u : list scalar) :
  length v = length u -> hdot u u = one ->
  hdot (subtract_projection v u) u = zero.
Proof.
  intros Hl Hu. unfold subtract_projection. cbv zeta.
  rewrite hdot_sub_scale by exact Hl. fold (hdot v u). fold (hdot u u).
  rewrite Hu, div_one. ring.
Qed.

(** And what was orthogonal to a vector [w] that [u] is orthogonal to
    stays so. *)
Lemma subtract_projection_keeps (v u w : list scalar) :
  length v = length u -> hdot u w = zero ->
  hdot (subtract_projection v u) w = hdot v w.
Proof.
  intros Hl Hu. unfold subtract_projection. cbv zeta.
  rewrite hdot_sub_scale by exact Hl. rewrite Hu. ring.
Qed.

Lemma orthonormal_cons_inv (u : list scalar) (us : list (list scalar)) :
  orthonormal (u :: us) ->
  hdot u u = one
  /\ orthonormal us
  /\ forall w, In w us -> hdot u w = zero /\ hdot w u = zero.
Proof.
  intros H. split; [|split].
  - apply (H 0 0); cbn; lia.
  - intros i j Hi Hj.
    apply (H (Datatypes.S i) (Datatypes.S j)); cbn; lia.
  - intros w Hw. apply In_nth with (d := []) in Hw as (i & Hi & <-). split.
    + apply (H 0 (Datatypes.S i)); cbn; lia.
    + apply (H (Datatypes.S i) 0); cbn; lia.
Qed.

Lemma orthonormal_snoc (us : list (list scalar)) (v : list scalar) :
  orthonormal us -> hdot v v = one ->
  (forall u, In u us -> hdot v u = zero /\ hdot u v = zero) ->
  orthonormal (us ++ [v]).
Proof.
  intros Ho Hv Hz i j Hi Hj. rewrite length_app in Hi, Hj. cbn in Hi, Hj.
  destruct (Nat.lt_ge_cases i (length us)) as [Li|Li],
           (Nat.lt_ge_cases j (length us)) as [Lj|Lj].
  - rewrite !app_nth1 by assumption. now apply Ho.
  - rewrite (app_nth1 _ _ _ Li), (app_nth2 _ _ _ Lj).
    replace (j - length us) with 0 by lia. cbn [nth].
    replace (i =? j)%nat with false by (symmetry; apply Nat.eqb_neq; lia).
    apply Hz, nth_In, Li.
  - rewrite (app_nth2 _ _ _ Li), (app_nth1 _ _ _ Lj).
    replace (i - length us) with 0 by lia. cbn [nth].
    replace (i =? j)%nat with false by (symmetry; apply Nat.eqb_neq; lia).
    apply Hz, nth_In, Lj.
  - rewrite (app_nth2 _ _ _ Li), (app_nth2 _ _ _ Lj).
    replace (i - length us) with 0 by lia.
    replace (j - length us) with 0 by lia. cbn [nth].
    replace (i =? j)%nat with true by (symmetry; apply Nat.eqb_eq; lia).
    exact Hv.
Qed.

(** The inner loop: after the projections onto orthonormal columns [us],
    in their order, the vector is orthogonal to each of them, and to
    every vector [p] it was orthogonal to that they are orthogonal to. *)
Lemma fold_projection_orthogonal (n : nat) (us : list (list scalar)) :
  forall (v : list scalar) (P : list (list scalar)),
  length v = n -> Forall (fun u => length u = n) us ->
  orthonormal us ->
  Forall (fun p => hdot v p = zero) P ->
  (forall u p, In u us -> In p P -> hdot u p = zero) ->
  let r := fold_left subtract_projection us v in
  length r = n
  /\ Forall (fun p => hdot r p = zero) P
  /\ Forall (fun u => hdot r u = zero) us.
Proof.
  induction us as [|u us IH]; intros v P Hv Hus Ho HP HuP; cbn [fold_left].
  - auto.
  - inversion Hus as [|? ? Hu Hus']; subst.
    apply orthonormal_cons_inv in Ho as (Huu & Ho' & Hz).
    assert (Hl : length v = length u) by congruence.
    destruct (IH (subtract_projection v u) (u :: P)) as (Lr & HrP & Hr); auto.
    + rewrite subtract_projection_length; auto.
    + constructor.
      * now apply subtract_projection_orthogonal.
      * rewrite Forall_forall in *. intros p Hp.
        rewrite subtract_projection_keeps; auto.
        apply HuP; [now left|exact Hp].
    + intros u' p Hu' [<- | Hp].
      * now apply Hz.
      * apply HuP; [now right|exact Hp].
    + inversion HrP; subst. repeat split; auto.
Qed.

Context {NL : NormLaws} {RL : RandomLaws}.

Lemma normalize_length (v : list scalar) : length (normalize v) = length v.
Proof. unfold normalize. cbv zeta. now rewrite length_map. Qed.

Lemma norm_nonzero (r : list scalar) :
  hdot r r <> zero -> sqrt (hdot r r) <> zero.
Proof.
  intros H E. apply H. destruct (sqrt_norm r) as [<- _]. rewrite E. ring.
Qed.

(** Division by the norm leaves a vector of norm one. *)
Lemma normalize_unit (r : list scalar) :
  hdot r r <> zero -> hdot (normalize r) (normalize r) = one.
Proof.
  intros H. unfold normalize. cbv zeta. change (np_dot r (vconj r)) with (hdot r r).
  pose proof (norm_nonzero r H) as Hs.
  destruct (sqrt_norm r) as [Hsq Hc].
  set (s := sqrt (hdot r r)) in *.
  rewrite hdot_div_l, hdot_div_r, Hc, <- Hsq.
  rewrite (div_mul_inv (div _ s) s), (div_mul_inv (mul s s) s).
  transitivity (mul (mul s (div one s)) (mul s (div one s))); [ring|].
  rewrite (@mul_inv _ _ s Hs). ring.
Qed.

Lemma normalize_orthogonal (r u : list scalar) :
  hdot r u = zero ->
  hdot (normalize r) u = zero /\ hdot u (normalize r) = zero.
Proof.
  intros H. unfold normalize. cbv zeta. split.
  - rewrite hdot_div_l, H. apply div_zero.
  - rewrite hdot_div_r, (hdot_conj_sym r u), H, conj_zero. apply div_zero.
Qed.

Lemma sample_length (n : nat) (cplx : bool) (w w' : world) (v : list scalar) :
  sample n cplx w = (Ok v, w') -> length v = n.
Proof.
  unfold sample. intros H. apply bind_inv in H as (v1 & w1 & H1 & H).
  assert (L1 : length v1 = n).
  { unfold np_random_randn in H1.
    pose proof (randn_length (rng w) n) as L.
    destruct (randn (rng w) n) as [v' g]. injection H1 as <- _. exact L. }
  destruct cplx.
  - apply bind_inv in H as (v2 & w2 & H2 & H).
    assert (L2 : length v2 = n).
    { unfold np_random_randn in H2.
      pose proof (randn_length (rng w1) n) as L.
      destruct (randn (rng w1) n) as [v' g]. injection H2 as <- _. exact L. }
    injection H as <- _. rewrite zip_with_length, length_map. lia.
  - injection H as <- _. exact L1.
Qed.

(** The outer loop: orthonormal columns stay orthonormal as long as every
    sample leaves something to normalize. *)
Lemma augment_loop_orthonormal (n : nat) (cplx : bool) (k : nat) :
  forall (y : list (list scalar)) (w : world),
  Forall (fun u => length u = n) y ->
  orthonormal y ->
  residuals_nonzero n cplx k y w ->
  exists added w',
    augment_loop n cplx k y w = (Ok (y ++ added), w')
    /\ length added = k
    /\ Forall (fun u => length u = n) (y ++ added)
    /\ orthonormal (y ++ added).
Proof.
  induction k as [|k IH]; intros y w Hy Ho Hres.
  - exists [], w. rewrite app_nil_r. cbn. auto.
  - cbn [augment_loop residuals_nonzero] in *.
    destruct (sample n cplx w) as [[v|e] w1] eqn:Hs; [|contradiction].
    destruct Hres as [Hnz Hres].
    pose proof (sample_length n cplx w w1 v Hs) as Lv.
    destruct (fold_projection_orthogonal n y v [] Lv Hy Ho)
      as (Lr & _ & Hr); [constructor|intros ? ? ? []|].
    set (r := fold_left subtract_projection y v) in *.
    assert (Hy' : Forall (fun u => length u = n) (y ++ [normalize r])).
    { apply Forall_app. split; auto. constructor; auto.
      now rewrite normalize_length. }
    assert (Ho' : orthonormal (y ++ [normalize r])).
    { apply orthonormal_snoc; auto.
      - now apply normalize_unit.
      - intros u Hu. apply normalize_orthogonal.
        rewrite Forall_forall in Hr. now apply Hr. }
    destruct (IH (y ++ [normalize r]) w1 Hy' Ho' Hres)
      as (added & w2 & Hloop & La & Hlen & Hort).
    exists (normalize r :: added), w2.
    unfold bind. rewrite Hs. fold r.
    rewrite <- app_assoc in Hloop, Hlen, Hort. cbn [app] in *.
    repeat split; auto. cbn. now rewrite La.
Qed.

End GramSchmidt.

(** ** The singular values and the sides of the output *)

Section ValueClaims.

Context {S : Scalar} {R : Random} {Sv : Solvers} {So : Sorting}.

Variables (A : operand) (k : Z) (ncv : option Z) (tol : scalar)
          (which : string) (v0 : option vector) (maxiter : option Z)
          (solver : option string).

(** C10.  When the eigenvectors that the eigensolver returned have a dtype
    character that is, in lower case, neither ['f'] nor ['d'], the lookup
    [factor[t]] raises a [KeyError] that nothing catches, whatever output
    mode was asked for; hence a call that returns has eigenvectors of
    single or double precision. *)
Theorem svds_KeyError_outside_single_double :
  forall (rsv : rsv_arg) (w w1 : world) (c : solved),
  svds_eigenpairs A k ncv tol which v0 maxiter solver w = (Ok c, w1) ->
  let t := lower (dtype (sv_eigvec c)) in
  (t <> "f"%char -> t <> "d"%char ->
   svds A k ncv tol which v0 maxiter rsv solver w = (Err (KeyError t), w1))
  /\ (forall out w2,
      svds A k ncv tol which v0 maxiter rsv solver w = (Ok out, w2) ->
      t = "f"%char \/ t = "d"%char).
Proof.
  intros rsv w w1 c Hpre t. split.
  - intros Hf Hd. rewrite (svds_after_eigenpairs _ _ _ _ _ _ _ _ _ _ _ _ Hpre).
    unfold svds_assemble, bind, lift.
    rewrite cutoff_of_KeyError by assumption. reflexivity.
  - intros out w2 H.
    rewrite (svds_after_eigenpairs _ _ _ _ _ _ _ _ _ _ _ _ Hpre) in H.
    apply svds_assemble_inv in H as (cutoff & Hc & _).
    apply cutoff_of_inv in Hc. tauto.
Qed.

(** C2.  After the eigensolver has returned [k] eigenvalues: each is
    clamped to [np.maximum(e.real, 0)], which is its real part where that
    is at or above zero, zero where it is below, and a NaN where it is
    one; the cutoff is factor times machine epsilon times the largest
    clamped eigenvalue [mx], with factor [1E3] for ['f'] and [1E6] for
    ['d'], where [mx] is one of the clamped eigenvalues, none of them
    exceeds it, and it is a NaN if one of them is; an index is reliable
    exactly when its clamped eigenvalue is greater than the cutoff, that
    is at or above it and not at or below it; and the array [s0] of length
    [k] that is then sorted holds the square roots of the reliable
    eigenvalues in its first places and zero in all the others. *)
Theorem svds_values_thresholded {OL : OrderLaws} {CL : ComparisonLaws} :
  forall (rsv : rsv_arg) (w w1 : world) (c : solved),
  svds_eigenpairs A k ncv tol which v0 maxiter solver w = (Ok c, w1) ->
  Z.of_nat (length (sv_eigvals c)) = k ->
  let t := lower (dtype (sv_eigvec c)) in
  t = "f"%char \/ t = "d"%char ->
  let eigvals := map (fun e => maximum (real e) zero) (sv_eigvals c) in
  exists mx,
    np_max eigvals = Ok mx
    /\ In mx eigvals
    /\ (Forall comparable eigvals -> Forall (fun e => le e mx = true) eigvals)
    /\ (Exists (fun e => le e e = false) eigvals -> le mx mx = false)
    /\ Forall2 (fun e c =>
                  (comparable (real e) ->
                   c = if le zero (real e) then real e else zero)
                  /\ (le (real e) (real e) = false -> c = real e))
               (sv_eigvals c) eigvals
    /\
    let cutoff := mul (mul (if (t =? "f")%char then lit_1E3 else lit_1E6)
                           (finfo_eps t)) mx in
    let reliable := filter (fun e => gt e cutoff) eigvals in
    let s0 := map sqrt reliable
              ++ repeat zero (Z.to_nat k - length reliable) in
    (forall i, i < Z.to_nat k ->
       nth i (above cutoff eigvals) false = gt (nth i eigvals zero) cutoff)
    /\ (forall e, In e reliable
                  <-> In e eigvals /\ le cutoff e = true /\ le e cutoff = false)
    /\ length s0 = Z.to_nat k
    /\ (forall i, i < length reliable ->
          nth i s0 zero = sqrt (nth i reliable zero))
    /\ (forall i, length reliable <= i < Z.to_nat k -> nth i s0 zero = zero)
    /\ (truthy rsv = false ->
        svds A k ncv tol which v0 maxiter rsv solver w
        = (Ok (OutValues (np_sort s0)), w1))
    /\ (forall out w2,
        truthy rsv = true ->
        svds A k ncv tol which v0 maxiter rsv solver w = (Ok out, w2) ->
        take s0 (np_argsort s0) = Ok (values_of out)).
Proof.
  intros rsv w w1 c Hpre Hlen t Ht eigvals.
  pose proof (svds_eigenpairs_inv _ _ _ _ _ _ _ _ _ _ _ Hpre) as (_ & Hk & _).
  assert (Hne : eigvals <> []).
  { intros E. apply (f_equal (@length _)) in E. unfold eigvals in E.
    rewrite length_map in E. simpl in E. lia. }
  destruct (cutoff_of_ok (sv_eigvec c) eigvals Ht Hne) as (mx & Hmx & Hc).
  fold t in Hc. exists mx. split; [exact Hmx|].
  destruct (np_max_spec eigvals mx Hmx) as (Hin & Hup & Hnan).
  split; [exact Hin|]. split; [exact Hup|]. split; [exact Hnan|].
  split; [exact (clamp_spec (sv_eigvals c))|]. cbv zeta.
  set (cutoff := mul (mul (if (t =? "f")%char then lit_1E3 else lit_1E6)
                          (finfo_eps t)) mx) in *.
  set (reliable := filter (fun e => gt e cutoff) eigvals).
  assert (Le : length eigvals = Z.to_nat k)
    by (unfold eigvals; rewrite length_map; lia).
  assert (Hs0 : assemble_values eigvals (above cutoff eigvals)
                = map sqrt reliable ++ repeat zero (Z.to_nat k - length reliable)).
  { unfold assemble_values. rewrite compress_above, count_true_above.
    fold reliable. now rewrite Le. }
  assert (Lr : length reliable <= Z.to_nat k)
    by (rewrite <- Le; apply filter_length_le).
  split; [|split; [|split; [|split; [|split; [|split]]]]].
  - intros i Hi. unfold above.
    transitivity (nth i (map (fun e => gt e cutoff) eigvals)
                        ((fun e => gt e cutoff) zero)).
    + apply nth_indep. rewrite length_map. lia.
    + pose proof (map_nth (fun e => gt e cutoff) eigvals zero i) as E.
      cbv beta in *. exact E.
  - intros e. apply reliable_strict.
  - rewrite length_app, length_map, repeat_length. lia.
  - intros i Hi. rewrite app_nth1 by (now rewrite length_map).
    transitivity (nth i (map sqrt reliable) (sqrt zero)).
    + apply nth_indep. now rewrite length_map.
    + apply map_nth.
  - intros i Hi. rewrite app_nth2 by (rewrite length_map; lia).
    apply nth_repeat.
  - intros Hf. rewrite (svds_after_eigenpairs _ _ _ _ _ _ _ _ _ _ _ _ Hpre).
    rewrite (svds_assemble_values k rsv c cutoff w1 Hc Hf).
    change (clamp (sv_eigvals c)) with eigvals. now rewrite Hs0.
  - intros out w2 Hv H.
    rewrite (svds_after_eigenpairs _ _ _ _ _ _ _ _ _ _ _ _ Hpre) in H.
    apply svds_assemble_inv in H as (cutoff' & Hc' & H).
    change (clamp (sv_eigvals c)) with eigvals in Hc', H.
    rewrite Hc in Hc'. injection Hc' as <-.
    cbv zeta in H. rewrite Hs0 in H.
    destruct out as [s|u s vh]; cbn [values_of].
    + destruct H as [Hf _]. congruence.
    + tauto.
Qed.

(** C1, as the code has it.  With output mode ["u"] the right singular
    vectors are [None] exactly when the operator has no more rows than
    columns, and with ["vh"] the left singular vectors are [None] exactly
    when it has more rows than columns: the side that consists of the
    eigenvectors themselves is always returned.  Every other true mode
    returns both sides, and the values-only mode returns no vectors.  A
    call whose eigensolver returned [k] eigenpairs does return. *)
Theorem svds_sides_returned {SL : SortingLaws} :
  forall (rsv : rsv_arg) (w w1 : world) (c : solved),
  svds_eigenpairs A k ncv tol which v0 maxiter solver w = (Ok c, w1) ->
  let n := fst (operand_shape A) in
  let m := snd (operand_shape A) in
  (forall out w2,
     svds A k ncv tol which v0 maxiter rsv solver w = (Ok out, w2) ->
     match out with
     | OutValues _ => truthy rsv = false
     | OutTriple u _ vh =>
         truthy rsv = true
         /\ (u = None <-> m < n /\ rsv = RsvStr "vh")
         /\ (vh = None <-> n <= m /\ rsv = RsvStr "u")
     end)
  /\ (Z.of_nat (length (sv_eigvals c)) = k ->
      ncols (sv_eigvec c) = length (sv_eigvals c) ->
      lower (dtype (sv_eigvec c)) = "f"%char
      \/ lower (dtype (sv_eigvec c)) = "d"%char ->
      keeps_columns (nrows (sv_eigvec c)) (sv_X_matmat c) ->
      exists out w2,
        svds A k ncv tol which v0 maxiter rsv solver w = (Ok out, w2)).
Proof.
  intros rsv w w1 c Hpre n m.
  pose proof (svds_eigenpairs_inv _ _ _ _ _ _ _ _ _ _ _ Hpre) as (_ & Hk & Hsh).
  assert (Hn : sv_n c = n) by (unfold n; now rewrite <- Hsh).
  assert (Hm : sv_m c = m) by (unfold m; now rewrite <- Hsh).
  rewrite (svds_after_eigenpairs _ _ _ _ _ _ _ _ _ _ _ _ Hpre).
  split.
  - intros out w2 H. apply svds_assemble_inv in H as (cutoff & _ & H).
    cbv zeta in H. rewrite Hn, Hm in H.
    destruct out as [s|u s vh]; [tauto|].
    destruct H as (Ht & _ & Hu & Hv & _). split; [exact Ht|].
    rewrite Hu, Hv, Nat.ltb_lt, Nat.ltb_ge. tauto.
  - intros Hlen Hcols Ht Hop.
    assert (Hne : clamp (sv_eigvals c) <> []).
    { intros E. apply (f_equal (@length _)) in E. unfold clamp in E.
      rewrite length_map in E. simpl in E. lia. }
    destruct (cutoff_of_ok (sv_eigvec c) _ Ht Hne) as (mx & _ & Hc).
    destruct (truthy rsv) eqn:Hr.
    + destruct (svds_assemble_vectors k rsv c _ w1 Hc Hr Hlen Hcols Hop
                  (np_argsort_permutation _))
        as (u0 & vh0 & w2 & H & _).
      eauto.
    + rewrite (svds_assemble_values k rsv c _ w1 Hc Hr). eauto.
Qed.

Context {OL : OrderLaws}.

(** C4.  For valid input whose eigensolver returned [k] eigenpairs:
    the singular values that a call returns have length [k], none is
    below zero, and they ascend.  When vectors are returned, the output
    is made of the array [s0] assembled from the eigenvalues, of the
    reliable vectors of either side augmented by [k - nlarge] columns or
    rows ([u0] and [vh0]) and of the index array [idx = np.argsort(s0)],
    which is a permutation of [0, ..., k-1]: it rearranges the values,
    the columns of [u0] and the rows of [vh0] alike, so that place [j] of
    each holds what place [idx[j]] held before.  The call does return
    when the eigenvectors are of single or double precision and the
    operator keeps the number of columns. *)
Theorem svds_values_ascending_nonnegative {SL : SortingLaws} :
  forall (rsv : rsv_arg) (w w1 : world) (c : solved),
  svds_eigenpairs A k ncv tol which v0 maxiter solver w = (Ok c, w1) ->
  Z.of_nat (length (sv_eigvals c)) = k ->
  (forall out w2,
     svds A k ncv tol which v0 maxiter rsv solver w = (Ok out, w2) ->
     Z.of_nat (length (values_of out)) = k
     /\ Forall nonneg (values_of out)
     /\ ascending (values_of out)
     /\ (truthy rsv = true ->
         exists cutoff ul vhl wa u0 wb vh0,
           cutoff_of (sv_eigvec c) (clamp (sv_eigvals c)) = Ok cutoff /\
           let eigvals := clamp (sv_eigvals c) in
           let mask := above cutoff eigvals in
           let s0 := assemble_values eigvals mask in
           let idx := np_argsort s0 in
           let nsmall := (k - Z.of_nat (count_true mask))%Z in
           reliable_vectors c mask (map sqrt (compress mask eigvals)) rsv w1
           = (Ok (ul, vhl), wa)
           /\ if_not_None _augmented_orthonormal_cols ul nsmall wa
              = (Ok u0, wb)
           /\ if_not_None _augmented_orthonormal_rows vhl nsmall wb
              = (Ok vh0, w2)
           /\ Permutation idx (seq 0 (Z.to_nat k))
           /\ out = OutTriple (option_map (permute_columns idx) u0)
                              (map (fun i => nth i s0 zero) idx)
                              (option_map (permute_rows idx) vh0)
           /\ forall j, j < Z.to_nat k ->
              nth j (values_of out) zero = nth (nth j idx 0) s0 zero
              /\ (forall a a0, left_of out = Some a -> u0 = Some a0 ->
                  nth j (columns a) [] = nth (nth j idx 0) (columns a0) [])
              /\ (forall b b0, right_of out = Some b -> vh0 = Some b0 ->
                  row j b = row (nth j idx 0) b0)))
  /\ (ncols (sv_eigvec c) = length (sv_eigvals c) ->
      lower (dtype (sv_eigvec c)) = "f"%char
      \/ lower (dtype (sv_eigvec c)) = "d"%char ->
      keeps_columns (nrows (sv_eigvec c)) (sv_X_matmat c) ->
      exists out w2,
        svds A k ncv tol which v0 maxiter rsv solver w = (Ok out, w2)).
Proof.
  intros rsv w w1 c Hpre Hlen.
  pose proof (svds_eigenpairs_inv _ _ _ _ _ _ _ _ _ _ _ Hpre) as (_ & Hk & _).
  rewrite (svds_after_eigenpairs _ _ _ _ _ _ _ _ _ _ _ _ Hpre).
  assert (Hne : clamp (sv_eigvals c) <> []).
  { intros E. apply (f_equal (@length _)) in E. unfold clamp in E.
    rewrite length_map in E. simpl in E. lia. }
  split.
  - intros out w2 H. pose proof H as Hrun.
    apply svds_assemble_inv in H as (cutoff & Hc & H). cbv zeta in H.
    set (s0 := assemble_values (clamp (sv_eigvals c))
                 (above cutoff (clamp (sv_eigvals c)))) in *.
    assert (Ls0 : length s0 = Z.to_nat k).
    { unfold s0. rewrite assemble_values_length
        by (unfold above; now rewrite length_map).
      unfold clamp. rewrite length_map. lia. }
    assert (Ns0 : Forall nonneg s0) by apply assemble_values_nonneg.
    assert (Cs0 : Forall comparable s0)
      by (eapply Forall_impl; [|exact Ns0]; apply nonneg_comparable).
    destruct out as [s|u s vh]; cbn [values_of left_of right_of].
    + destruct H as (Hr & -> & _).
      pose proof (np_sort_permutation s0) as Ps.
      split; [rewrite (Permutation_length Ps); lia|].
      split; [eapply Permutation_Forall; [symmetry; exact Ps|exact Ns0]|].
      split; [apply np_sort_ascending; exact Cs0|].
      congruence.
    + destruct H as (Htr & Hs & _).
      set (idx := np_argsort s0) in *.
      apply (take_inv zero) in Hs as [Es Hin].
      pose proof (np_argsort_permutation s0) as Hperm. fold idx in Hperm.
      pose proof (gather_permutation s0 idx Hperm) as Pg.
      assert (Li : length idx = Z.to_nat k)
        by (rewrite (Permutation_length Hperm), length_seq; exact Ls0).
      split; [rewrite Es, length_map; lia|].
      split; [rewrite Es; eapply Permutation_Forall;
              [symmetry; exact Pg|exact Ns0]|].
      split; [rewrite Es; apply np_argsort_ascending; exact Cs0|].
      intros _.
      destruct (svds_assemble_trace k rsv c w1 w2 _ Hrun Htr)
        as (cutoff' & ul & vhl & wa & u0 & wb & vh0 & Hc' & Ht).
      rewrite Hc in Hc'. injection Hc' as <-. cbv zeta in Ht.
      fold s0 in Ht. fold idx in Ht. cbn [values_of] in Ht.
      destruct Ht as (Hrv & Hu & Hv & _ & Eout & Hrows).
      exists cutoff, ul, vhl, wa, u0, wb, vh0.
      split; [exact Hc|]. cbv zeta. fold s0. fold idx.
      split; [exact Hrv|]. split; [exact Hu|]. split; [exact Hv|].
      split; [now rewrite <- Ls0|].
      split; [rewrite Eout, Es; reflexivity|].
      injection Eout as Eu Ev.
      intros j Hj. split; [|split].
      * rewrite Es.
        transitivity (nth j (map (fun i => nth i s0 zero) idx)
                            ((fun i => nth i s0 zero) 0)).
        -- apply nth_indep. rewrite length_map. lia.
        -- pose proof (map_nth (fun i => nth i s0 zero) idx 0 j) as E.
           cbv beta in *. exact E.
      * intros a a0 Ha Ha0. subst u0. rewrite Eu in Ha. injection Ha as <-.
        apply permute_columns_nth. lia.
      * intros b b0 Hb Hb0. subst vh0. rewrite Ev in Hb. injection Hb as <-.
        apply permute_rows_row; [lia|].
        specialize (Hrows b0 eq_refl). rewrite Forall_forall in Hrows.
        apply Hrows, nth_In. lia.
  - intros Hcols Ht Hop.
    destruct (cutoff_of_ok (sv_eigvec c) _ Ht Hne) as (mx & _ & Hc).
    destruct (truthy rsv) eqn:Hr.
    + destruct (svds_assemble_vectors k rsv c _ w1 Hc Hr Hlen Hcols Hop
                  (np_argsort_permutation _))
        as (u0 & vh0 & w2 & H & _).
      eauto.
    + rewrite (svds_assemble_values k rsv c _ w1 Hc Hr). eauto.
Qed.

(** C5.  In a false output mode the call returns the sorted array of
    length [k] with the world exactly as the eigensolver left it: no
    operator is applied and nothing is drawn for singular vectors.  The
    array is the array of singular values that the same call returns in
    any mode with vectors. *)
Theorem svds_values_only_agrees {SL : SortingLaws} {GL : SignLaws} :
  forall (rsv0 : rsv_arg) (w w1 : world) (c : solved),
  svds_eigenpairs A k ncv tol which v0 maxiter solver w = (Ok c, w1) ->
  Z.of_nat (length (sv_eigvals c)) = k ->
  lower (dtype (sv_eigvec c)) = "f"%char
  \/ lower (dtype (sv_eigvec c)) = "d"%char ->
  truthy rsv0 = false ->
  exists s,
    svds A k ncv tol which v0 maxiter rsv0 solver w = (Ok (OutValues s), w1)
    /\ Z.of_nat (length s) = k
    /\ ascending s
    /\ forall rsv out w2,
       truthy rsv = true ->
       svds A k ncv tol which v0 maxiter rsv solver w = (Ok out, w2) ->
       s = values_of out.
Proof.
  intros rsv0 w w1 c Hpre Hlen Ht Hr0.
  pose proof (svds_eigenpairs_inv _ _ _ _ _ _ _ _ _ _ _ Hpre) as (_ & Hk & _).
  assert (Hne : clamp (sv_eigvals c) <> []).
  { intros E. apply (f_equal (@length _)) in E. unfold clamp in E.
    rewrite length_map in E. simpl in E. lia. }
  destruct (cutoff_of_ok (sv_eigvec c) _ Ht Hne) as (mx & _ & Hc).
  set (cutoff := mul _ mx) in Hc.
  set (s0 := assemble_values (clamp (sv_eigvals c))
               (above cutoff (clamp (sv_eigvals c)))).
  assert (Ls0 : length s0 = Z.to_nat k).
  { unfold s0. rewrite assemble_values_length
      by (unfold above; now rewrite length_map).
    unfold clamp. rewrite length_map. lia. }
  assert (Ns0 : Forall nonneg s0) by apply assemble_values_nonneg.
  assert (Cs0 : Forall comparable s0)
    by (eapply Forall_impl; [|exact Ns0]; apply nonneg_comparable).
  assert (Ps0 : Forall proper s0)
    by (eapply assemble_values_proper; exact Hc).
  pose proof (np_sort_permutation s0) as Ps.
  exists (np_sort s0).
  split.
  { rewrite (svds_after_eigenpairs _ _ _ _ _ _ _ _ _ _ _ _ Hpre).
    now rewrite (svds_assemble_values k rsv0 c cutoff w1 Hc Hr0). }
  split; [rewrite (Permutation_length Ps); lia|].
  split; [apply np_sort_ascending; exact Cs0|].
  intros rsv out w2 Hr H.
  rewrite (svds_after_eigenpairs _ _ _ _ _ _ _ _ _ _ _ _ Hpre) in H.
  apply svds_assemble_inv in H as (cutoff' & Hc' & H).
  rewrite Hc in Hc'. injection Hc' as <-. cbv zeta in H. fold s0 in H.
  destruct out as [s|u s vh]; [destruct H; congruence|].
  destruct H as (_ & Hs & _). cbn [values_of].
  apply (take_inv zero) in Hs as [-> Hin].
  pose proof (np_argsort_permutation s0) as Hperm.
  pose proof (gather_permutation s0 _ Hperm) as Pg.
  apply same_proper_numbers.
  - eapply Permutation_Forall; [symmetry; exact Ps|exact Ps0].
  - eapply Permutation_Forall; [symmetry; exact Pg|exact Ps0].
  - apply ascending_permutations_agree with (l := s0); auto.
    + apply np_sort_ascending; exact Cs0.
    + apply np_argsort_ascending; exact Cs0.
Qed.

End ValueClaims.

(** ** The Gram operator, the validation and the element type *)

Section OperatorClaims.

Context {S : Scalar} {R : Random} {Sv : Solvers} {So : Sorting}.

(** C3.  For an operand of shape [(n, m)], whenever lines 149-181 build
    the operator [XH_X]: it has shape [(min n m, min n m)]; its [matvec]
    is [XH_dot(X_dot(x))] and its [matmat] is [XH_mat(X_matmat(x))], where
    for a [LinearOperator] the forward callables [matvec], [matmat] stand
    for [X] and the adjoint ones [rmatvec], [rmatmat] for [X^H] if
    [n > m], and the other way round otherwise; and where for a plain
    matrix [a] the adjoint is the product with an explicit array of shape
    [(m, n)] whose entry [(j, i)] is the conjugate of entry [(i, j)] of
    [a].  The operator comes about without a matrix product: for an
    operand that exposes a dtype nothing at all is applied, the only
    calls being [_herm] and the constructor; otherwise the operand is
    tried on a vector of zeros, by the probe of line 163 and by the
    constructor; and changing the callables [matmat] and [rmatmat] of a
    [LinearOperator] changes nothing in how the operator comes about. *)
Theorem svds_gram_operator_roles :
  forall (A : operand) (n m : nat) (w : world),
  operand_shape A = (n, m) ->
  (forall p g w1 w2,
     select_primitives A n m w = (Ok p, w1) ->
     gram_operator A p n m w1 = (Ok g, w2) ->
     g_shape g = (Nat.min n m, Nat.min n m)
     /\ applies (g_matvec g) (g_matmat g)
                (X_dot p) (XH_dot p) (X_matmat p) (XH_mat p)
     /\ match A with
        | OpLinear L =>
            if (m <? n)%nat
            then applies (g_matvec g) (g_matmat g)
                         (matvec L) (rmatvec L) (matmat L) (rmatmat L)
            else applies (g_matvec g) (g_matmat g)
                         (rmatvec L) (matvec L) (rmatmat L) (matmat L)
        | OpSparse a | OpArrayLike a =>
            exists h,
              conjugate_transpose_of a h /\ shape h = (m, n)
              /\ if (m <? n)%nat
                 then applies (g_matvec g) (g_matmat g)
                              (dot_vector a) (dot_vector h)
                              (dot_matrix a) (dot_matrix h)
                 else applies (g_matvec g) (g_matmat g)
                              (dot_vector h) (dot_vector a)
                              (dot_matrix h) (dot_matrix a)
        end
     /\ rng w2 = rng w
     /\ only (fun e => e = EvHerm \/ e = EvProbe \/ e = EvGram
                       \/ e = EvInitDtype) w w2)
  /\ (forall d, exposes_dtype A d ->
      exists g w2,
        construct A n m w = (Ok g, w2)
        /\ g_dtype g = Some d
        /\ only (fun e => e = EvHerm \/ e = EvGram) w w2)
  /\ (forall L L',
      lo_dtype L' = lo_dtype L ->
      matvec L' = matvec L -> rmatvec L' = rmatvec L ->
      match construct (OpLinear L) n m w, construct (OpLinear L') n m w with
      | (Ok g, w2), (Ok g', w2') =>
          w2' = w2 /\ g_matvec g' = g_matvec g /\ g_dtype g' = g_dtype g
          /\ g_shape g' = g_shape g
      | (Err e, w2), (Err e', w2') => e' = e /\ w2' = w2
      | _, _ => False
      end).
Proof.
  intros A n m w Hshape. split; [|split].
  - intros p g w1 w2 Hs Hg.
    apply select_primitives_inv in Hs as (Hr & Hrng & O1).
    apply gram_operator_inv in Hg as (Eg & Hrng2 & Hlog).
    assert (Hap : applies (g_matvec g) (g_matmat g)
                    (X_dot p) (XH_dot p) (X_matmat p) (XH_mat p)).
    { rewrite Eg. cbn [g_matvec g_matmat]. split; intros x; reflexivity. }
    split; [rewrite Eg; reflexivity|]. split; [exact Hap|].
    split; [|split; [congruence|]].
    + destruct A as [L|a|a]; cbn [roles] in Hr.
      * destruct (m <? n)%nat; destruct Hr as (E1 & E2 & E3 & E4);
          rewrite E1, E2, E3, E4 in Hap; exact Hap.
      * exists (_herm a). split; [apply herm_conjugate_transpose_of|].
        split.
        { cbn [operand_shape] in Hshape. unfold shape in *.
          injection Hshape as <- <-. now rewrite herm_nrows, herm_ncols. }
        destruct (m <? n)%nat; destruct Hr as (E1 & E2 & E3 & E4);
          rewrite E1, E2, E3, E4 in Hap; exact Hap.
      * exists (_herm a). split; [apply herm_conjugate_transpose_of|].
        split.
        { cbn [operand_shape] in Hshape. unfold shape in *.
          injection Hshape as <- <-. now rewrite herm_nrows, herm_ncols. }
        destruct (m <? n)%nat; destruct Hr as (E1 & E2 & E3 & E4);
          rewrite E1, E2, E3, E4 in Hap; exact Hap.
    + eapply only_trans.
      * eapply only_weaken; [|exact O1]. intros e; cbv beta; tauto.
      * destruct Hlog as [(d & _ & _ & L) | (_ & r & _ & _ & _ & L)].
        -- exists [EvGram]. split; [exact L|]. constructor; [tauto|constructor].
        -- exists [EvGram; EvInitDtype]. split; [exact L|].
           constructor; [tauto|]. constructor; [tauto|constructor].
  - intros d Hd. unfold construct.
    destruct (select_primitives_exposed A n m d w Hd) as (p & w1 & Hs & _ & O1).
    bind_with Hs. rewrite (gram_operator_exposed A p n m d w1 Hd).
    do 2 eexists. split; [reflexivity|]. split; [reflexivity|].
    eapply only_trans.
    + eapply only_weaken; [|exact O1]. intros e; cbv beta; tauto.
    + exists [EvGram]. cbn. auto.
  - intros L L' Hd Hv Hr.
    unfold construct, select_primitives, gram_operator, operand_dtype.
    rewrite Hd. unfold bind, lift, tick, ret, raise, matvec_XH_X.
    cbn [X_dot XH_dot rng log]. rewrite Hv, Hr.
    destruct (m <? n)%nat.
    + destruct (lo_dtype L) as [[d|]|]; cbn [rng log X_dot XH_dot].
      * auto.
      * destruct (matvec L (zeros_vector (Nat.min n m))) as [y|e]; [|auto].
        destruct (rmatvec L y) as [r|e]; [|auto].
        destruct (length (vdata r) =? Nat.min n m)%nat; auto.
      * auto.
    + destruct (lo_dtype L) as [[d|]|]; cbn [rng log X_dot XH_dot].
      * auto.
      * destruct (matvec L (zeros_column m)) as [r0|e]; [|auto].
        cbn [rng log X_dot XH_dot].
        destruct (rmatvec L (zeros_vector (Nat.min n m))) as [y|e]; [|auto].
        destruct (matvec L y) as [r|e]; [|auto].
        destruct (length (vdata r) =? Nat.min n m)%nat; auto.
      * destruct (matvec L (zeros_column m)) as [r0|e]; auto.
Qed.

Variables (A : operand) (k : Z) (ncv : option Z) (tol : scalar)
          (which : string) (v0 : option vector) (maxiter : option Z)
          (rsv : rsv_arg) (solver : option string).


(** C9 fails on the code.  For a [LinearOperator] without a [dtype]
    attribute and valid [which] and [k]: with more rows than columns
    nothing is probed and [dtype=A.dtype] raises; otherwise the probe is
    made, its result is dropped, and [dtype=A.dtype] raises all the same. *)
Theorem svds_dtype_not_resolved :
  forall (L : LinearOperator) (w : world) (n m : nat),
  A = OpLinear L ->
  lo_dtype L = None ->
  lo_shape L = (n, m) ->
  which = "LM"%string \/ which = "SM"%string ->
  (0 < k < Z.of_nat (Nat.min n m))%Z ->
  (m < n ->
   svds A k ncv tol which v0 maxiter rsv solver w
   = (Err AttributeError_dtype, w))
  /\ (n <= m ->
      forall r, matvec L (zeros_column m) = Ok r ->
      svds A k ncv tol which v0 maxiter rsv solver w
      = (Err AttributeError_dtype,
         {| rng := rng w; log := log w ++ [EvProbe] |})).
Proof.
  intros L w n m -> Hd Hs Hw Hk.
  pose proof (svds_eigenpairs_valid (OpLinear L) k ncv tol which v0 maxiter
                solver w n m Hw Hs Hk) as E.
  cbn [after_asarray] in E.
  unfold select_primitives, gram_operator, operand_dtype in E.
  rewrite Hd in E. split.
  - intros Hlt. apply Nat.ltb_lt in Hlt.
    unfold svds. unfold bind at 1. rewrite E.
    unfold bind. destruct (m <? n)%nat; [reflexivity|discriminate].
  - intros Hle r Hr. apply Nat.ltb_ge in Hle.
    unfold svds. unfold bind at 1. rewrite E.
    unfold bind, tick, lift, ret.
    destruct (m <? n)%nat; [discriminate|]. rewrite Hr. reflexivity.
Qed.

End OperatorClaims.

(** ** Randomness *)

Section RandomClaims.

Context {S : Scalar} {R : Random} {Sv : Solvers} {So : Sorting}.

Variables (A : operand) (k : Z) (ncv : option Z) (tol : scalar)
          (which : string) (v0 : option vector) (maxiter : option Z)
          (rsv : rsv_arg) (solver : option string).


End RandomClaims.

(** ** The augmentation *)

Section AugmentClaims.

Context {S : Scalar} {R : Random}.

(** Each appended column is the sample of its turn, less its projections
    onto all the columns before it, divided by its norm. *)
Lemma augment_loop_columns (n : nat) (cplx : bool) (k : nat) :
  forall (y : list (list scalar)) (w : world),
  exists added vs w',
    augment_loop n cplx k y w = (Ok (y ++ added), w')
    /\ length added = k /\ length vs = k
    /\ forall i, i < k ->
       nth i added []
       = normalize (fold_left subtract_projection
                              (y ++ firstn i added) (nth i vs [])).
Proof.
  induction k as [|k IH]; intros y w.
  - exists [], [], w. rewrite app_nil_r. cbn. repeat split; auto. lia.
  - cbn [augment_loop].
    destruct (sample_ok n cplx w) as (v & w1 & Hs & _).
    destruct (IH (y ++ [normalize (fold_left subtract_projection y v)]) w1)
      as (added & vs & w2 & Hl & La & Lv & Hcols).
    exists (normalize (fold_left subtract_projection y v) :: added),
           (v :: vs), w2.
    unfold bind. rewrite Hs, Hl, <- app_assoc. cbn [app length].
    repeat split; auto.
    intros [|i] Hi; cbn [nth firstn].
    + now rewrite app_nil_r.
    + rewrite (Hcols i) by lia. now rewrite <- app_assoc.
Qed.


End AugmentClaims.
(** ** Further properties of the helpers *)

Section HermFacts.

Context {S : Scalar}.

(** [_herm(x)] is the conjugate transpose: the shape is turned round, the
    dtype is kept, and entry [(i, j)] is the conjugate of entry [(j, i)]
    of [x]. *)
Theorem herm_conjugate_transpose (x : ndarray) :
  shape (_herm x) = (ncols x, nrows x)
  /\ dtype (_herm x) = dtype x
  /\ well_shaped (_herm x)
  /\ forall i j, i < nrows x -> j < ncols x ->
     nth j (nth i (columns (_herm x)) []) zero
     = conj (nth i (nth j (columns x) []) zero).
Proof.
  split; [|split; [|split]].
  - unfold shape. now rewrite herm_nrows, herm_ncols.
  - reflexivity.
  - apply herm_well_shaped.
  - intros i j Hi Hj. unfold _herm, conj_array, transpose, vconj.
    cbn [columns]. rewrite map_map, nth_map_seq by exact Hi.
    rewrite map_map. unfold ncols in Hj.
    now rewrite (nth_map_default _ _ [] zero j Hj).
Qed.

(** Applied twice, [_herm] gives the array back, the conjugation being
    an involution. *)
Theorem herm_involution (x : ndarray) :
  well_shaped x -> (forall a, conj (conj a) = a) ->
  _herm (_herm x) = x.
Proof.
  intros Hx Hc. destruct x as [t n cols].
  unfold well_shaped in Hx. cbn [columns nrows] in Hx.
  unfold _herm, conj_array, transpose, ncols, vconj. cbn [dtype nrows columns].
  f_equal.
  - now rewrite !length_map, length_seq.
  - rewrite !map_map.
    apply (nth_ext _ _ [] []).
    + now rewrite length_map, length_seq.
    + intros j Hj. rewrite length_map, length_seq in Hj.
      rewrite nth_map_seq by exact Hj.
      rewrite !map_map.
      assert (L : length (nth j cols []) = n).
      { rewrite Forall_forall in Hx. apply Hx, nth_In, Hj. }
      transitivity (map (fun i => nth i (nth j cols []) zero)
                        (seq 0 (length (nth j cols []))));
        [|apply map_nth_all].
      rewrite L. apply map_ext_in. intros i Hi. apply in_seq in Hi.
      rewrite map_map, (nth_map_default _ _ [] zero j Hj), Hc. reflexivity.
Qed.

End HermFacts.

Section DrawFacts.

Context {S : Scalar} {R : Random}.

Lemma sample_log (n : nat) (cplx : bool) (w : world) :
  exists v w',
    sample n cplx w = (Ok v, w')
    /\ log w' = log w ++ repeat (EvRandn n) (if cplx then 2 else 1).
Proof.
  unfold sample, bind, np_random_randn, ret.
  destruct (randn (rng w) n) as [v g] eqn:E1. destruct cplx.
  - cbn [rng log]. destruct (randn g n) as [v' g'] eqn:E2.
    do 2 eexists. split; [reflexivity|]. cbn [log repeat].
    now rewrite <- app_assoc.
  - do 2 eexists. split; [reflexivity|]. reflexivity.
Qed.

Lemma augment_loop_log (n : nat) (cplx : bool) (k : nat) :
  forall (y : list (list scalar)) (w : world),
  exists y' w',
    augment_loop n cplx k y w = (Ok y', w')
    /\ log w' = log w ++ repeat (EvRandn n) (k * (if cplx then 2 else 1)).
Proof.
  induction k as [|k IH]; intros y w.
  - exists y, w. cbn. now rewrite app_nil_r.
  - cbn [augment_loop].
    destruct (sample_log n cplx w) as (v & w1 & Hs & L1).
    destruct (IH (y ++ [normalize (fold_left subtract_projection y v)]) w1)
      as (y' & w2 & Hl & L2).
    exists y', w2. unfold bind. rewrite Hs, Hl. split; [reflexivity|].
    rewrite L2, L1, <- app_assoc, <- repeat_app. f_equal.
Qed.

(** For a count [c >= 0] the augmentation calls [np.random.randn(n)]
    once for each appended column, twice when the array is complex, and
    nothing else; with [c = 0] it returns the array as it is and leaves
    the world alone.  The augmentation of rows draws vectors as long as a
    row. *)
Theorem augmented_cols_draws (x : ndarray) (c : nat) (w : world) :
  let draws := c * (if iscomplexobj x then 2 else 1) in
  (exists y w',
     _augmented_orthonormal_cols x (Z.of_nat c) w = (Ok y, w')
     /\ log w' = log w ++ repeat (EvRandn (nrows x)) draws
     /\ (c = 0 -> y = x /\ w' = w))
  /\ (exists y w',
        _augmented_orthonormal_rows x (Z.of_nat c) w = (Ok y, w')
        /\ log w' = log w ++ repeat (EvRandn (ncols x)) draws).
Proof.
  cbv zeta.
  assert (E : (Z.of_nat c <? 0)%Z = false) by (apply Z.ltb_ge; lia).
  split.
  - unfold _augmented_orthonormal_cols. rewrite E, Nat2Z.id.
    destruct (augment_loop_log (nrows x) (iscomplexobj x) c (columns x) w)
      as (y & w' & Hl & L).
    do 2 eexists. unfold bind, ret. rewrite Hl.
    split; [reflexivity|]. split; [exact L|].
    intros ->. cbn in Hl. unfold ret in Hl. injection Hl as <- <-.
    destruct x; auto.
  - unfold _augmented_orthonormal_rows, _augmented_orthonormal_cols.
    rewrite E, Nat2Z.id.
    destruct (augment_loop_log (nrows (transpose x)) (iscomplexobj (transpose x))
                c (columns (transpose x)) w) as (y & w' & Hl & L).
    do 2 eexists. unfold bind, ret. rewrite Hl.
    split; [reflexivity|]. exact L.
Qed.

End DrawFacts.
(** ** Further properties of [svds] *)

Section SvdsArguments.

Context {S : Scalar} {R : Random} {Sv : Solvers} {So : Sorting}.

Variables (A : operand) (k : Z) (ncv : option Z) (tol : scalar)
          (which : string) (v0 : option vector) (maxiter : option Z).

(** Lines 134-200 depend on [ncv], [v0] and the solver name through the
    dispatch alone. *)
Lemma svds_eigenpairs_dispatch_ext (ncv' : option Z) (v0' : option vector)
    (solver solver' : option string) (w : world) :
  (forall g n m largest w0,
     dispatch g n m k ncv tol which largest v0 maxiter solver w0
     = dispatch g n m k ncv' tol which largest v0' maxiter solver' w0) ->
  svds_eigenpairs A k ncv tol which v0 maxiter solver w
  = svds_eigenpairs A k ncv' tol which v0' maxiter solver' w.
Proof.
  intros H. unfold svds_eigenpairs, bind.
  destruct ((if (which =? "LM")%string then ret true
             else if (which =? "SM")%string then ret false
             else raise ValueError_which) w) as [[largest|e] w0];
    [|reflexivity].
  destruct (match A with OpArrayLike _ => tick EvAsarray | _ => ret tt end w0)
    as [[u|e] w1]; [|reflexivity].
  destruct (operand_shape A) as [n m].
  destruct ((k <=? 0)%Z || (k >=? Z.of_nat (Nat.min n m))%Z); [reflexivity|].
  destruct (select_primitives A n m w1) as [[p|e] w2]; [|reflexivity].
  destruct (gram_operator A p n m w2) as [[g|e] w3]; [|reflexivity].
  rewrite H. reflexivity.
Qed.

(** A matrix with a single row or a single column, or with none, is
    refused for every [k]: the count must be at least 1 and below
    [min(n, m)]. *)
Theorem svds_degenerate_shape_refused :
  forall (rsv : rsv_arg) (solver : option string) (w : world) (n m : nat),
  operand_shape A = (n, m) ->
  which = "LM"%string \/ which = "SM"%string ->
  Nat.min n m <= 1 ->
  svds A k ncv tol which v0 maxiter rsv solver w
  = (Err (ValueError_k k), after_asarray A w).
Proof.
  intros rsv solver w n m Hs Hw Hmin.
  unfold svds, svds_eigenpairs. rewrite Hs.
  assert (E : ((k <=? 0)%Z || (k >=? Z.of_nat (Nat.min n m))%Z) = true).
  { apply orb_true_iff. rewrite Z.geb_leb, !Z.leb_le. lia. }
  destruct Hw as [-> | ->]; cbn [String.eqb Ascii.eqb Bool.eqb];
    unfold bind, ret, raise; destruct A; cbn [after_asarray tick];
    rewrite E; reflexivity.
Qed.

(** With the solver ['lobpcg'] the argument [ncv] is never read, and
    [v0] is read only when [k = 1]. *)
Theorem svds_lobpcg_ignores_ncv_v0 :
  forall (ncv' : option Z) (v0' : option vector) (rsv : rsv_arg) (w : world),
  (k = 1%Z -> v0' = v0) ->
  svds A k ncv tol which v0 maxiter rsv (Some "lobpcg"%string) w
  = svds A k ncv' tol which v0' maxiter rsv (Some "lobpcg"%string) w.
Proof.
  intros ncv' v0' rsv w Hv. unfold svds, bind at 1.
  rewrite (svds_eigenpairs_dispatch_ext ncv' v0' (Some "lobpcg"%string)
             (Some "lobpcg"%string)).
  - reflexivity.
  - intros g n m largest w0. unfold dispatch.
    cbn [String.eqb Ascii.eqb Bool.eqb].
    destruct (k =? 1)%Z eqn:E.
    + apply Z.eqb_eq in E. rewrite (Hv E). reflexivity.
    + reflexivity.
Qed.

End SvdsArguments.

Section OutputModes.

Context {S : Scalar} {R : Random} {Sv : Solvers} {So : Sorting}.

(** Lines 219-240 read the output mode through its truth value and the
    two comparisons with ['vh'] and ['u']. *)
Lemma svds_assemble_mode_ext (k : Z) (r r' : rsv_arg) (c : solved) (w : world) :
  truthy r = truthy r' ->
  rsv_differs r "vh" = rsv_differs r' "vh" ->
  rsv_differs r "u" = rsv_differs r' "u" ->
  svds_assemble k r c w = svds_assemble k r' c w.
Proof.
  intros Ht Hv Hu. unfold svds_assemble, reliable_vectors.
  rewrite Ht, Hv, Hu. reflexivity.
Qed.

Variables (A : operand) (k : Z) (ncv : option Z) (tol : scalar)
          (which : string) (v0 : option vector) (maxiter : option Z)
          (solver : option string).

(** A string other than ["u"] and ["vh"] as output mode: the empty string
    counts as [False], every other one as [True], whatever it says. *)
Theorem svds_other_strings :
  forall (s : string) (w : world),
  s <> "u"%string -> s <> "vh"%string ->
  svds A k ncv tol which v0 maxiter (RsvStr s) solver w
  = svds A k ncv tol which v0 maxiter
         (RsvBool (negb (s =? "")%string)) solver w.
Proof.
  intros s w Hu Hv. rewrite !svds_unfold.
  destruct (svds_eigenpairs A k ncv tol which v0 maxiter solver w)
    as [[c|e] w1]; [|reflexivity].
  apply String.eqb_neq in Hu, Hv.
  apply svds_assemble_mode_ext; cbn [truthy rsv_differs].
  - reflexivity.
  - now rewrite Hv.
  - now rewrite Hu.
Qed.

End OutputModes.

Section AssembleShapes.

Context {S : Scalar} {R : Random} {Sv : Solvers} {So : Sorting}.

Lemma augmented_rows_shape (x : ndarray) (k : Z) (w : world) :
  (0 <= k)%Z ->
  exists y w',
    _augmented_orthonormal_rows x k w = (Ok y, w')
    /\ nrows y = nrows x + Z.to_nat k /\ ncols y = ncols x
    /\ only is_randn w w'.
Proof.
  intros Hk.
  destruct (augmented_cols_ok (transpose x) k w Hk) as (added & w' & H & L & O).
  unfold _augmented_orthonormal_rows. bind_with H.
  do 2 eexists. split; [reflexivity|].
  rewrite transpose_nrows, transpose_ncols. unfold ncols at 1.
  cbn [columns nrows]. rewrite length_app, L.
  fold (ncols (transpose x)). rewrite transpose_ncols, transpose_nrows. auto.
Qed.

Lemma permute_columns_shape (idx : list nat) (a : ndarray) :
  shape (permute_columns idx a) = (nrows a, length idx).
Proof. unfold shape, ncols, permute_columns. cbn. now rewrite length_map. Qed.

Lemma permute_rows_shape (idx : list nat) (a : ndarray) :
  shape (permute_rows idx a) = (length idx, ncols a).
Proof.
  unfold permute_rows, shape. rewrite transpose_nrows, transpose_ncols.
  unfold ncols at 1, permute_columns. cbn [columns nrows].
  now rewrite length_map, transpose_nrows.
Qed.

(** Lines 230-240 once the reliable vectors are there. *)
Lemma assemble_after_reliable {SL : SortingLaws} (k : Z) (rsv : rsv_arg)
    (c : solved) (cutoff : scalar) (w w1 : world) (ul vhl : option ndarray) :
  let eigvals := clamp (sv_eigvals c) in
  let mask := above cutoff eigvals in
  let s0 := assemble_values eigvals mask in
  let idx := np_argsort s0 in
  cutoff_of (sv_eigvec c) eigvals = Ok cutoff ->
  truthy rsv = true ->
  Z.of_nat (length (sv_eigvals c)) = k ->
  reliable_vectors c mask (map sqrt (compress mask eigvals)) rsv w
  = (Ok (ul, vhl), w1) ->
  (forall a, ul = Some a -> ncols a = count_true mask) ->
  (forall a, vhl = Some a -> nrows a = count_true mask) ->
  exists u0 vh0 w',
    svds_assemble k rsv c w
    = (Ok (OutTriple (option_map (permute_columns idx) u0)
                     (map (fun i => nth i s0 zero) idx)
                     (option_map (permute_rows idx) vh0)), w')
    /\ length idx = Z.to_nat k
    /\ (forall a, u0 = Some a -> exists b, ul = Some b /\ nrows a = nrows b)
    /\ (forall a, vh0 = Some a -> exists b, vhl = Some b /\ ncols a = ncols b)
    /\ (u0 = None <-> ul = None) /\ (vh0 = None <-> vhl = None)
    /\ only is_randn w1 w'.
Proof.
  intros eigvals mask s0 idx Hc Ht Hlen Hrv Nul Nvhl.
  assert (Le : length eigvals = length (sv_eigvals c))
    by (unfold eigvals, clamp; now rewrite length_map).
  assert (Lm : length mask = length eigvals)
    by (unfold mask, above; now rewrite length_map).
  assert (Ls0 : length s0 = length eigvals)
    by (now apply assemble_values_length).
  pose proof (count_true_le mask) as Hle.
  assert (Hns : (0 <= k - Z.of_nat (count_true mask))%Z) by lia.
  pose proof (np_argsort_permutation s0) as Hperm. fold idx in Hperm.
  assert (Hin : Forall (fun i => i < length s0) idx)
    by (now apply permutation_indices_in_range).
  assert (Li : length idx = Z.to_nat k).
  { rewrite (Permutation_length Hperm), length_seq. lia. }
  set (nsmall := (k - Z.of_nat (count_true mask))%Z) in *.
  assert (Hu : exists u0 w2,
             if_not_None _augmented_orthonormal_cols ul nsmall w1 = (Ok u0, w2)
             /\ (forall a, u0 = Some a ->
                 exists b, ul = Some b /\ nrows a = nrows b
                           /\ ncols a = length s0)
             /\ (u0 = None <-> ul = None) /\ only is_randn w1 w2).
  { destruct ul as [b|]; cbn [if_not_None].
    - destruct (augmented_cols_ok b nsmall w1 Hns) as (added & w2 & H & La & O).
      do 2 eexists. bind_with H. split; [reflexivity|].
      split; [|split; [split; discriminate|exact O]].
      intros a [= <-]. exists b. split; [reflexivity|]. split; [reflexivity|].
      unfold ncols. cbn [columns]. rewrite length_app, La.
      fold (ncols b). rewrite (Nul b eq_refl). unfold nsmall. lia.
    - exists None, w1. split; [reflexivity|].
      split; [discriminate|]. split; [tauto|apply only_refl]. }
  destruct Hu as (u0 & w2 & Hu & Cu & Eu & O2).
  assert (Hv : exists vh0 w3,
             if_not_None _augmented_orthonormal_rows vhl nsmall w2 = (Ok vh0, w3)
             /\ (forall a, vh0 = Some a ->
                 exists b, vhl = Some b /\ ncols a = ncols b
                           /\ nrows a = length s0)
             /\ (vh0 = None <-> vhl = None) /\ only is_randn w2 w3).
  { destruct vhl as [b|]; cbn [if_not_None].
    - destruct (augmented_rows_shape b nsmall w2 Hns) as (y & w3 & H & Ny & Cy & O).
      do 2 eexists. bind_with H. split; [reflexivity|].
      split; [|split; [split; discriminate|exact O]].
      intros a [= <-]. exists b. split; [reflexivity|]. split; [exact Cy|].
      rewrite Ny, (Nvhl b eq_refl). unfold nsmall. lia.
    - exists None, w2. split; [reflexivity|].
      split; [discriminate|]. split; [tauto|apply only_refl]. }
  destruct Hv as (vh0 & w3 & Hv & Cv & Ev & O3).
  exists u0, vh0, w3.
  split.
  { unfold svds_assemble. fold eigvals.
    unfold bind at 1, lift at 1. rewrite Hc. fold mask. rewrite Ht.
    cbn [negb]. cbv iota.
    bind_with Hrv. cbn [fst snd]. fold nsmall. bind_with Hu. bind_with Hv.
    fold s0. fold idx.
    unfold bind at 1, lift at 1. rewrite take_ok with (d := zero) by exact Hin.
    unfold bind at 1.
    rewrite sort_columns_side with (n := length s0);
      [|exact Hin|intros a Ha; destruct (Cu a Ha) as (b & _ & _ & E); exact E].
    unfold bind at 1.
    rewrite sort_rows_side with (n := length s0);
      [|exact Hin|intros a Ha; destruct (Cv a Ha) as (b & _ & _ & E); exact E].
    reflexivity. }
  split; [exact Li|].
  split. { intros a Ha. destruct (Cu a Ha) as (b & Hb & E & _). eauto. }
  split. { intros a Ha. destruct (Cv a Ha) as (b & Hb & E & _). eauto. }
  split; [exact Eu|]. split; [exact Ev|].
  eapply only_trans; eassumption.
Qed.

(** The side that is not asked for costs nothing: the reliable vectors
    of the other side are columns of the eigenvectors. *)
Lemma reliable_vectors_skipped (c : solved) (mask : list bool)
    (slarge : list scalar) (rsv : rsv_arg) (w : world) :
  length mask = ncols (sv_eigvec c) ->
  (sv_m c < sv_n c /\ rsv = RsvStr "vh")
  \/ (sv_n c <= sv_m c /\ rsv = RsvStr "u") ->
  exists ul vhl,
    reliable_vectors c mask slarge rsv w = (Ok (ul, vhl), w)
    /\ (forall a, ul = Some a -> ncols a = count_true mask)
    /\ (forall a, vhl = Some a -> nrows a = count_true mask).
Proof.
  intros Hm Hskip. unfold reliable_vectors.
  destruct (mask_columns_ok (sv_eigvec c) mask Hm) as (y & Hy & Ny & _).
  destruct Hskip as [[Hlt ->] | [Hle ->]].
  - apply Nat.ltb_lt in Hlt. rewrite Hlt. cbn [rsv_differs String.eqb Ascii.eqb Bool.eqb negb].
    do 2 eexists. unfold bind, lift, ret. rewrite Hy.
    split; [reflexivity|]. split; [discriminate|].
    intros a [= <-]. now rewrite herm_nrows.
  - apply Nat.ltb_ge in Hle. rewrite Hle. cbn [rsv_differs String.eqb Ascii.eqb Bool.eqb negb].
    do 2 eexists. unfold bind, lift, ret. rewrite Hy.
    split; [reflexivity|]. split; [|discriminate].
    intros a [= <-]. exact Ny.
Qed.

Variables (A : operand) (k : Z) (ncv : option Z) (tol : scalar)
          (which : string) (v0 : option vector) (maxiter : option Z)
          (solver : option string).

(** In mode ["vh"] with more rows than columns, and in mode ["u"]
    otherwise, the operator is not applied after the eigensolver has
    returned: the call returns whatever the operator would do, and all
    that is left in the log are draws for the padding. *)
Theorem svds_skipped_side_no_apply {SL : SortingLaws} :
  forall (rsv : rsv_arg) (w w1 : world) (c : solved),
  svds_eigenpairs A k ncv tol which v0 maxiter solver w = (Ok c, w1) ->
  Z.of_nat (length (sv_eigvals c)) = k ->
  ncols (sv_eigvec c) = length (sv_eigvals c) ->
  lower (dtype (sv_eigvec c)) = "f"%char
  \/ lower (dtype (sv_eigvec c)) = "d"%char ->
  let n := fst (operand_shape A) in
  let m := snd (operand_shape A) in
  (m < n /\ rsv = RsvStr "vh") \/ (n <= m /\ rsv = RsvStr "u") ->
  exists out w2,
    svds A k ncv tol which v0 maxiter rsv solver w = (Ok out, w2)
    /\ only is_randn w1 w2.
Proof.
  intros rsv w w1 c Hpre Hlen Hcols Ht n m Hskip.
  pose proof (svds_eigenpairs_inv _ _ _ _ _ _ _ _ _ _ _ Hpre) as (_ & Hk & Hs).
  assert (Hskip' : (sv_m c < sv_n c /\ rsv = RsvStr "vh")
                   \/ (sv_n c <= sv_m c /\ rsv = RsvStr "u")).
  { unfold n, m in Hskip. rewrite <- Hs in Hskip. exact Hskip. }
  assert (Htr : truthy rsv = true)
    by (destruct Hskip' as [[_ ->] | [_ ->]]; reflexivity).
  assert (Hne : clamp (sv_eigvals c) <> []).
  { intros E. apply (f_equal (@length _)) in E. unfold clamp in E.
    rewrite length_map in E. simpl in E. lia. }
  destruct (cutoff_of_ok (sv_eigvec c) _ Ht Hne) as (mx & _ & Hc).
  set (cutoff := mul _ mx) in Hc.
  set (mask := above cutoff (clamp (sv_eigvals c))).
  assert (Lm : length mask = ncols (sv_eigvec c)).
  { unfold mask, above, clamp. now rewrite !length_map. }
  destruct (reliable_vectors_skipped c mask
              (map sqrt (compress mask (clamp (sv_eigvals c)))) rsv w1 Lm Hskip')
    as (ul & vhl & Hrv & Nul & Nvhl).
  destruct (assemble_after_reliable k rsv c cutoff w1 w1 ul vhl
              Hc Htr Hlen Hrv Nul Nvhl)
    as (u0 & vh0 & w2 & H & _ & _ & _ & _ & _ & O).
  do 2 eexists.
  rewrite (svds_after_eigenpairs _ _ _ _ _ _ _ _ _ _ _ _ Hpre).
  split; [exact H|exact O].
Qed.

End AssembleShapes.

Section PlainMatrix.

Context {S : Scalar} {R : Random} {Sv : Solvers} {So : Sorting}.

Variables (A : operand) (k : Z) (ncv : option Z) (tol : scalar)
          (which : string) (v0 : option vector) (maxiter : option Z)
          (solver : option string).

(** For a plain matrix [a], what the rest of the function applies is
    [a.dot] with more rows than columns and [_herm(a).dot] otherwise. *)
Lemma svds_eigenpairs_plain (a : ndarray) (w w1 : world) (c : solved) :
  A = OpSparse a \/ A = OpArrayLike a ->
  svds_eigenpairs A k ncv tol which v0 maxiter solver w = (Ok c, w1) ->
  sv_n c = nrows a /\ sv_m c = ncols a
  /\ sv_X_matmat c = if (ncols a <? nrows a)%nat then dot_matrix a
                     else dot_matrix (_herm a).
Proof.
  intros HA Hpre.
  pose proof (svds_eigenpairs_inv _ _ _ _ _ _ _ _ _ _ _ Hpre) as (Hw & Hk & Hs).
  assert (Hshape : operand_shape A = (nrows a, ncols a))
    by (destruct HA as [-> | ->]; reflexivity).
  rewrite Hshape in Hs. injection Hs as Hn Hm. rewrite Hn, Hm in Hk.
  rewrite (svds_eigenpairs_valid A k ncv tol which v0 maxiter solver w
             (nrows a) (ncols a) Hw Hshape Hk) in Hpre.
  apply bind_inv in Hpre as (p & w2 & Hp & Hpre).
  apply bind_inv in Hpre as (g & w3 & Hg & Hpre).
  apply bind_inv in Hpre as (ev & w4 & He & Hpre).
  unfold ret in Hpre. injection Hpre as <- _.
  cbn [sv_n sv_m sv_X_matmat].
  split; [reflexivity|]. split; [reflexivity|].
  apply select_primitives_inv in Hp as (Hr & _).
  destruct HA as [-> | ->]; cbn [roles] in Hr;
    destruct (ncols a <? nrows a)%nat; tauto.
Qed.

Lemma dot_matrix_shape (a x : ndarray) :
  ncols a = nrows x ->
  exists y, dot_matrix a x = Ok y
            /\ nrows y = nrows a /\ ncols y = ncols x.
Proof.
  intros H. unfold dot_matrix. apply Nat.eqb_eq in H. rewrite H.
  eexists. split; [reflexivity|]. unfold ncols. cbn [nrows columns].
  now rewrite length_map.
Qed.

(** Lines 222-228 for a plain matrix [a] whose eigenvectors have
    [min(n, m)] rows: the shapes of the reliable vectors. *)
Lemma reliable_vectors_plain (a : ndarray) (c : solved) (mask : list bool)
    (slarge : list scalar) (rsv : rsv_arg) (w : world) :
  sv_n c = nrows a -> sv_m c = ncols a ->
  sv_X_matmat c = (if (ncols a <? nrows a)%nat then dot_matrix a
                   else dot_matrix (_herm a)) ->
  nrows (sv_eigvec c) = Nat.min (nrows a) (ncols a) ->
  length mask = ncols (sv_eigvec c) ->
  length slarge = count_true mask ->
  exists ul vhl w',
    reliable_vectors c mask slarge rsv w = (Ok (ul, vhl), w')
    /\ (forall x, ul = Some x ->
        ncols x = count_true mask /\ nrows x = nrows a)
    /\ (forall y, vhl = Some y ->
        nrows y = count_true mask /\ ncols y = ncols a).
Proof.
  intros Hn Hm Hop Hr Hmask Hsl. unfold reliable_vectors.
  rewrite Hn, Hm, Hop.
  destruct (mask_columns_ok (sv_eigvec c) mask Hmask)
    as (vl & Hvl & Nvl & Rvl & _ & _).
  destruct (ncols a <? nrows a)%nat eqn:E.
  - apply Nat.ltb_lt in E.
    assert (Hd : ncols a = nrows vl) by lia.
    destruct (dot_matrix_shape a vl Hd) as (y & Hy & Ry & Cy).
    assert (Hys : ncols y = length slarge) by congruence.
    destruct (divide_ok y slarge Hys) as (q & Hq & Nq & Rq).
    destruct (rsv_differs rsv "vh").
    + do 3 eexists. split.
      { unfold bind, tick, lift, ret. rewrite Hvl, Hy, Hq. reflexivity. }
      split.
      * intros x [= <-]. split; congruence.
      * intros x [= <-]. rewrite herm_nrows, herm_ncols. split; lia.
    + do 3 eexists. split.
      { unfold bind, lift, ret. rewrite Hvl. reflexivity. }
      split; [discriminate|].
      intros x [= <-]. rewrite herm_nrows, herm_ncols. split; lia.
  - apply Nat.ltb_ge in E.
    assert (Hd : ncols (_herm a) = nrows vl) by (rewrite herm_ncols; lia).
    destruct (dot_matrix_shape (_herm a) vl Hd) as (y & Hy & Ry & Cy).
    assert (Hys : ncols y = length slarge) by congruence.
    destruct (divide_ok y slarge Hys) as (q & Hq & Nq & Rq).
    rewrite herm_nrows in Ry.
    destruct (rsv_differs rsv "u").
    + do 3 eexists. split.
      { unfold bind, tick, lift, ret. rewrite Hvl, Hy, Hq. reflexivity. }
      split.
      * intros x [= <-]. split; lia.
      * intros x [= <-]. rewrite herm_nrows, herm_ncols. split; congruence.
    + do 3 eexists. split.
      { unfold bind, lift, ret. rewrite Hvl. reflexivity. }
      split; [|discriminate].
      intros x [= <-]. split; lia.
Qed.

(** The shapes of the output for a plain [n]-by-[m] matrix, when the
    eigensolver has returned [k] eigenvalues and [min(n, m)]-by-[k]
    eigenvectors of single or double precision: the call returns, there
    are [k] singular values, [u] is [n]-by-[k] and [vh] is [k]-by-[m]
    where they are returned. *)
Theorem svds_output_shapes {SL : SortingLaws} :
  forall (a : ndarray) (rsv : rsv_arg) (w w1 : world) (c : solved),
  A = OpSparse a \/ A = OpArrayLike a ->
  svds_eigenpairs A k ncv tol which v0 maxiter solver w = (Ok c, w1) ->
  Z.of_nat (length (sv_eigvals c)) = k ->
  shape (sv_eigvec c) = (Nat.min (nrows a) (ncols a), Z.to_nat k) ->
  lower (dtype (sv_eigvec c)) = "f"%char
  \/ lower (dtype (sv_eigvec c)) = "d"%char ->
  truthy rsv = true ->
  exists u s vh w2,
    svds A k ncv tol which v0 maxiter rsv solver w
    = (Ok (OutTriple u s vh), w2)
    /\ length s = Z.to_nat k
    /\ (forall x, u = Some x -> shape x = (nrows a, Z.to_nat k))
    /\ (forall y, vh = Some y -> shape y = (Z.to_nat k, ncols a)).
Proof.
  intros a rsv w w1 c HA Hpre Hlen Hshape Ht Htr.
  destruct (svds_eigenpairs_plain a w w1 c HA Hpre) as (Hn & Hm & Hop).
  pose proof (svds_eigenpairs_inv _ _ _ _ _ _ _ _ _ _ _ Hpre) as (_ & Hk & _).
  unfold shape in Hshape. injection Hshape as Hrows Hcols.
  assert (Hne : clamp (sv_eigvals c) <> []).
  { intros E. apply (f_equal (@length _)) in E. unfold clamp in E.
    rewrite length_map in E. simpl in E. lia. }
  destruct (cutoff_of_ok (sv_eigvec c) _ Ht Hne) as (mx & _ & Hc).
  set (cutoff := mul _ mx) in Hc.
  set (eigvals := clamp (sv_eigvals c)) in *.
  set (mask := above cutoff eigvals).
  assert (Le : length eigvals = length (sv_eigvals c))
    by (unfold eigvals, clamp; now rewrite length_map).
  assert (Lm : length mask = ncols (sv_eigvec c)).
  { unfold mask, above. rewrite length_map. lia. }
  assert (Lsl : length (map sqrt (compress mask eigvals)) = count_true mask).
  { rewrite length_map. apply compress_length.
    unfold mask, above. now rewrite length_map. }
  destruct (reliable_vectors_plain a c mask (map sqrt (compress mask eigvals))
              rsv w1 Hn Hm Hop Hrows Lm Lsl)
    as (ul & vhl & w2 & Hrv & Sul & Svhl).
  destruct (assemble_after_reliable k rsv c cutoff w1 w2 ul vhl
              Hc Htr Hlen Hrv
              (fun x Hx => proj1 (Sul x Hx)) (fun y Hy => proj1 (Svhl y Hy)))
    as (u0 & vh0 & w3 & H & Li & Cu & Cv & _ & _ & _).
  do 4 eexists.
  rewrite (svds_after_eigenpairs _ _ _ _ _ _ _ _ _ _ _ _ Hpre).
  split; [exact H|]. split; [now rewrite length_map|]. split.
  - intros x Hx. destruct u0 as [x0|]; [|discriminate].
    injection Hx as <-. rewrite permute_columns_shape, Li.
    destruct (Cu x0 eq_refl) as (b & Hb & ->).
    now rewrite (proj2 (Sul b Hb)).
  - intros y Hy. destruct vh0 as [y0|]; [|discriminate].
    injection Hy as <-. rewrite permute_rows_shape, Li.
    destruct (Cv y0 eq_refl) as (b & Hb & ->).
    now rewrite (proj2 (Svhl b Hb)).
Qed.

End PlainMatrix.

Section NoPadding.

Context {S : Scalar} {R : Random} {Sv : Solvers} {So : Sorting}.

Lemma count_true_all (cutoff : scalar) (eigvals : list scalar) :
  Forall (fun e => gt e cutoff = true) eigvals ->
  count_true (above cutoff eigvals) = length eigvals.
Proof.
  intros H. rewrite count_true_above.
  induction H as [|e l He _ IH]; [reflexivity|].
  cbn [filter]. rewrite He. cbn [length]. now rewrite IH.
Qed.

(** Whatever lines 222-228 come to, they leave the generator alone and
    call nothing but the operator. *)
Lemma reliable_vectors_world (c : solved) (mask : list bool)
    (slarge : list scalar) (rsv : rsv_arg) (w w' : world)
    (r : result (option ndarray * option ndarray)) :
  reliable_vectors c mask slarge rsv w = (r, w') ->
  rng w' = rng w /\ only (fun e => e = EvApply) w w'.
Proof.
  assert (T : only (fun e => e = EvApply) w
                {| rng := rng w; log := log w ++ [EvApply] |}).
  { exists [EvApply]. split; [reflexivity|]. now constructor. }
  unfold reliable_vectors, bind, lift, tick, ret.
  destruct (sv_m c <? sv_n c)%nat;
    destruct (mask_columns (sv_eigvec c) mask) as [vl|e];
    try (intros [= <- <-]; split; [reflexivity|apply only_refl]).
  - destruct (rsv_differs rsv "vh").
    + destruct (sv_X_matmat c vl) as [y|e];
        [destruct (divide y slarge) as [q|e]|];
        intros [= <- <-]; split; auto.
    + intros [= <- <-]; split; [reflexivity|apply only_refl].
  - destruct (rsv_differs rsv "u").
    + destruct (sv_X_matmat c vl) as [y|e];
        [destruct (divide y slarge) as [q|e]|];
        intros [= <- <-]; split; auto.
    + intros [= <- <-]; split; [reflexivity|apply only_refl].
Qed.

(** Nothing to append: the augmentation returns at once. *)
Lemma if_not_None_zero (x : option ndarray) (w : world) :
  (exists y, if_not_None _augmented_orthonormal_cols x 0 w = (Ok y, w))
  /\ (exists y, if_not_None _augmented_orthonormal_rows x 0 w = (Ok y, w)).
Proof.
  destruct x as [a|]; split; eexists; reflexivity.
Qed.

Lemma index_if_not_None_world (f : ndarray -> list nat -> result ndarray)
    (x : option ndarray) (idx : list nat) (w w' : world)
    (r : result (option ndarray)) :
  index_if_not_None f x idx w = (r, w') -> w' = w.
Proof.
  destruct x as [a|]; cbn [index_if_not_None]; unfold bind, lift, ret.
  - destruct (f a idx); now intros [= _ <-].
  - now intros [= _ <-].
Qed.

Variables (A : operand) (k : Z) (ncv : option Z) (tol : scalar)
          (which : string) (v0 : option vector) (maxiter : option Z)
          (solver : option string).

(** When the eigensolver has returned [k] eigenvalues and every one of
    them, clamped, is above the cutoff, nothing is padded: the call,
    whether it returns or raises, leaves the global generator as it found
    it, and after the eigensolver it calls nothing but the operator. *)
Theorem svds_no_padding_no_draw :
  forall (rsv : rsv_arg) (w w1 : world) (c : solved) (cutoff : scalar),
  svds_eigenpairs A k ncv tol which v0 maxiter solver w = (Ok c, w1) ->
  Z.of_nat (length (sv_eigvals c)) = k ->
  cutoff_of (sv_eigvec c) (clamp (sv_eigvals c)) = Ok cutoff ->
  Forall (fun e => gt e cutoff = true) (clamp (sv_eigvals c)) ->
  forall r w2,
    svds A k ncv tol which v0 maxiter rsv solver w = (r, w2) ->
    rng w2 = rng w /\ only (fun e => e = EvApply) w1 w2.
Proof.
  intros rsv w w1 c cutoff Hpre Hlen Hc Hall r w2 H.
  assert (Hg : rng w1 = rng w).
  { pose proof (svds_eigenpairs_free A k ncv tol which v0 maxiter solver w w)
      as [_ E]. rewrite Hpre in E. exact E. }
  rewrite (svds_after_eigenpairs _ _ _ _ _ _ _ _ _ _ _ _ Hpre) in H.
  unfold svds_assemble in H. unfold bind at 1, lift at 1 in H.
  rewrite Hc in H.
  rewrite (count_true_all cutoff _ Hall) in H.
  replace (k - Z.of_nat (length (clamp (sv_eigvals c))))%Z with 0%Z in H
    by (unfold clamp; rewrite length_map; lia).
  destruct (truthy rsv); cbn [negb] in H; cbv iota in H.
  2:{ unfold ret in H. injection H as _ <-.
      split; [exact Hg|apply only_refl]. }
  unfold bind at 1 in H.
  destruct (reliable_vectors c _ _ rsv w1) as [[uv|e] w'] eqn:Hrv;
    apply reliable_vectors_world in Hrv as [Hg' O'].
  2:{ injection H as _ <-. split; [congruence|exact O']. }
  destruct (if_not_None_zero (fst uv) w') as [[u0 Hu] _].
  unfold bind at 1 in H. rewrite Hu in H.
  destruct (if_not_None_zero (snd uv) w') as [_ [vh0 Hv]].
  unfold bind at 1 in H. rewrite Hv in H.
  unfold bind at 1, lift at 1 in H.
  destruct (take _ _) as [s|e]; [|injection H as _ <-; split; [congruence|exact O']].
  unfold bind at 1 in H.
  destruct (index_if_not_None take_columns u0 _ w') as [[u|e] w3] eqn:Hu';
    apply index_if_not_None_world in Hu' as ->.
  2:{ injection H as _ <-. split; [congruence|exact O']. }
  unfold bind at 1 in H.
  destruct (index_if_not_None take_rows vh0 _ w') as [[vh|e] w4] eqn:Hv';
    apply index_if_not_None_world in Hv' as ->.
  2:{ injection H as _ <-. split; [congruence|exact O']. }
  unfold ret in H. injection H as _ <-. split; [congruence|exact O'].
Qed.

End NoPadding.

Section Cutoff.

Context {S : Scalar} {R : Random} {Sv : Solvers} {So : Sorting}.

Lemma lower_f_or_d (c : ascii) :
  (lower c = "f"%char <-> c = "f"%char \/ c = "F"%char)
  /\ (lower c = "d"%char <-> c = "d"%char \/ c = "D"%char).
Proof.
  destruct c as [[] [] [] [] [] [] [] []]; cbv;
    (split;
     (split;
      [ intros H; first [discriminate H | left; reflexivity | right; reflexivity]
      | intros [H|H]; first [discriminate H | reflexivity] ])).
Qed.

(** The cutoff exists for eigenvectors of the dtype characters ['f'],
    ['F'], ['d'] and ['D'] and for no others: complex eigenvectors take
    the factor and the machine epsilon of the real type of their
    precision. *)
Theorem cutoff_dtype_characters (eigvec : ndarray) (eigvals : list scalar)
    (cutoff : scalar) :
  cutoff_of eigvec eigvals = Ok cutoff <->
  exists mx, np_max eigvals = Ok mx /\
    (((dtype eigvec = "f"%char \/ dtype eigvec = "F"%char)
      /\ cutoff = mul (mul lit_1E3 (finfo_eps "f"%char)) mx)
     \/ ((dtype eigvec = "d"%char \/ dtype eigvec = "D"%char)
         /\ cutoff = mul (mul lit_1E6 (finfo_eps "d"%char)) mx)).
Proof.
  destruct (lower_f_or_d (dtype eigvec)) as [Lf Ld]. split.
  - intros H. apply cutoff_of_inv in H as (Ht & mx & Hmx & ->).
    exists mx. split; [exact Hmx|].
    destruct Ht as [E | E]; rewrite E; cbn [Ascii.eqb Bool.eqb].
    + left. split; [now apply Lf|reflexivity].
    + right. split; [now apply Ld|reflexivity].
  - intros (mx & Hmx & [[Hd ->] | [Hd ->]]); unfold cutoff_of.
    + apply Lf in Hd. rewrite Hd, getitem_factor, Hmx. reflexivity.
    + apply Ld in Hd. rewrite Hd, getitem_factor, Hmx. reflexivity.
Qed.

(** When no eigenvalue is above the cutoff, whatever is returned has
    zeros for singular values, one for each eigenvalue. *)
Lemma values_zero_when_none_reliable {SL : SortingLaws} (k : Z)
    (rsv : rsv_arg) (c : solved) (cutoff : scalar) (w w' : world)
    (out : svds_out) :
  cutoff_of (sv_eigvec c) (clamp (sv_eigvals c)) = Ok cutoff ->
  Forall (fun e => gt e cutoff = false) (clamp (sv_eigvals c)) ->
  svds_assemble k rsv c w = (Ok out, w') ->
  values_of out = repeat zero (length (sv_eigvals c)).
Proof.
  intros Hc Hnone H.
  apply svds_assemble_inv in H as (cutoff' & Hc' & H).
  rewrite Hc in Hc'. injection Hc' as <-. cbv zeta in H.
  assert (Hf : filter (fun e => gt e cutoff) (clamp (sv_eigvals c)) = []).
  { clear - Hnone. induction Hnone as [|e l He _ IH]; [reflexivity|].
    cbn [filter]. rewrite He. exact IH. }
  assert (Hs0 : assemble_values (clamp (sv_eigvals c))
                  (above cutoff (clamp (sv_eigvals c)))
                = repeat zero (length (sv_eigvals c))).
  { unfold assemble_values. rewrite compress_above, count_true_above, Hf.
    cbn [map app length]. unfold clamp. now rewrite length_map, Nat.sub_0_r. }
  rewrite Hs0 in H.
  destruct out as [s|u s vh]; cbn [values_of].
  - destruct H as (_ & -> & _).
    pose proof (np_sort_permutation (repeat zero (length (sv_eigvals c)))) as P.
    now apply Permutation_repeat in P.
  - destruct H as (_ & Hs & _).
    apply (take_inv zero) in Hs as [-> Hin].
    pose proof (np_argsort_permutation (repeat zero (length (sv_eigvals c))))
      as P.
    rewrite repeat_length in P.
    apply Permutation_length in P. rewrite length_seq in P.
    rewrite (map_ext _ (fun _ => zero))
      by (intros i; apply nth_repeat).
    now rewrite map_const, P.
Qed.

End Cutoff.
(** ** The Gram operator of a plain matrix in exact arithmetic *)

Section Adjoint.

Context {S : Scalar} {R : Random} {FL : StarFieldLaws}.

Add Ring scalar_ring_products : star_ring.

Lemma matrix_vector_unfold (a : ndarray) (x : list scalar) :
  matrix_vector a x
  = fold_left accumulate (combine (columns a) x) (repeat zero (nrows a)).
Proof. reflexivity. Qed.

Lemma hdot_zeros (n : nat) : forall y, hdot (repeat zero n) y = zero.
Proof.
  induction n as [|n IH]; intros y; cbn [repeat].
  - apply hdot_nil_l.
  - destruct y as [|y0 y]; [apply hdot_nil_r|].
    rewrite hdot_cons, IH. ring.
Qed.

Lemma accumulate_cons (a0 : scalar) (acc : list scalar) (c0 : scalar)
    (c : list scalar) (s : scalar) :
  accumulate (a0 :: acc) (c0 :: c, s)
  = add a0 (mul c0 s) :: accumulate acc (c, s).
Proof. reflexivity. Qed.

Lemma hdot_accumulate (acc : list scalar) :
  forall c s y, length acc = length c ->
  hdot (accumulate acc (c, s)) y = add (hdot acc y) (mul s (hdot c y)).
Proof.
  induction acc as [|a0 acc IH]; intros [|c0 c] s y H; try discriminate H.
  - unfold accumulate. cbn [fst snd map zip_with]. rewrite !hdot_nil_l. ring.
  - destruct y as [|y0 y].
    + rewrite !hdot_nil_r. ring.
    + rewrite accumulate_cons, !hdot_cons, IH by (cbn in H; lia). ring.
Qed.

Lemma accumulate_length (acc c : list scalar) (s : scalar) :
  length acc = length c -> length (accumulate acc (c, s)) = length acc.
Proof.
  intros H. unfold accumulate. cbn [fst snd].
  rewrite zip_with_length, length_map. lia.
Qed.

Lemma fold_accumulate (n : nat) (y : list scalar)
    (cxs : list (list scalar * scalar)) :
  forall acc, length acc = n ->
  Forall (fun cx => length (fst cx) = n) cxs ->
  length (fold_left accumulate cxs acc) = n
  /\ hdot (fold_left accumulate cxs acc) y
     = add (hdot acc y) (weighted_products y cxs).
Proof.
  induction cxs as [|[c s] cxs IH]; intros acc Hacc Hall.
  - cbn [fold_left weighted_products fold_right].
    split; [exact Hacc|ring].
  - inversion Hall as [|? ? Hc Hrest]; subst. cbn [fst] in Hc.
    cbn [fold_left weighted_products fold_right fst snd].
    destruct (IH (accumulate acc (c, s))) as [L E].
    + rewrite accumulate_length; congruence.
    + exact Hrest.
    + split; [exact L|]. rewrite E, hdot_accumulate by congruence.
      fold (weighted_products y cxs). ring.
Qed.

Lemma columns_with_entries (n : nat) (cols : list (list scalar)) :
  forall x, Forall (fun c => length c = n) cols ->
  Forall (fun cx : list scalar * scalar => length (fst cx) = n)
         (combine cols x).
Proof.
  induction cols as [|c cs IH]; intros [|x0 xs] H; cbn [combine];
    try constructor.
  - cbn [fst]. inversion H as [|? ? Hc Hrest]. exact Hc.
  - inversion H as [|? ? Hc Hrest]. now apply IH.
Qed.

(** [A.dot(x)] has as many entries as [A] has rows, and its product with
    [y] is the sum over the columns. *)
Lemma matrix_vector_products (a : ndarray) (x y : list scalar) :
  well_shaped a ->
  length (matrix_vector a x) = nrows a
  /\ hdot (matrix_vector a x) y = weighted_products y (combine (columns a) x).
Proof.
  intros Ha. rewrite matrix_vector_unfold.
  destruct (fold_accumulate (nrows a) y (combine (columns a) x)
              (repeat zero (nrows a)) (repeat_length _ _)
              (columns_with_entries _ _ x Ha)) as [L E].
  split; [exact L|]. rewrite E, hdot_zeros. ring.
Qed.

Lemma zip_with_mul_comm (u : list scalar) :
  forall v, zip_with mul u v = zip_with mul v u.
Proof.
  induction u as [|a u IH]; intros [|b v]; cbn [zip_with]; try reflexivity.
  rewrite IH. f_equal. ring.
Qed.

Lemma conj_np_dot_vconj (c y : list scalar) :
  conj (np_dot (vconj c) y) = hdot c y.
Proof.
  rewrite (hdot_conj_sym y c). unfold hdot, np_dot.
  now rewrite zip_with_mul_comm.
Qed.

(** The columns of [_herm] of an array with one more column: each has
    the conjugate of an entry of that column in front. *)
Lemma herm_columns_cons (t : ascii) (n : nat) (c : list scalar)
    (cs : list (list scalar)) :
  length c = n ->
  columns (_herm {| dtype := t; nrows := n; columns := c :: cs |})
  = zip_with cons (vconj c)
             (columns (_herm {| dtype := t; nrows := n; columns := cs |})).
Proof.
  intros Hc.
  assert (E : vconj c = map (fun i => conj (nth i c zero)) (seq 0 n)).
  { unfold vconj. rewrite <- Hc.
    transitivity (map conj (map (fun i => nth i c zero) (seq 0 (length c))));
      [now rewrite map_nth_all|now rewrite map_map]. }
  rewrite E. unfold _herm, conj_array, transpose, vconj.
  cbn [columns nrows]. rewrite !map_map.
  generalize (seq 0 n). intros l.
  induction l as [|i l IH]; cbn [map zip_with]; [reflexivity|].
  f_equal. exact IH.
Qed.

Lemma fold_accumulate_cons (heads : list scalar) :
  forall (tails : list (list scalar)) (ys : list scalar) (a0 : scalar)
         (acc : list scalar),
  length heads = length tails ->
  fold_left accumulate (combine (zip_with cons heads tails) ys) (a0 :: acc)
  = fold_left add (zip_with mul heads ys) a0
    :: fold_left accumulate (combine tails ys) acc.
Proof.
  induction heads as [|h hs IH]; intros [|t ts] ys a0 acc H;
    try discriminate H.
  - reflexivity.
  - destruct ys as [|y ys]; [reflexivity|].
    cbn [zip_with combine fold_left]. rewrite accumulate_cons.
    apply IH. cbn in H. lia.
Qed.

Lemma matrix_vector_herm_cons (t : ascii) (n : nat) (c : list scalar)
    (cs : list (list scalar)) (y : list scalar) :
  length c = n ->
  matrix_vector (_herm {| dtype := t; nrows := n; columns := c :: cs |}) y
  = np_dot (vconj c) y
    :: matrix_vector (_herm {| dtype := t; nrows := n; columns := cs |}) y.
Proof.
  intros Hc. rewrite !matrix_vector_unfold, herm_columns_cons by exact Hc.
  rewrite !herm_nrows. unfold ncols. cbn [columns length repeat].
  apply fold_accumulate_cons.
  unfold vconj, _herm, conj_array, transpose. cbn [columns nrows].
  now rewrite !length_map, length_seq.
Qed.

Lemma herm_vector_products (t : ascii) (n : nat) (y : list scalar)
    (cols : list (list scalar)) :
  forall x, Forall (fun c => length c = n) cols ->
  length x = length cols ->
  hdot x (matrix_vector (_herm {| dtype := t; nrows := n; columns := cols |}) y)
  = weighted_products y (combine cols x).
Proof.
  induction cols as [|c cs IH]; intros [|x0 xs] Hall Hx; try discriminate Hx.
  - now rewrite hdot_nil_l.
  - inversion Hall as [|? ? Hc Hrest]; subst.
    rewrite matrix_vector_herm_cons, hdot_cons by reflexivity.
    rewrite IH by (auto; cbn in Hx; lia).
    now rewrite conj_np_dot_vconj.
Qed.

(** [_herm(A).dot] is the adjoint of [A.dot] for the Hermitian product:
    the product of [A x] with [y] is that of [x] with [A^H y]. *)
Lemma adjoint_products (a : ndarray) (x y : list scalar) :
  well_shaped a -> length x = ncols a ->
  hdot (matrix_vector a x) y = hdot x (matrix_vector (_herm a) y).
Proof.
  intros Ha Hx.
  destruct (matrix_vector_products a x y Ha) as [_ ->].
  destruct a as [t n cols]. symmetry.
  now apply herm_vector_products.
Qed.

(** For a plain matrix [A], [_herm(A).dot] is the adjoint of [A.dot]
    for the Hermitian product [np.dot(u, v.conj())]: the product of
    [A x] with [y] is the product of [x] with [A^H y]. *)
Theorem herm_dot_adjoint (a : ndarray) (x y : list scalar) :
  well_shaped a -> length x = ncols a -> length y = nrows a ->
  hdot (matrix_vector a x) y = hdot x (matrix_vector (_herm a) y).
Proof.
  intros Ha Hx Hy.
  destruct (matrix_vector_products a x y Ha) as [Lax Eax].
  rewrite Eax. destruct a as [t n cols].
  cbn [columns nrows] in *. unfold ncols in Hx. cbn [columns] in Hx.
  symmetry. apply herm_vector_products; assumption.
Qed.

Lemma dot_vector_ok (a : ndarray) (x : vector) :
  well_shaped a -> length (vdata x) = ncols a ->
  exists r, dot_vector a x = Ok r
            /\ vdata r = matrix_vector a (vdata x)
            /\ length (vdata r) = nrows a.
Proof.
  intros Ha Hx. unfold dot_vector.
  assert (E : (ncols a =? length (vdata x))%nat = true)
    by (apply Nat.eqb_eq; lia).
  rewrite E. eexists. split; [reflexivity|]. cbn [vdata].
  split; [reflexivity|].
  exact (proj1 (matrix_vector_products a (vdata x) [] Ha)).
Qed.

Lemma hdot_self_conj (v : list scalar) : conj (hdot v v) = hdot v v.
Proof. symmetry. apply hdot_conj_sym. Qed.

Context {Sv : Solvers} {So : Sorting}.

(** The operator [XH_X] that [svds] builds for a plain [n]-by-[m] matrix
    is Hermitian and positive semidefinite on vectors of length
    [min(n, m)]: its product form [<XH_X x, y>] equals [<x, XH_X y>], and
    [<XH_X x, x>] is the squared norm [<X x, X x>].  So the eigenvalues
    that the code clamps are, in exact arithmetic, real and not negative
    to begin with. *)
Theorem gram_operator_hermitian_psd :
  forall (A : operand) (a : ndarray) (n m : nat) (p : primitives)
         (w w1 : world) (x y : vector),
  A = OpSparse a \/ A = OpArrayLike a ->
  well_shaped a ->
  shape a = (n, m) ->
  select_primitives A n m w = (Ok p, w1) ->
  length (vdata x) = Nat.min n m ->
  length (vdata y) = Nat.min n m ->
  exists ax gx gy,
    X_dot p x = Ok ax
    /\ matvec_XH_X p x = Ok gx
    /\ matvec_XH_X p y = Ok gy
    /\ length (vdata gx) = Nat.min n m
    /\ hdot (vdata gx) (vdata y) = hdot (vdata x) (vdata gy)
    /\ hdot (vdata gx) (vdata x) = hdot (vdata ax) (vdata ax).
Proof.
  intros A a n m p w w1 x y HA Ha Hs Hp Hx Hy.
  unfold shape in Hs. injection Hs as Hn Hm.
  apply select_primitives_inv in Hp as (Hr & _).
  pose proof (herm_well_shaped a) as Hh.
  assert (Hroles : if (m <? n)%nat
                   then X_dot p = dot_vector a
                        /\ XH_dot p = dot_vector (_herm a)
                   else X_dot p = dot_vector (_herm a)
                        /\ XH_dot p = dot_vector a).
  { destruct HA as [-> | ->]; cbn [roles] in Hr;
      destruct (m <? n)%nat; tauto. }
  unfold matvec_XH_X.
  destruct (m <? n)%nat eqn:E; destruct Hroles as [-> ->].
  - apply Nat.ltb_lt in E.
    assert (Lx : length (vdata x) = ncols a) by lia.
    assert (Ly : length (vdata y) = ncols a) by lia.
    destruct (dot_vector_ok a x Ha Lx) as (ax & Eax & Dax & Lax).
    destruct (dot_vector_ok a y Ha Ly) as (ay & Eay & Day & Lay).
    assert (Lax' : length (vdata ax) = ncols (_herm a))
      by (now rewrite herm_ncols).
    assert (Lay' : length (vdata ay) = ncols (_herm a))
      by (now rewrite herm_ncols).
    destruct (dot_vector_ok (_herm a) ax Hh Lax') as (gx & Egx & Dgx & Lgx).
    destruct (dot_vector_ok (_herm a) ay Hh Lay') as (gy & Egy & Dgy & Lgy).
    exists ax, gx, gy. rewrite Eax, Eay.
    split; [reflexivity|]. split; [exact Egx|]. split; [exact Egy|].
    split; [rewrite Lgx, herm_nrows; lia|].
    rewrite Dgx, Dgy, Dax, Day. split.
    + rewrite <- (adjoint_products a (vdata x) _ Ha Lx).
      rewrite (hdot_conj_sym (vdata y)).
      rewrite <- (adjoint_products a (vdata y) _ Ha Ly).
      now rewrite <- hdot_conj_sym.
    + rewrite (hdot_conj_sym (vdata x)).
      rewrite <- (adjoint_products a (vdata x) _ Ha Lx).
      apply hdot_self_conj.
  - apply Nat.ltb_ge in E.
    assert (Lx : length (vdata x) = ncols (_herm a))
      by (rewrite herm_ncols; lia).
    assert (Ly : length (vdata y) = ncols (_herm a))
      by (rewrite herm_ncols; lia).
    destruct (dot_vector_ok (_herm a) x Hh Lx) as (ax & Eax & Dax & Lax).
    destruct (dot_vector_ok (_herm a) y Hh Ly) as (ay & Eay & Day & Lay).
    rewrite herm_nrows in Lax, Lay.
    destruct (dot_vector_ok a ax Ha Lax) as (gx & Egx & Dgx & Lgx).
    destruct (dot_vector_ok a ay Ha Lay) as (gy & Egy & Dgy & Lgy).
    exists ax, gx, gy. rewrite Eax, Eay.
    split; [reflexivity|]. split; [exact Egx|]. split; [exact Egy|].
    split; [rewrite Lgx; lia|].
    rewrite Dgx, Dgy, Dax, Day. split.
    + rewrite (adjoint_products a _ (vdata y) Ha)
        by (rewrite <- Dax; exact Lax).
      rewrite (hdot_conj_sym _ (vdata x)).
      rewrite (adjoint_products a _ (vdata x) Ha)
        by (rewrite <- Day; exact Lay).
      now rewrite <- hdot_conj_sym.
    + rewrite (adjoint_products a _ (vdata x) Ha)
        by (rewrite <- Dax; exact Lax).
      reflexivity.
Qed.

End Adjoint.
(** ** The reliable singular vectors in exact arithmetic *)

Section ReliableVectors.

Context {S : Scalar} {R : Random} {FL : StarFieldLaws}.

Add Ring scalar_ring_vectors : star_ring.

Lemma hdot_scale_r (c : scalar) (v : list scalar) :
  forall w, hdot v (map (mul c) w) = mul (conj c) (hdot v w).
Proof.
  induction v as [|a v IH]; intros [|b w]; cbn [map].
  - rewrite !hdot_nil_l. ring.
  - rewrite !hdot_nil_l. ring.
  - rewrite !hdot_nil_r. ring.
  - rewrite !hdot_cons, IH, conj_mul. ring.
Qed.

Lemma nth_zip_with {A B C} (f : A -> B -> C) (da : A) (db : B) (dc : C) :
  forall (a : list A) (b : list B) (j : nat),
  j < length a -> j < length b ->
  nth j (zip_with f a b) dc = f (nth j a da) (nth j b db).
Proof.
  induction a as [|x a IH]; intros [|y b] [|j] Ha Hb; cbn in Ha, Hb; try lia.
  - reflexivity.
  - cbn [zip_with nth]. apply IH; lia.
Qed.

Lemma mul_div_cancel (s a : scalar) : s <> zero -> mul s (div a s) = a.
Proof.
  intros Hs. rewrite div_mul_inv.
  transitivity (mul a (mul s (div one s))); [ring|].
  rewrite mul_inv by exact Hs. ring.
Qed.

Lemma div_div_square (s : scalar) :
  s <> zero -> div (div (mul (mul s s) one) s) s = one.
Proof.
  intros Hs.
  rewrite (div_mul_inv (div (mul (mul s s) one) s) s).
  rewrite (div_mul_inv (mul (mul s s) one) s).
  assert (Hinv : mul s (div one s) = one) by (now apply mul_inv).
  transitivity (mul (mul s (div one s)) (mul s (div one s))); [ring|].
  rewrite Hinv. ring.
Qed.

(** Lines 223-228: [X_matmat(vlarge) / slarge] for a plain matrix [b] in
    the place of [X].  When the columns of [vlarge] are orthonormal
    eigenvectors of [X^H X] and the square roots [slarge] of their
    eigenvalues are real and not zero, the quotient has orthonormal
    columns [u_j], one for each [v_j], with [X v_j = s_j u_j]. *)
Theorem reliable_vectors_orthonormal :
  forall (b vlarge : ndarray) (lams : list scalar),
  well_shaped b ->
  well_shaped vlarge ->
  nrows vlarge = ncols b ->
  length lams = ncols vlarge ->
  orthonormal (columns vlarge) ->
  (forall j, j < ncols vlarge ->
     matrix_vector (_herm b) (matrix_vector b (nth j (columns vlarge) []))
     = map (mul (nth j lams zero)) (nth j (columns vlarge) [])) ->
  (forall j, j < ncols vlarge ->
     let s := sqrt (nth j lams zero) in
     mul s s = nth j lams zero /\ conj s = s /\ s <> zero) ->
  exists y q,
    dot_matrix b vlarge = Ok y
    /\ divide y (map sqrt lams) = Ok q
    /\ shape q = (nrows b, ncols vlarge)
    /\ orthonormal (columns q)
    /\ forall j, j < ncols vlarge ->
       matrix_vector b (nth j (columns vlarge) [])
       = map (mul (sqrt (nth j lams zero))) (nth j (columns q) []).
Proof.
  intros b vlarge lams Hb Hv Hrows Hlen Horth Heig Hroot.
  set (cols := columns vlarge) in *.
  assert (Hk : ncols vlarge = length cols) by reflexivity.
  unfold dot_matrix, divide.
  assert (E1 : (ncols b =? nrows vlarge)%nat = true)
    by (apply Nat.eqb_eq; lia).
  rewrite E1. do 2 eexists. split; [reflexivity|].
  unfold ncols at 1. cbn [columns dtype nrows].
  assert (E2 : (length (map (matrix_vector b) (columns vlarge))
                =? length (map sqrt lams))%nat = true).
  { apply Nat.eqb_eq. rewrite !length_map. fold cols. lia. }
  rewrite E2. split; [reflexivity|]. fold cols.
  set (qs := zip_with (fun c d => map (fun a => div a d) c)
                      (map (matrix_vector b) cols) (map sqrt lams)).
  assert (Lq : length qs = length cols).
  { unfold qs. rewrite zip_with_length, !length_map. lia. }
  assert (Nq : forall j, j < length cols ->
            nth j qs []
            = map (fun a => div a (sqrt (nth j lams zero)))
                  (matrix_vector b (nth j cols []))).
  { intros j Hj. unfold qs.
    rewrite (nth_zip_with _ [] zero [])
      by (rewrite length_map; lia).
    rewrite (nth_map_default (matrix_vector b) cols [] [] j Hj).
    rewrite (nth_map_default sqrt lams zero zero j) by lia.
    reflexivity. }
  assert (Lc : forall j, j < length cols -> length (nth j cols []) = ncols b).
  { intros j Hj. unfold well_shaped in Hv. fold cols in Hv.
    rewrite Forall_forall in Hv. rewrite (Hv (nth j cols [])); [lia|].
    now apply nth_In. }
  split; [|split].
  - unfold shape, ncols. cbn [nrows columns]. now rewrite Lq.
  - cbn [columns]. intros i j Hi Hj. rewrite Lq in Hi, Hj.
    rewrite (Nq i Hi), (Nq j Hj), hdot_div_l, hdot_div_r.
    rewrite (adjoint_products b (nth i cols []) _ Hb (Lc i Hi)).
    rewrite (Heig j) by lia. rewrite hdot_scale_r, (Horth i j Hi Hj).
    destruct (Hroot j) as (Hss & Hcs & Hs0); [lia|]. cbv zeta in *.
    destruct (i =? j)%nat eqn:E.
    + apply Nat.eqb_eq in E. subst i.
      set (s := sqrt (nth j lams zero)) in *.
      rewrite <- Hss, conj_mul, Hcs.
      now apply div_div_square.
    + replace (mul (conj (nth j lams zero)) zero) with zero by ring.
      now rewrite !div_zero.
  - intros j Hj. cbn [columns]. rewrite Nq by lia. rewrite map_map.
    destruct (Hroot j Hj) as (_ & _ & Hs0). cbv zeta in Hs0.
    rewrite (map_ext _ (fun a => a))
      by (intros a; now apply mul_div_cancel).
    now rewrite map_id.
Qed.

End ReliableVectors.

(** ** The order of binary64 meets [OrderLaws] *)

Module Binary64Facts.

Import Binary64.

#[local] Existing Instance Binary64Scalar.

Local Open Scope Z_scope.

Lemma lex_le_trans (a b c : Z * (Z * Z)) :
  lex_le a b -> lex_le b c -> lex_le a c.
Proof. unfold lex_le. lia. Qed.

Lemma lex_le_total (a b : Z * (Z * Z)) : lex_le a b \/ lex_le b a.
Proof. unfold lex_le. lia. Qed.

Lemma lex_le_refl (a : Z * (Z * Z)) : lex_le a a.
Proof. unfold lex_le. lia. Qed.

Lemma SFleb_rank (a b : spec_float) :
  SFleb a b = true
  <-> isnan a = false /\ isnan b = false /\ lex_le (rank a) (rank b).
Proof.
  unfold SFleb, SFcompare, lex_le.
  destruct a as [[]|[]| |[] m1 e1], b as [[]|[]| |[] m2 e2]; cbn;
    try (split; [intros _; repeat split; lia
                |intros (? & ? & ?); reflexivity]);
    try (split; [discriminate|intros (? & ? & ?); try discriminate; lia]).
  - change (Pos.compare_cont Eq m1 m2) with (m1 ?= m2)%positive.
    destruct (Z.compare_spec e1 e2), (Pos.compare_spec m1 m2); cbn;
      split; try discriminate; try (intros _; repeat split; lia);
      try (intros (_ & _ & ?); solve [reflexivity | lia]).
  - change (Pos.compare_cont Eq m1 m2) with (m1 ?= m2)%positive.
    destruct (Z.compare_spec e1 e2), (Pos.compare_spec m1 m2); cbn;
      split; try discriminate; try (intros _; repeat split; lia);
      try (intros (_ & _ & ?); solve [reflexivity | lia]).
Qed.

Lemma SFleb_refl (a : spec_float) : isnan a = false -> SFleb a a = true.
Proof. intros H. apply SFleb_rank. auto using lex_le_refl. Qed.

Lemma SFltb_not_nan (a b : spec_float) : SFltb b a = true -> isnan a = false.
Proof.
  unfold SFltb, SFcompare.
  destruct a as [[]|[]| |[] m1 e1], b as [[]|[]| |[] m2 e2]; cbn;
    auto; discriminate.
Qed.

(** Rounding keeps a mantissa that is not negative from turning into a
    NaN. *)
Lemma shr_1_nonneg (mrs : shr_record) :
  0 <= shr_m mrs -> 0 <= shr_m (shr_1 mrs).
Proof.
  destruct mrs as [m r s]. cbn. destruct m as [|[p|p|]|[p|p|]]; cbn; lia.
Qed.

Lemma iter_shr_1_nonneg (p : positive) :
  forall mrs, 0 <= shr_m mrs -> 0 <= shr_m (iter_pos shr_1 p mrs).
Proof.
  induction p as [p IH|p IH|]; intros mrs H; cbn.
  - apply IH, IH, shr_1_nonneg, H.
  - apply IH, IH, H.
  - apply shr_1_nonneg, H.
Qed.

Lemma shr_fexp_nonneg (m e : Z) (l : location) :
  0 <= m -> 0 <= shr_m (fst (shr_fexp prec emax m e l)).
Proof.
  intros H. unfold shr_fexp, shr.
  assert (H0 : 0 <= shr_m (shr_record_of_loc m l))
    by (destruct l as [|[]]; exact H).
  destruct (fexp prec emax (Zdigits2 m + e) - e); cbn; auto.
  now apply iter_shr_1_nonneg.
Qed.

Lemma round_nearest_even_nonneg (m : Z) (l : location) :
  0 <= m -> 0 <= round_nearest_even m l.
Proof.
  intros H. unfold round_nearest_even.
  destruct l as [|[]]; try destruct (Z.even m); lia.
Qed.

Lemma binary_round_aux_nonneg (m e : Z) (l : location) :
  0 <= m -> SFleb (S754_zero false) (binary_round_aux prec emax false m e l) = true.
Proof.
  intros H. unfold binary_round_aux.
  pose proof (shr_fexp_nonneg m e l H) as H1.
  destruct (shr_fexp prec emax m e l) as [mrs' e'].
  cbn [fst] in H1.
  pose proof (shr_fexp_nonneg _ e' loc_Exact
                (round_nearest_even_nonneg _ (loc_of_shr_record mrs') H1)) as H2.
  destruct (shr_fexp prec emax
              (round_nearest_even (shr_m mrs') (loc_of_shr_record mrs'))
              e' loc_Exact) as [mrs'' e''].
  cbn [fst] in H2.
  destruct (shr_m mrs'') as [|p|p]; [reflexivity| |lia].
  destruct (e'' <=? emax - prec); reflexivity.
Qed.

Lemma SFsqrt_nonneg (a : spec_float) :
  SFleb (S754_zero false) a = true ->
  SFleb (S754_zero false) (SFsqrt prec emax a) = true.
Proof.
  destruct a as [s|[]| |[] m e]; cbn; auto; try discriminate.
  intros _.
  destruct (SFsqrt_core_binary prec emax (Z.pos m) e) as [[q e'] l] eqn:E.
  apply binary_round_aux_nonneg.
  unfold SFsqrt_core_binary in E.
  match type of E with
  | context [Z.sqrtrem ?x] =>
      pose proof (Z.sqrtrem_sqrt x) as Hq;
      pose proof (Z.sqrt_nonneg x) as Hn;
      destruct (Z.sqrtrem x) as [q0 r0]
  end.
  cbn [fst] in Hq. injection E as <- _ _. lia.
Qed.

Lemma binary64_order_laws : @OrderLaws Binary64Scalar.
Proof.
  constructor; unfold comparable, nonneg;
    cbn [le gt zero maximum sqrt Binary64Scalar].
  - reflexivity.
  - intros a b c H1 H2. apply SFleb_rank in H1 as (Na & Nb & H1).
    apply SFleb_rank in H2 as (_ & Nc & H2). apply SFleb_rank.
    eauto using lex_le_trans.
  - intros a b Ha Hb. apply SFleb_rank in Ha as (Na & _).
    apply SFleb_rank in Hb as (Nb & _).
    destruct (lex_le_total (rank a) (rank b)); [left|right];
      apply SFleb_rank; auto.
  - intros a b H. apply SFleb_rank in H as (Na & _). now apply SFleb_refl.
  - intros a b H. apply SFleb_rank in H as (_ & Nb & _). now apply SFleb_refl.
  - intros a b H. apply SFleb_refl. eapply SFltb_not_nan; eauto.
  - intros a. unfold fmaximum. destruct (isnan a) eqn:Na.
    + destruct a; discriminate.
    + cbn [isnan]. destruct (SFleb (S754_zero false) a) eqn:E; auto.
  - apply SFsqrt_nonneg.
Qed.

(** What rounding a mantissa that is not negative can give. *)
Lemma binary_round_aux_shape (m e : Z) (l : location) :
  0 <= m ->
  binary_round_aux prec emax false m e l = S754_zero false
  \/ (exists m' e', binary_round_aux prec emax false m e l
                    = S754_finite false m' e')
  \/ binary_round_aux prec emax false m e l = S754_infinity false.
Proof.
  intros H. unfold binary_round_aux.
  pose proof (shr_fexp_nonneg m e l H) as H1.
  destruct (shr_fexp prec emax m e l) as [mrs' e'].
  cbn [fst] in H1.
  pose proof (shr_fexp_nonneg _ e' loc_Exact
                (round_nearest_even_nonneg _ (loc_of_shr_record mrs') H1)) as H2.
  destruct (shr_fexp prec emax
              (round_nearest_even (shr_m mrs') (loc_of_shr_record mrs'))
              e' loc_Exact) as [mrs'' e''].
  cbn [fst] in H2.
  destruct (shr_m mrs'') as [|p|p]; [auto| |lia].
  destruct (e'' <=? emax - prec); eauto.
Qed.

Lemma SFsqrt_core_nonneg (m : positive) (e : Z) :
  0 <= fst (fst (SFsqrt_core_binary prec emax (Z.pos m) e)).
Proof.
  unfold SFsqrt_core_binary.
  match goal with
  | |- context [Z.sqrtrem ?x] =>
      pose proof (Z.sqrtrem_sqrt x) as Hq;
      pose proof (Z.sqrt_nonneg x) as Hn;
      destruct (Z.sqrtrem x) as [q0 r0]
  end.
  cbn [fst] in *. lia.
Qed.

Lemma binary64_sign_laws : @SignLaws Binary64Scalar.
Proof.
  constructor; unfold not_negative, proper;
    cbn [le gt zero mul maximum sqrt lit_1E3 lit_1E6 finfo_eps Binary64Scalar].
  - intros a b Ha Hb.
    destruct a as [[]|[]| |[] m1 e1], b as [[]|[]| |[] m2 e2];
      try discriminate; try reflexivity.
    cbn [SFmul xorb].
    destruct (binary_round_aux_shape (Z.pos (m1 * m2)) (e1 + e2) loc_Exact)
      as [E | [(m' & e' & E) | E]]; [lia| | |]; rewrite E; reflexivity.
  - intros a b Ha Hb. unfold fmaximum.
    destruct (isnan a); auto. destruct (isnan b); auto.
    destruct (SFleb b a); auto.
  - intros a. unfold fmaximum. destruct (isnan a) eqn:Na.
    + destruct a; try discriminate. reflexivity.
    + cbn [isnan]. destruct (SFleb (S754_zero false) a) eqn:E; auto.
      destruct a as [[]|[]| |[] m e]; try discriminate; reflexivity.
  - reflexivity.
  - reflexivity.
  - intros t. destruct (t =? "f")%char; reflexivity.
  - intros a c Hac Hc.
    destruct a as [s|[]| |[] m e].
    + destruct c as [[]|[]| |[] m e]; cbn in Hac, Hc; congruence.
    + destruct c as [[]|[]| |[] m e]; discriminate.
    + right. reflexivity.
    + destruct c as [[]|[]| |[] m e]; discriminate.
    + destruct c as [[]|[]| |[] m' e']; cbn in Hac, Hc; congruence.
    + cbn [SFsqrt].
      pose proof (SFsqrt_core_nonneg m e) as Hq.
      destruct (SFsqrt_core_binary prec emax (Z.pos m) e) as [[q e'] l].
      cbn [fst] in Hq.
      destruct (binary_round_aux_shape q e' l Hq)
        as [E | [(m' & e'' & E) | E]]; rewrite E; auto.
  - intros a b Ha Hb Hab Hba.
    apply SFleb_rank in Hab as (Na & Nb & Hab).
    apply SFleb_rank in Hba as (_ & _ & Hba).
    assert (Sa : a = S754_zero false \/ a = S754_infinity false
                 \/ exists m e, a = S754_finite false m e).
    { destruct Ha as [-> | Ha]; auto.
      destruct a as [[]|[]| |[] m e]; try discriminate; eauto. }
    assert (Sb : b = S754_zero false \/ b = S754_infinity false
                 \/ exists m e, b = S754_finite false m e).
    { destruct Hb as [-> | Hb]; auto.
      destruct b as [[]|[]| |[] m e]; try discriminate; eauto. }
    unfold lex_le in Hab, Hba.
    destruct Sa as [-> | [-> | (m1 & e1 & ->)]],
             Sb as [-> | [-> | (m2 & e2 & ->)]];
      cbn [rank fst snd] in Hab, Hba; try reflexivity; try lia.
    assert (e1 = e2) by lia. assert (Z.pos m1 = Z.pos m2) by lia.
    congruence.
Qed.

(** Comparing the other way round gives the opposite answer. *)
Lemma SFcompare_swap (a b : spec_float) :
  SFcompare a b = option_map CompOpp (SFcompare b a).
Proof.
  destruct a as [[]|[]| |[] m1 e1], b as [[]|[]| |[] m2 e2]; cbn;
    try reflexivity.
  - rewrite (Z.compare_antisym e1 e2).
    change (Pos.compare_cont Eq m1 m2) with (m1 ?= m2)%positive.
    change (Pos.compare_cont Eq m2 m1) with (m2 ?= m1)%positive.
    rewrite (Pos.compare_antisym m1 m2).
    destruct (e1 ?= e2); cbn; try reflexivity.
    destruct (m1 ?= m2)%positive; reflexivity.
  - rewrite (Z.compare_antisym e1 e2).
    change (Pos.compare_cont Eq m1 m2) with (m1 ?= m2)%positive.
    change (Pos.compare_cont Eq m2 m1) with (m2 ?= m1)%positive.
    rewrite (Pos.compare_antisym m1 m2).
    destruct (e1 ?= e2); cbn; try reflexivity.
    destruct (m1 ?= m2)%positive; reflexivity.
Qed.

Lemma SFleb_nan (a : spec_float) : SFleb a a = false -> isnan a = true.
Proof.
  intros H. destruct (isnan a) eqn:E; [reflexivity|].
  rewrite (SFleb_refl a E) in H. discriminate H.
Qed.

Lemma SFleb_not_nan (a : spec_float) : SFleb a a = true -> isnan a = false.
Proof. destruct a; try reflexivity. discriminate. Qed.

Lemma binary64_comparison_laws : @ComparisonLaws Binary64Scalar.
Proof.
  constructor; unfold comparable;
    cbn [le gt maximum Binary64Scalar]; unfold fmaximum.
  - intros a b Ha Hb.
    now rewrite (SFleb_not_nan a Ha), (SFleb_not_nan b Hb).
  - intros a b Ha. now rewrite (SFleb_nan a Ha).
  - intros a b Ha Hb.
    now rewrite (SFleb_not_nan a Ha), (SFleb_nan b Hb).
  - intros a b. unfold SFltb, SFleb. rewrite (SFcompare_swap a b).
    destruct (SFcompare b a) as [[]|]; cbn; split;
      try discriminate; try tauto; intros [? ?]; discriminate.
Qed.

End Binary64Facts.

(** ** The complex numbers meet the laws of exact arithmetic *)

Module ComplexFacts.

Import ComplexNumbers.

#[local] Existing Instance ComplexScalar.
#[local] Existing Instance CountingRandom.

Local Open Scope R_scope.

Lemma sum_squares_zero (a b : R) : a * a + b * b = 0 -> a = 0 /\ b = 0.
Proof. intros H. split; nra. Qed.

Lemma complex_star_field : @StarFieldLaws ComplexScalar.
Proof.
  constructor; cbn [zero one add sub mul div conj ComplexScalar].
  - constructor; try intros [a b]; try intros [c d]; try intros [e f];
      unfold Cadd, Csub, Cmul; cbn [fst snd]; f_equal; ring.
  - intros H. injection H as H. lra.
  - intros [a b] [c d]. unfold Cdiv, Cmul, Cinv. cbn [fst snd].
    f_equal; ring.
  - intros [c d] Hb. unfold Cdiv, Cmul, Cinv. cbn [fst snd].
    assert (Hn : c * c + d * d <> 0).
    { intros E. apply sum_squares_zero in E as [-> ->]. now apply Hb. }
    f_equal; field; exact Hn.
  - unfold Cconj. cbn [fst snd]. f_equal. ring.
  - intros [a b] [c d]. unfold Cconj, Cadd. cbn [fst snd]. f_equal; ring.
  - intros [a b] [c d]. unfold Cconj, Cmul. cbn [fst snd]. f_equal; ring.
  - intros [a b] [c d]. unfold Cconj, Cdiv, Cmul, Cinv. cbn [fst snd].
    replace (c * c + - d * - d) with (c * c + d * d) by ring.
    unfold Rdiv. f_equal; ring.
  - intros [a b]. unfold Cconj. cbn [fst snd]. f_equal. ring.
Qed.

#[local] Existing Instance complex_star_field.

(** A squared norm is a real number that is not negative. *)
Lemma squared_norm_real (v : list scalar) :
  0 <= fst (hdot v v) /\ snd (hdot v v) = 0.
Proof.
  induction v as [|[a b] v [IH1 IH2]].
  - cbn. lra.
  - rewrite hdot_cons. cbn [add mul conj ComplexScalar].
    unfold Cadd, Cmul, Cconj. cbn [fst snd]. split; [nra|].
    rewrite IH2. ring.
Qed.

Lemma Csqrt_real (a : R) : 0 <= a -> Csqrt (a, 0) = (R_sqrt.sqrt a, 0).
Proof.
  intros Ha. unfold Csqrt. cbn [fst snd].
  replace (a * a + 0 * 0) with (a * a) by ring.
  rewrite sqrt_square by exact Ha.
  replace ((a + a) / 2) with a by field.
  replace ((a - a) / 2) with 0 by field.
  rewrite sqrt_0. f_equal. ring.
Qed.

Lemma complex_norm_laws : @NormLaws ComplexScalar.
Proof.
  constructor. intros v.
  destruct (squared_norm_real v) as [H1 H2].
  destruct (hdot v v) as [a b] eqn:E. cbn [fst snd] in H1, H2. subst b.
  cbn [sqrt mul conj ComplexScalar]. rewrite Csqrt_real by exact H1.
  unfold Cmul, Cconj. cbn [fst snd]. split; f_equal; try ring.
  rewrite sqrt_sqrt by exact H1. ring.
Qed.

Lemma counting_random_laws : @RandomLaws ComplexScalar CountingRandom.
Proof.
  constructor. intros g n. cbn. now rewrite length_map, length_seq.
Qed.

End ComplexFacts.
(** ** Eigenvalues that leave nothing above the cutoff, in binary64 *)

Module Binary64Edge.

Import Binary64 Binary64Facts Binary64Inputs.

#[local] Existing Instance Binary64Scalar.

Lemma fmaximum_nan_or_inf_l (a b : spec_float) :
  nan_or_inf a = true -> nan_or_inf (fmaximum a b) = true.
Proof.
  unfold fmaximum.
  destruct a as [[]|[]| |[] m1 e1]; try discriminate; intros _;
    [|reflexivity].
  destruct b as [[]|[]| |[] m2 e2]; reflexivity.
Qed.

Lemma fmaximum_nan_or_inf_r (a b : spec_float) :
  nan_or_inf b = true -> nan_or_inf (fmaximum a b) = true.
Proof.
  unfold fmaximum.
  destruct b as [[]|[]| |[] m2 e2]; try discriminate; intros _;
    destruct a as [[]|[]| |[] m1 e1]; reflexivity.
Qed.

Lemma fold_fmaximum_nan_or_inf (l : list spec_float) :
  forall x, nan_or_inf x = true \/ Exists (fun e => nan_or_inf e = true) l ->
  nan_or_inf (fold_left fmaximum l x) = true.
Proof.
  induction l as [|e l IH]; intros x [Hx | Hl]; cbn [fold_left].
  - exact Hx.
  - inversion Hl.
  - apply IH. left. now apply fmaximum_nan_or_inf_l.
  - apply IH. inversion Hl; subst.
    + left. now apply fmaximum_nan_or_inf_r.
    + now right.
Qed.

Lemma fmaximum_zero_or_nan (a b : spec_float) :
  zero_or_nan a = true -> zero_or_nan b = true ->
  zero_or_nan (fmaximum a b) = true.
Proof.
  unfold fmaximum.
  destruct a as [[]|[]| |[] m1 e1]; try discriminate;
    destruct b as [[]|[]| |[] m2 e2]; try discriminate; reflexivity.
Qed.

Lemma fold_fmaximum_zero_or_nan (l : list spec_float) :
  forall x, zero_or_nan x = true -> Forall (fun e => zero_or_nan e = true) l ->
  zero_or_nan (fold_left fmaximum l x) = true.
Proof.
  induction l as [|e l IH]; intros x Hx Hl; cbn [fold_left]; [exact Hx|].
  inversion Hl; subst. apply IH; [|assumption].
  now apply fmaximum_zero_or_nan.
Qed.

Section Calls.

Context {R : @Random Binary64Scalar} {Sv : @Solvers Binary64Scalar}
        {So : @Sorting Binary64Scalar} {SL : SortingLaws}.

Variables (A : operand) (k : Z) (ncv : option Z) (tol : scalar)
          (which : string) (v0 : option vector) (maxiter : option Z)
          (solver : option string).

(** The cutoff, once computed, in its two cases. *)
Lemma cutoff_shape (eigvec : ndarray) (eigvals : list scalar)
    (cutoff : scalar) :
  cutoff_of eigvec eigvals = Ok cutoff ->
  exists m e mx,
    np_max eigvals = Ok mx
    /\ cutoff = SFmul prec emax (S754_finite false m e) mx.
Proof.
  intros H.
  destruct (cutoff_of_inv eigvec eigvals cutoff H) as (Ht & mx & Hmx & ->).
  cbn [mul lit_1E3 lit_1E6 finfo_eps Binary64Scalar].
  destruct (lower (dtype eigvec) =? "f")%char;
    do 3 eexists; (split; [exact Hmx|reflexivity]).
Qed.

Lemma none_above_when_nan_or_inf (eigvec : ndarray)
    (eigvals : list scalar) (cutoff : scalar) :
  cutoff_of eigvec (clamp eigvals) = Ok cutoff ->
  Exists (fun e => nan_or_inf e = true) eigvals ->
  Forall (fun e => gt e cutoff = false) (clamp eigvals).
Proof.
  intros Hc Hex.
  destruct (cutoff_shape _ _ _ Hc) as (m & e & mx & Hmx & ->).
  assert (Hcl : Exists (fun e => nan_or_inf e = true) (clamp eigvals)).
  { unfold clamp. apply Exists_exists in Hex as (x & Hin & Hx).
    apply Exists_exists. exists (fmaximum x (S754_zero false)).
    split; [apply in_map_iff; exists x; split; [reflexivity|exact Hin]|].
    now apply fmaximum_nan_or_inf_l. }
  assert (Hm : nan_or_inf mx = true).
  { unfold np_max in Hmx. destruct (clamp eigvals) as [|x l]; [discriminate|].
    injection Hmx as <-. cbn [maximum Binary64Scalar].
    apply fold_fmaximum_nan_or_inf.
    inversion Hcl; subst; [now left|now right]. }
  apply Forall_forall. intros x _. cbn [gt mul Binary64Scalar].
  destruct mx as [[]|[]| |[] m1 e1]; try discriminate;
    destruct x as [[]|[]| |[] m2 e2]; reflexivity.
Qed.

Lemma none_above_when_none_positive (eigvec : ndarray)
    (eigvals : list scalar) (cutoff : scalar) :
  cutoff_of eigvec (clamp eigvals) = Ok cutoff ->
  Forall (fun e => gt e zero = false) eigvals ->
  Forall (fun e => gt e cutoff = false) (clamp eigvals).
Proof.
  intros Hc Hall.
  destruct (cutoff_shape _ _ _ Hc) as (m & e & mx & Hmx & ->).
  assert (Hcl : Forall (fun e => zero_or_nan e = true) (clamp eigvals)).
  { unfold clamp. apply Forall_map.
    eapply Forall_impl; [|exact Hall].
    intros x. cbn [gt maximum real zero Binary64Scalar]. unfold fmaximum.
    destruct x as [[]|[]| |[] m1 e1]; try discriminate; reflexivity. }
  assert (Hm : zero_or_nan mx = true).
  { unfold np_max in Hmx. destruct (clamp eigvals) as [|x l]; [discriminate|].
    injection Hmx as <-. cbn [maximum Binary64Scalar].
    inversion Hcl; subst. now apply fold_fmaximum_zero_or_nan. }
  eapply Forall_impl; [|exact Hcl].
  intros x Hx. cbn [gt mul Binary64Scalar].
  destruct mx as [[]|[]| |[] m1 e1]; try discriminate;
    destruct x as [[]|[]| |[] m2 e2]; try discriminate; reflexivity.
Qed.

(** The values-only call when nothing is above the cutoff. *)
Lemma values_only_zero (rsv : rsv_arg) (w w1 : world) (c : solved) :
  svds_eigenpairs A k ncv tol which v0 maxiter solver w = (Ok c, w1) ->
  (forall cutoff,
     cutoff_of (sv_eigvec c) (clamp (sv_eigvals c)) = Ok cutoff ->
     Forall (fun e => gt e cutoff = false) (clamp (sv_eigvals c))) ->
  (forall out w2,
     svds A k ncv tol which v0 maxiter rsv solver w = (Ok out, w2) ->
     values_of out = repeat zero (length (sv_eigvals c)))
  /\ (sv_eigvals c <> [] ->
      lower (dtype (sv_eigvec c)) = "f"%char
      \/ lower (dtype (sv_eigvec c)) = "d"%char ->
      truthy rsv = false ->
      svds A k ncv tol which v0 maxiter rsv solver w
      = (Ok (OutValues (repeat zero (length (sv_eigvals c)))), w1)).
Proof.
  intros Hpre Hnone.
  assert (Hinv : forall out w2,
     svds A k ncv tol which v0 maxiter rsv solver w = (Ok out, w2) ->
     values_of out = repeat zero (length (sv_eigvals c))).
  { intros out w2 H.
    rewrite (svds_after_eigenpairs _ _ _ _ _ _ _ _ _ _ _ _ Hpre) in H.
    pose proof H as H'.
    apply svds_assemble_inv in H' as (cutoff & Hc & _).
    exact (values_zero_when_none_reliable k rsv c cutoff w1 w2 out
             Hc (Hnone cutoff Hc) H). }
  split; [exact Hinv|].
  intros Hne Ht Hr.
  assert (Hne' : clamp (sv_eigvals c) <> []).
  { intros E. apply Hne. unfold clamp in E. now apply map_eq_nil in E. }
  destruct (cutoff_of_ok (sv_eigvec c) _ Ht Hne') as (mx & _ & Hc).
  pose proof (svds_after_eigenpairs A k ncv tol which v0 maxiter solver
                rsv w w1 c Hpre) as E.
  rewrite (svds_assemble_values k rsv c _ w1 Hc Hr) in E.
  pose proof (Hinv _ _ E) as Hv. cbn [values_of] in Hv.
  rewrite E, Hv. reflexivity.
Qed.

(** An eigenvalue that is a NaN or plus infinity takes all the others
    with it: the largest clamped eigenvalue and with it the cutoff are
    then a NaN or infinite, no eigenvalue is above the cutoff, and every
    singular value that the call returns is zero. *)
Theorem svds_nan_eigenvalue_zeros :
  forall (rsv : rsv_arg) (w w1 : world) (c : solved),
  svds_eigenpairs A k ncv tol which v0 maxiter solver w = (Ok c, w1) ->
  Exists (fun e => nan_or_inf e = true) (sv_eigvals c) ->
  (forall out w2,
     svds A k ncv tol which v0 maxiter rsv solver w = (Ok out, w2) ->
     values_of out = repeat zero (length (sv_eigvals c)))
  /\ (lower (dtype (sv_eigvec c)) = "f"%char
      \/ lower (dtype (sv_eigvec c)) = "d"%char ->
      truthy rsv = false ->
      svds A k ncv tol which v0 maxiter rsv solver w
      = (Ok (OutValues (repeat zero (length (sv_eigvals c)))), w1)).
Proof.
  intros rsv w w1 c Hpre Hex.
  destruct (values_only_zero rsv w w1 c Hpre) as [H1 H2].
  { intros cutoff Hc. now apply (none_above_when_nan_or_inf (sv_eigvec c)). }
  split; [exact H1|]. apply H2.
  intros E. rewrite E in Hex. inversion Hex.
Qed.

(** When no eigenvalue is above zero, each being negative, a zero or a
    NaN, every singular value that the call returns is zero: so it is
    for the matrix of zeros. *)
Theorem svds_no_positive_eigenvalue_zeros :
  forall (rsv : rsv_arg) (w w1 : world) (c : solved),
  svds_eigenpairs A k ncv tol which v0 maxiter solver w = (Ok c, w1) ->
  Forall (fun e => gt e zero = false) (sv_eigvals c) ->
  (forall out w2,
     svds A k ncv tol which v0 maxiter rsv solver w = (Ok out, w2) ->
     values_of out = repeat zero (length (sv_eigvals c)))
  /\ (sv_eigvals c <> [] ->
      lower (dtype (sv_eigvec c)) = "f"%char
      \/ lower (dtype (sv_eigvec c)) = "d"%char ->
      truthy rsv = false ->
      svds A k ncv tol which v0 maxiter rsv solver w
      = (Ok (OutValues (repeat zero (length (sv_eigvals c)))), w1)).
Proof.
  intros rsv w w1 c Hpre Hall.
  apply (values_only_zero rsv w w1 c Hpre).
  intros cutoff Hc. now apply (none_above_when_none_positive (sv_eigvec c)).
Qed.

End Calls.

End Binary64Edge.

(** ** The claims on concrete calls in binary64 *)

Module Binary64Examples.

Import Binary64 Binary64Facts Binary64Inputs.

#[local] Existing Instance Binary64Scalar.
#[local] Existing Instance CounterRandom.
#[local] Existing Instance DiagonalSolvers.
#[local] Existing Instance InsertionSorting.

(** The eigensolver, asked for the two largest eigenvalues of the Gram
    operator of [A43], answers with 1 and 4; asked for the two smallest,
    with 0 and 1. *)
Lemma eigenpairs_A43_LM :
  run_eigenpairs (OpArrayLike A43) 2 "LM" None world0
  = (Ok (solved_A43 [1; 4]%Z [1; 0]),
     world_after 0 [EvAsarray; EvHerm; EvGram; EvEigsh]).
Proof. reflexivity. Qed.

Lemma eigenpairs_A43_SM :
  run_eigenpairs (OpArrayLike A43) 2 "SM" None world0
  = (Ok (solved_A43 [0; 1]%Z [2; 1]),
     world_after 0 [EvAsarray; EvHerm; EvGram; EvEigsh]).
Proof. reflexivity. Qed.

Lemma keeps_columns_A43 : keeps_columns 3 (dot_matrix A43).
Proof. exact (dot_matrix_keeps_columns A43). Qed.

Lemma binary64_sorting_laws : @SortingLaws Binary64Scalar InsertionSorting.
Proof. exact (insertion_sort_laws (OL := binary64_order_laws)). Qed.

(** Extended precision: the call stops at [factor[t]]. *)
Lemma svds_KeyError_witness :
  fst (run (OpArrayLike A43g) 2 "LM" (RsvBool true) None world0)
  = Err (KeyError "g").
Proof.
  eassert (Hpre : run_eigenpairs (OpArrayLike A43g) 2 "LM" None world0
                  = (Ok _, _)) by reflexivity.
  destruct (svds_KeyError_outside_single_double
              (OpArrayLike A43g) 2 None (S754_zero false) "LM" None None None
              (RsvBool true) world0 _ _ Hpre) as [H _].
  unfold run. rewrite H; [reflexivity | discriminate | discriminate].
Defined.

(** The eigensolver on [T43]: the eigenvalues 2^-60 and 1, in this order. *)
Lemma eigenpairs_T43_LM :
  run_eigenpairs (OpArrayLike T43) 2 "LM" None world0
  = (Ok (solved_43 T43 [ldexp 1 (-60); of_Z 1] [0; 1]),
     world_after 0 [EvAsarray; EvHerm; EvGram; EvEigsh]).
Proof. reflexivity. Qed.

(** The eigenvalues 2^-60 and 1: the cutoff comes from the largest one, 1,
    not from the first, so 2^-60 is not reliable and its value is a zero
    put there, where its square root would be 2^-30. *)
Lemma svds_values_thresholded_witness :
  run (OpArrayLike T43) 2 "LM" (RsvBool false) None world0
  = (Ok (OutValues [S754_zero false; of_Z 1]),
     world_after 0 [EvAsarray; EvHerm; EvGram; EvEigsh]).
Proof.
  destruct (@svds_values_thresholded _ _ _ _
              (OpArrayLike T43) 2 None (S754_zero false) "LM" None None None
              binary64_order_laws binary64_comparison_laws
              (RsvBool false) world0 _ _ eigenpairs_T43_LM
              eq_refl (or_intror eq_refl))
    as (mx & Hmx & _ & _ & _ & _ & _ & _ & _ & _ & _ & H & _).
  injection Hmx as <-.
  unfold run. rewrite (H eq_refl). reflexivity.
Defined.

(** Mode ["vh"] on four rows and three columns: no left vectors. *)
Lemma svds_sides_returned_witness :
  exists s vh w2,
    run (OpArrayLike A43) 2 "LM" (RsvStr "vh") None world0
    = (Ok (OutTriple None s (Some vh)), w2).
Proof.
  destruct (@svds_sides_returned _ _ _ _
              (OpArrayLike A43) 2 None (S754_zero false) "LM" None None None
              binary64_sorting_laws
              (RsvStr "vh") world0 _ _ eigenpairs_A43_LM)
    as [Hinv Hret].
  destruct (Hret eq_refl eq_refl (or_intror eq_refl) keeps_columns_A43)
    as (out & w2 & H).
  pose proof (Hinv out w2 H) as Hs.
  destruct out as [s|u s vh]; [discriminate Hs|].
  destruct Hs as (_ & Hu & Hv).
  destruct u as [u|].
  - assert (E : Some u = None).
    { apply Hu. split; [cbn; lia|reflexivity]. }
    discriminate E.
  - destruct vh as [vh|].
    + exists s, vh, w2. exact H.
    + assert (E : (4 <= 3)%nat /\ RsvStr "vh" = RsvStr "u")
        by (now apply Hv).
      destruct E as [E _]. lia.
Defined.

(** The singular values 0 and 1 of the padded call ascend and are not
    negative. *)
Lemma svds_values_ascending_nonnegative_witness :
  exists out w2,
    run (OpArrayLike A43) 2 "SM" (RsvBool true) None world0 = (Ok out, w2)
    /\ Forall nonneg (values_of out) /\ ascending (values_of out).
Proof.
  destruct (@svds_values_ascending_nonnegative _ _ _ _
              (OpArrayLike A43) 2 None (S754_zero false) "SM" None None None
              binary64_order_laws binary64_sorting_laws
              (RsvBool true) world0 _ _ eigenpairs_A43_SM eq_refl)
    as [Hinv Hret].
  destruct (Hret eq_refl (or_intror eq_refl) keeps_columns_A43)
    as (out & w2 & H).
  destruct (Hinv out w2 H) as (_ & Hn & Ha & _).
  exists out, w2. auto.
Defined.

(** The values-only call against the call with both sides. *)
Lemma svds_values_only_agrees_witness :
  exists s,
    run (OpArrayLike A43) 2 "SM" (RsvBool false) None world0
    = (Ok (OutValues s), world_after 0 [EvAsarray; EvHerm; EvGram; EvEigsh])
    /\ forall out w2,
       run (OpArrayLike A43) 2 "SM" (RsvBool true) None world0 = (Ok out, w2) ->
       s = values_of out.
Proof.
  destruct (@svds_values_only_agrees _ _ _ _
              (OpArrayLike A43) 2 None (S754_zero false) "SM" None None None
              binary64_order_laws binary64_sorting_laws binary64_sign_laws
              (RsvBool false) world0 _ _ eigenpairs_A43_SM eq_refl
              (or_intror eq_refl) eq_refl)
    as (s & H & _ & _ & Hagree).
  exists s. split; [exact H|].
  intros out w2 Hout. exact (Hagree (RsvBool true) out w2 eq_refl Hout).
Defined.

(** C1 fails on the code.  On four rows and three columns, mode ["u"]
    returns the right singular vectors too; on three rows and four
    columns, mode ["vh"] returns the left singular vectors too. *)
Lemma svds_unrequested_side_returned :
  (exists u s vh w',
     run (OpArrayLike A43) 2 "LM" (RsvStr "u") None world0
     = (Ok (OutTriple u s (Some vh)), w'))
  /\ (exists u s vh w',
        run (OpSparse (_herm A43)) 2 "LM" (RsvStr "vh") None world0
        = (Ok (OutTriple (Some u) s vh), w')).
Proof.
  split.
  - exists (Some (array "d" 4 [unit_vector 4 1; unit_vector 4 0])),
           [of_Z 1; of_Z 2],
           (array "d" 2 [[of_Z 0; of_Z 1]; [of_Z 1; of_Z 0]; [of_Z 0; of_Z 0]]),
           (world_after 0 [EvAsarray; EvHerm; EvGram; EvEigsh; EvApply]).
    reflexivity.
  - exists (array "d" 3 [unit_vector 3 1; unit_vector 3 0]),
           [of_Z 1; of_Z 2],
           (Some (array "d" 2 [[of_Z 0; of_Z 1]; [of_Z 1; of_Z 0];
                               [of_Z 0; of_Z 0]; [of_Z 0; of_Z 0]])),
           (world_after 0 [EvHerm; EvGram; EvEigsh; EvApply]).
    reflexivity.
Qed.

(** The Gram operator of [A43] is 3-by-3 and applies [A43.dot] and then
    the product with the 3-by-4 conjugate transpose of [A43]. *)
Lemma svds_gram_operator_roles_witness :
  exists g w2 h,
    construct (OpArrayLike A43) 4 3 world0 = (Ok g, w2)
    /\ g_shape g = (3, 3)%nat
    /\ conjugate_transpose_of A43 h /\ shape h = (3, 4)%nat
    /\ forall x, g_matmat g x = and_then (dot_matrix A43 x) (dot_matrix h).
Proof.
  destruct (svds_gram_operator_roles (OpArrayLike A43) 4 3 world0 eq_refl)
    as (Hinv & Hex & _).
  destruct (Hex "d"%char eq_refl) as (g & w2 & Hc & _).
  pose proof Hc as Hc'. unfold construct in Hc'.
  apply bind_inv in Hc' as (p & w1 & Hs & Hg).
  destruct (Hinv p g w1 w2 Hs Hg)
    as (Hshape & _ & (h & Hh & Hsh & Hap) & _).
  exists g, w2, h. split; [exact Hc|]. split; [exact Hshape|].
  split; [exact Hh|]. split; [exact Hsh|].
  exact (proj2 (Hap : applies (g_matvec g) (g_matmat g)
                        (dot_vector A43) (dot_vector h)
                        (dot_matrix A43) (dot_matrix h))).
Defined.




Lemma padded_first_run :
  run (OpArrayLike A43) 2 "SM" (RsvBool true) (Some "lobpcg"%string) world0
  = padded_first.
Proof. reflexivity. Qed.

Lemma padded_second_run :
  run (OpArrayLike A43) 2 "SM" (RsvBool true) (Some "lobpcg"%string)
      (snd padded_first)
  = padded_second.
Proof. reflexivity. Qed.


(** A [LinearOperator] without a [dtype] attribute, in both shapes. *)
Lemma svds_dtype_not_resolved_witness :
  run (OpLinear L43) 2 "LM" (RsvBool true) None world0
  = (Err AttributeError_dtype, world0)
  /\ run (OpLinear L34) 2 "LM" (RsvBool true) None world0
     = (Err AttributeError_dtype, world_after 0 [EvProbe]).
Proof.
  split.
  - destruct (svds_dtype_not_resolved
                (OpLinear L43) 2 None (S754_zero false) "LM" None None
                (RsvBool true) None L43 world0 4 3
                eq_refl eq_refl eq_refl (or_introl eq_refl)) as (H & _).
    + cbn; lia.
    + apply H. lia.
  - destruct (svds_dtype_not_resolved
                (OpLinear L34) 2 None (S754_zero false) "LM" None None
                (RsvBool true) None L34 world0 3 4
                eq_refl eq_refl eq_refl (or_introl eq_refl)) as (_ & H).
    + cbn; lia.
    + eapply H; [lia|reflexivity].
Defined.


End Binary64Examples.

(** ** The augmentation on a concrete call in exact arithmetic *)

Module ComplexExamples.

Import ComplexNumbers ComplexFacts.

#[local] Existing Instance ComplexScalar.
#[local] Existing Instance CountingRandom.

Local Open Scope R_scope.

Ltac complex_arith :=
  unfold hdot, np_dot, vconj; cbn;
  unfold Cadd, Csub, Cdiv, Cinv, Cmul, Cconj, counting;
  cbn [fst snd Nat.add Z.of_nat Pos.of_succ_nat Pos.succ];
  repeat f_equal; try field; try lra.

Lemma e1_well_shaped : well_shaped e1.
Proof. repeat constructor. Qed.

Lemma e1_orthonormal : orthonormal (columns e1).
Proof.
  intros [|i] [|j] Hi Hj; cbn in Hi, Hj; try lia.
  complex_arith.
Qed.

(** The sample is [(1 + 3j, 2 + 4j)]; less its projection onto the first
    unit vector it is [(0, 2 + 4j)]. *)
Lemma e1_sample :
  sample 2 true start
  = (Ok [(1, 3); (2, 4)], {| rng := 4%nat; log := [EvRandn 2; EvRandn 2] |}).
Proof. unfold sample, bind, np_random_randn, ret. complex_arith. Qed.

Lemma e1_residual :
  fold_left subtract_projection (columns e1) [(1, 3); (2, 4)]
  = [(0, 0); (2, 4)].
Proof. unfold subtract_projection. complex_arith. Qed.

Lemma e1_residuals_nonzero : residuals_nonzero 2 true 1 (columns e1) start.
Proof.
  cbn [residuals_nonzero]. rewrite e1_sample. cbv zeta. rewrite e1_residual.
  split; [|exact I].
  intros H. apply (f_equal fst) in H. revert H. complex_arith.
Qed.


End ComplexExamples.
(** ** The further properties on concrete calls in binary64 *)

Module MoreExamples.

Import Binary64 Binary64Facts Binary64Inputs Binary64Edge Binary64Examples.

#[local] Existing Instance Binary64Scalar.
#[local] Existing Instance CounterRandom.
#[local] Existing Instance DiagonalSolvers.
#[local] Existing Instance InsertionSorting.

Lemma well_shaped_A43 : well_shaped A43.
Proof. repeat constructor. Qed.

(** Entry (0, 1) of [_herm(A43)] is entry (1, 0) of [A43]. *)
Lemma herm_conjugate_transpose_witness :
  nth 1 (nth 0 (columns (_herm A43)) []) zero
  = conj (nth 0 (nth 1 (columns A43) []) zero).
Proof.
  apply (proj2 (proj2 (proj2 (herm_conjugate_transpose A43)))).
  - vm_compute. lia.
  - vm_compute. lia.
Defined.

Lemma herm_involution_witness : _herm (_herm A43) = A43.
Proof.
  apply (herm_involution A43 well_shaped_A43).
  intros a. reflexivity.
Defined.

(** Nothing to append to a single column: nothing is drawn. *)
Lemma augmented_cols_draws_witness :
  exists y w',
    _augmented_orthonormal_cols x11 0 world0 = (Ok y, w')
    /\ y = x11 /\ w' = world0.
Proof.
  destruct (augmented_cols_draws x11 0 world0) as [(y & w' & H & _ & E) _].
  exists y, w'. split; [exact H|]. exact (E eq_refl).
Defined.

(** The eigensolver on the matrix with a NaN, and on the matrix of zeros. *)
Lemma eigenpairs_N43_LM :
  run_eigenpairs (OpArrayLike N43) 2 "LM" None world0
  = (Ok (solved_43 N43 [S754_nan; S754_nan] [1; 2]),
     world_after 0 [EvAsarray; EvHerm; EvGram; EvEigsh]).
Proof. reflexivity. Qed.

Lemma eigenpairs_Z43_LM :
  run_eigenpairs (OpArrayLike Z43) 2 "LM" None world0
  = (Ok (solved_43 Z43 [S754_zero false; S754_zero false] [1; 2]),
     world_after 0 [EvAsarray; EvHerm; EvGram; EvEigsh]).
Proof. reflexivity. Qed.

Lemma svds_nan_eigenvalue_zeros_witness :
  run (OpArrayLike N43) 2 "LM" (RsvBool false) None world0
  = (Ok (OutValues [S754_zero false; S754_zero false]),
     world_after 0 [EvAsarray; EvHerm; EvGram; EvEigsh]).
Proof.
  destruct (@svds_nan_eigenvalue_zeros CounterRandom DiagonalSolvers
              InsertionSorting binary64_sorting_laws
              (OpArrayLike N43) 2 None (S754_zero false) "LM" None None None
              (RsvBool false) world0 _ _ eigenpairs_N43_LM) as [_ H].
  - constructor. reflexivity.
  - exact (H (or_intror eq_refl) eq_refl).
Defined.

Lemma svds_no_positive_eigenvalue_zeros_witness :
  run (OpArrayLike Z43) 2 "LM" (RsvBool false) None world0
  = (Ok (OutValues [S754_zero false; S754_zero false]),
     world_after 0 [EvAsarray; EvHerm; EvGram; EvEigsh]).
Proof.
  destruct (@svds_no_positive_eigenvalue_zeros CounterRandom DiagonalSolvers
              InsertionSorting binary64_sorting_laws
              (OpArrayLike Z43) 2 None (S754_zero false) "LM" None None None
              (RsvBool false) world0 _ _ eigenpairs_Z43_LM) as [_ H].
  - repeat constructor.
  - apply H; [discriminate|right; reflexivity|reflexivity].
Defined.

(** The two largest eigenvalues 1 and 4 of [A43] are both above the
    cutoff: the generator stays where it was. *)
Lemma svds_no_padding_no_draw_witness :
  rng (snd (run (OpArrayLike A43) 2 "LM" (RsvBool true) None world0))
  = rng world0.
Proof.
  assert (Hc : cutoff_of (sv_eigvec (solved_A43 [1; 4]%Z [1; 0]))
                 (clamp (sv_eigvals (solved_A43 [1; 4]%Z [1; 0])))
               = Ok cutoff_A43_LM) by reflexivity.
  assert (Hall : Forall (fun e => gt e cutoff_A43_LM = true)
                   (clamp (sv_eigvals (solved_A43 [1; 4]%Z [1; 0]))))
    by (repeat constructor).
  exact (proj1 (@svds_no_padding_no_draw
                  Binary64Scalar CounterRandom DiagonalSolvers InsertionSorting
                  (OpArrayLike A43) 2 None (S754_zero false) "LM" None None None
                  (RsvBool true) world0
                  (world_after 0 [EvAsarray; EvHerm; EvGram; EvEigsh])
                  (solved_A43 [1; 4]%Z [1; 0]) cutoff_A43_LM
                  eigenpairs_A43_LM eq_refl Hc Hall _ _
                  (surjective_pairing _))).
Defined.

(** Mode ["vh"] on four rows and three columns. *)
Lemma svds_skipped_side_no_apply_witness :
  exists out w2,
    run (OpArrayLike A43) 2 "LM" (RsvStr "vh") None world0 = (Ok out, w2)
    /\ only is_randn
         (world_after 0 [EvAsarray; EvHerm; EvGram; EvEigsh]) w2.
Proof.
  apply (@svds_skipped_side_no_apply _ _ _ _
           (OpArrayLike A43) 2 None (S754_zero false) "LM" None None None
           binary64_sorting_laws
           (RsvStr "vh") world0 _ _ eigenpairs_A43_LM eq_refl eq_refl
           (or_intror eq_refl)).
  left. split; [vm_compute; lia|reflexivity].
Defined.

(** Two eigenvalues from ['lobpcg']: [ncv] and [v0] make no difference. *)
Lemma svds_lobpcg_ignores_ncv_v0_witness :
  svds (OpArrayLike A43) 2 None (S754_zero false) "LM" None None
       (RsvBool false) (Some "lobpcg"%string) world0
  = svds (OpArrayLike A43) 2 (Some 3%Z) (S754_zero false) "LM"
         (Some {| vdtype := "d"%char; vdata := unit_vector 3 0 |}) None
         (RsvBool false) (Some "lobpcg"%string) world0.
Proof.
  apply svds_lobpcg_ignores_ncv_v0. intros H. discriminate H.
Defined.

(** [A43] with both sides: [u] is 4-by-2 and [vh] is 2-by-3. *)
Lemma svds_output_shapes_witness :
  exists u s vh w2,
    run (OpArrayLike A43) 2 "LM" (RsvBool true) None world0
    = (Ok (OutTriple u s vh), w2)
    /\ (forall x, u = Some x -> shape x = (4, 2))
    /\ (forall y, vh = Some y -> shape y = (2, 3)).
Proof.
  destruct (@svds_output_shapes _ _ _ _
              (OpArrayLike A43) 2 None (S754_zero false) "LM" None None None
              binary64_sorting_laws
              A43 (RsvBool true) world0 _ _ (or_intror eq_refl)
              eigenpairs_A43_LM eq_refl eq_refl (or_intror eq_refl) eq_refl)
    as (u & s & vh & w2 & H & _ & Hu & Hv).
  exists u, s, vh, w2. split; [exact H|]. split; [exact Hu|exact Hv].
Defined.

(** The mode ["U"] is neither ["u"] nor ["vh"]: it counts as [True]. *)
Lemma svds_other_strings_witness :
  run (OpArrayLike A43) 2 "LM" (RsvStr "U") None world0
  = run (OpArrayLike A43) 2 "LM" (RsvBool true) None world0.
Proof.
  unfold run.
  apply (svds_other_strings (OpArrayLike A43) 2 None (S754_zero false) "LM"
           None None None "U" world0); discriminate.
Defined.

(** A matrix of one row and one column has no valid [k]. *)
Lemma svds_degenerate_shape_refused_witness :
  fst (run (OpArrayLike x11) 1 "LM" (RsvBool true) None world0)
  = Err (ValueError_k 1).
Proof.
  unfold run.
  rewrite (svds_degenerate_shape_refused (OpArrayLike x11) 1 None
             (S754_zero false) "LM" None None (RsvBool true) None world0 1 1
             eq_refl (or_introl eq_refl) (le_n 1)).
  reflexivity.
Defined.

End MoreExamples.
(** ** The Gram operator on a concrete matrix in exact arithmetic *)

Module MoreComplexExamples.

Import ComplexNumbers ComplexInputs ComplexFacts ComplexExamples.

#[local] Existing Instance ComplexScalar.
#[local] Existing Instance CountingRandom.

Local Open Scope R_scope.

(** The first unit vector of length two as a 2-by-1 matrix, a vector of
    one entry and a vector of two. *)
Lemma herm_dot_adjoint_witness :
  hdot (matrix_vector e1 [(2, 1)]) [(1, 0); (0, 1)]
  = hdot [(2, 1)] (matrix_vector (_herm e1) [(1, 0); (0, 1)]).
Proof.
  apply (@herm_dot_adjoint ComplexScalar complex_star_field e1
           [(2, 1)] [(1, 0); (0, 1)] e1_well_shaped eq_refl eq_refl).
Defined.

Lemma gram_operator_hermitian_psd_witness :
  exists p w1 ax gx gy,
    select_primitives (OpSparse e1) 2 1 start = (Ok p, w1)
    /\ X_dot p {| vdtype := "D"%char; vdata := [(2, 1)] |} = Ok ax
    /\ matvec_XH_X p {| vdtype := "D"%char; vdata := [(2, 1)] |} = Ok gx
    /\ matvec_XH_X p {| vdtype := "D"%char; vdata := [(0, 1)] |} = Ok gy
    /\ hdot (vdata gx) [(0, 1)] = hdot [(2, 1)] (vdata gy)
    /\ hdot (vdata gx) [(2, 1)] = hdot (vdata ax) (vdata ax).
Proof.
  eassert (Hp : select_primitives (OpSparse e1) 2 1 start = (Ok _, _))
    by reflexivity.
  destruct (@gram_operator_hermitian_psd ComplexScalar CountingRandom
              complex_star_field (OpSparse e1) e1 2 1 _ start _
              (@Build_vector ComplexScalar "D"%char [(2, 1)])
              (@Build_vector ComplexScalar "D"%char [(0, 1)])
              (or_introl eq_refl) e1_well_shaped eq_refl Hp eq_refl eq_refl)
    as (ax & gx & gy & H1 & H2 & H3 & _ & H4 & H5).
  eexists. eexists. exists ax, gx, gy.
  split; [exact Hp|]. repeat split; assumption.
Defined.

Lemma sqrt_one : Csqrt (1, 0) = (1, 0).
Proof. rewrite Csqrt_real by lra. now rewrite sqrt_1. Qed.

(** The number one is an eigenvector of the 1-by-1 Gram matrix of [e1]
    for the eigenvalue one: the left singular vector is [e1] itself. *)
Lemma reliable_vectors_orthonormal_witness :
  exists y q,
    dot_matrix e1 v1 = Ok y
    /\ divide y [Csqrt (1, 0)] = Ok q
    /\ shape q = (2%nat, 1%nat)
    /\ orthonormal (columns q).
Proof.
  destruct (@reliable_vectors_orthonormal ComplexScalar complex_star_field
              e1 v1 [(1, 0)] e1_well_shaped)
    as (y & q & Hy & Hq & Hs & Ho & _).
  - repeat constructor.
  - reflexivity.
  - reflexivity.
  - intros [|i] [|j] Hi Hj; cbn in Hi, Hj; try lia. complex_arith.
  - intros [|j] Hj; cbn in Hj; [|lia].
    cbn. unfold Cadd, Cmul, Cconj. cbn [fst snd].
    f_equal. f_equal; ring.
  - intros [|j] Hj; cbn in Hj; [|lia]. cbv zeta.
    cbn [nth sqrt mul conj zero ComplexScalar]. rewrite sqrt_one.
    split; [|split].
    + unfold Cmul. cbn [fst snd]. f_equal; ring.
    + unfold Cconj. cbn [fst snd]. f_equal; ring.
    + intros H. injection H as H. lra.
  - exists y, q. auto.
Defined.

End MoreComplexExamples.
